(** * hier2hier: the hierarchy propagator

    A shallow embedding of [HierarchyPropagator.forward]
    (hier2hier/models/hierarchyPropagator.py) and the properties of the
    message-passing loop: shapes, the children-info accumulator, the
    prefix/suffix split of every round, failure behaviour and the order
    in which the sub-modules are invoked.

    Tensors are two-dimensional and stored row-major: a list of rows, a row
    being a list of scalars.  The scalar type stands for the floating-point
    numbers of the tensor library and stays abstract, as do the learned
    row maps of the linear layers and of the gated-recurrent cells.

    Two further parts follow the propagator: the sample generator and
    transformer of the toy1 domain (domains/toy1/generate.py), over a heap
    of element objects, and the choice of run folder and checkpoint of the
    applications (src/DeepInXML/apps/config.py), over an interface to the
    file system. *)

From Stdlib Require Import ZArith QArith Sorted Ascii.
From stdpp Require Import base tactics option list strings pretty gmap.

Local Open Scope nat_scope.

(** ** Python exceptions and results *)

Inductive PyExc : Type :=
  | TypeError        (* calling an object that is not callable *)
  | IndexError       (* index out of range in tensor indexing *)
  | AssertionError   (* a failed [assert] *)
  | RuntimeError.    (* shape mismatch reported by a tensor operation *)

Inductive PyResult (A : Type) : Type :=
  | Ok (a : A)
  | Raise (e : PyExc).
Arguments Ok {A} a.
Arguments Raise {A} e.

Definition bindR {A B} (r : PyResult A) (k : A → PyResult B) : PyResult B :=
  match r with
  | Ok a => k a
  | Raise e => Raise e
  end.

Notation "x <-? e ;; k" := (bindR e (λ x, k))
  (at level 100, e at next level, k at level 200, right associativity).

Definition raises {A} (r : PyResult A) : Prop := ∃ e, r = Raise e.

(** ** The tensor substrate

    What the tensor library contributes and the embedding leaves abstract:
    the scalars with the three operations the propagator uses, the random
    kernel behind an active dropout, the batch-normalisation kernel with
    its running statistics, the count of tracked batches that a layer in
    training mode advances before it runs the kernel, and the identity of a
    debug hook. *)

Class Substrate : Type := {
  T : Type;
  fzero : T;
  fadd : T → T → T;
  fdiv : T → T → T;
  Rng : Type;
  bernoulli_drop : Q → Rng → list (list T) → list (list T) * Rng;
  Stats : Type;
  batch_norm_kernel : bool → Stats → list (list T) → list (list T) * Stats;
  batch_norm_track : Stats → Stats;
  Hook : Type;
}.

(** A feature row and a two-dimensional tensor. *)
Abbreviation row := (list T).
Abbreviation tensor := (list (list T)).

Section Propagator.
Context `{Sub : Substrate}.

(** [x.shape[0]] and, for a tensor with at least one row, [x.shape[1]]. *)
Definition nrows (x : tensor) : nat := length x.
Definition ncols (x : tensor) : nat :=
  match x with
  | r :: _ => length r
  | [] => 0
  end.

Definition has_width (w : nat) (x : tensor) : bool :=
  forallb (λ r, length r =? w) x.

(** *** Indexing [x[sel, ...]] with an integer index tensor

    A negative index counts from the end; an index outside [-n, n) raises
    [IndexError]. *)
Definition normalize_index (n : nat) (i : Z) : option nat :=
  if bool_decide (0 ≤ i < Z.of_nat n)%Z then Some (Z.to_nat i)
  else if bool_decide (- Z.of_nat n ≤ i < 0)%Z then Some (Z.to_nat (i + Z.of_nat n))
  else None.

Fixpoint index_rows (x : tensor) (sel : list Z) : PyResult tensor :=
  match sel with
  | [] => Ok []
  | i :: sel' =>
      match normalize_index (length x) i ≫= (x !!.) with
      | None => Raise IndexError
      | Some r => rs <-? index_rows x sel' ;; Ok (r :: rs)
      end
  end.

(** *** [nn.Linear(w, w)] and [nn.GRUCell(w, w)]

    Both act on each row of the batch on its own; the row maps carry the
    learned weights.  A row of the wrong width, or two batches of different
    length given to a cell, raise [RuntimeError]. *)
Definition Linear_forward (w : nat) (f : row → row) (x : tensor) : PyResult tensor :=
  if has_width w x then Ok (f <$> x) else Raise RuntimeError.

Definition GRUCell_forward (w : nat) (cell : row → row → row)
    (input hx : tensor) : PyResult tensor :=
  if (length input =? length hx) && has_width w input && has_width w hx
  then Ok (zip_with cell input hx)
  else Raise RuntimeError.

(** *** [nn.ZeroPad2d((0, 0, 0, deficit))]: [deficit] zero rows below. *)
Definition ZeroPad2d_bottom (deficit : nat) (x : tensor) : tensor :=
  x ++ replicate deficit (replicate (ncols x) fzero).

(** *** [a + b] for two tensors of one shape. *)
Definition same_shape (a b : tensor) : bool :=
  (length a =? length b) && (ncols a =? ncols b)
  && has_width (ncols a) a && has_width (ncols b) b.

Definition tensor_add (a b : tensor) : PyResult tensor :=
  if same_shape a b then Ok (zip_with (zip_with fadd) a b) else Raise RuntimeError.

(** *** [a / d.unsqueeze(-1)]

    [d] is one-dimensional with [F] entries, so the divisor has shape
    [(F, 1)] and broadcasts along the columns of [a].  Along the rows the
    broadcasting rule applies: equal counts divide row by row, a single
    divisor row serves every row of [a], a single row of [a] is repeated
    for every divisor row, and anything else raises [RuntimeError]. *)
Definition row_div (r : row) (d : T) : row := (λ y, fdiv y d) <$> r.

Definition div_by_column (a : tensor) (d : list T) : PyResult tensor :=
  if length a =? length d then Ok (zip_with row_div a d)
  else match d, a with
       | [d0], _ => Ok ((λ r, row_div r d0) <$> a)
       | _, [r0] => Ok (row_div r0 <$> d)
       | _, _ => Raise RuntimeError
       end.

(** ** The module and its hidden state *)

Record Dropout : Type := { p : Q }.

Record HierarchyPropagator : Type := {
  propagated_info_len : nat;
  node_info_propagator_stack_depth : nat;
  disable_batch_norm : bool;
  input_dropout : Dropout;
  transformParentInfo : row → row;
  overlayParentInfo : row → row → row;
  transformChildrenInfo : row → row;
  overlayChildrenInfo : row → row → row;
  dropout : Dropout;
  training : bool;
}.

(** The sub-module invocations the call log records: the debug hook, the
    two dropout layers, the normalisation and the two merge cells.  The
    linear layers [transformParentInfo] and [transformChildrenInfo] are
    pure row maps and their calls are not recorded. *)
Inductive Call : Type :=
  | CallDataDebugHook (h : Hook) (x : tensor) (label : string)
  | CallInputDropout
  | CallBatchNorm
  | CallOverlayParentInfo (rows : nat)
  | CallOverlayChildrenInfo (rows : nat)
  | CallDropout.

Record World : Type := {
  rng : Rng;
  bn_stats : Stats;
  calls : list Call;
}.

Definition M (A : Type) : Type := World → PyResult A * World.

Definition ret {A} (a : A) : M A := λ s, (Ok a, s).
Definition throw {A} (e : PyExc) : M A := λ s, (Raise e, s).
Definition bindM {A B} (m : M A) (k : A → M B) : M B :=
  λ s, match m s with
       | (Ok a, s') => k a s'
       | (Raise e, s') => (Raise e, s')
       end.
Definition lift {A} (r : PyResult A) : M A := λ s, (r, s).
Definition record (c : Call) : M () :=
  λ s, (Ok (), {| rng := rng s; bn_stats := bn_stats s; calls := calls s ++ [c] |}).

Notation "x <- e ;; k" := (bindM e (λ x, k))
  (at level 100, e at next level, k at level 200, right associativity).
Notation "e ;;; k" := (bindM e (λ _, k))
  (at level 100, k at level 200, right associativity).

(** [nn.Dropout(p)]: the identity in evaluation mode and for [p = 0];
    otherwise the random kernel, which advances the generator. *)
Definition dropout_active (train : bool) (d : Dropout) : bool :=
  train && negb (Qeq_bool (p d) 0).

Definition Dropout_forward (train : bool) (d : Dropout) (x : tensor) : M tensor :=
  if dropout_active train d
  then λ s, let '(y, g) := bernoulli_drop (p d) (rng s) x in
            (Ok y, {| rng := g; bn_stats := bn_stats s; calls := calls s |})
  else ret x.

(** [nn.BatchNorm1d(num_features)] on a two-dimensional input.  On an
    input of another width the kernel raises [RuntimeError]; in training
    mode the layer has advanced its count of tracked batches by then. *)
Definition BatchNorm1d_forward (num_features : nat) (train : bool) (x : tensor) : M tensor :=
  if has_width num_features x
  then λ s, let '(y, st) := batch_norm_kernel train (bn_stats s) x in
            (Ok y, {| rng := rng s; bn_stats := st; calls := calls s |})
  else λ s, (Raise RuntimeError,
             {| rng := rng s;
                bn_stats := if train then batch_norm_track (bn_stats s) else bn_stats s;
                calls := calls s |}).

(** Calling [dataDebugHook]; the default [None] is not callable. *)
Definition call_hook (hook : option Hook) (x : tensor) (label : string) : M () :=
  match hook with
  | None => throw TypeError
  | Some h => record (CallDataDebugHook h x label)
  end.

(** ** [forward] *)

Section Forward.
Variable self : HierarchyPropagator.

(** One pass of the inner loop over [childSelectorByNdfoList]
    (lines 136-150): gather, transform, then seed, or check, pad and add. *)
Definition accumulate_child (propagatedNodeInfoByNdfo : tensor)
    (propagatedChildrenInfoByNdfo : tensor) (childSelectorByNdfo : list Z)
    : PyResult tensor :=
  cur <-? index_rows propagatedNodeInfoByNdfo childSelectorByNdfo ;;
  cur <-? Linear_forward (propagated_info_len self) (transformChildrenInfo self) cur ;;
  if nrows propagatedChildrenInfoByNdfo =? 0 then
    Ok cur
  else if nrows cur <? nrows propagatedChildrenInfoByNdfo then
    Raise AssertionError
  else
    let acc :=
      if nrows propagatedChildrenInfoByNdfo <? nrows cur
      then ZeroPad2d_bottom (nrows cur - nrows propagatedChildrenInfoByNdfo)
             propagatedChildrenInfoByNdfo
      else propagatedChildrenInfoByNdfo in
    tensor_add acc cur.

Fixpoint children_loop (propagatedNodeInfoByNdfo : tensor)
    (childSelectorByNdfoList : list (list Z)) (acc : tensor) : PyResult tensor :=
  match childSelectorByNdfoList with
  | [] => Ok acc
  | childSelectorByNdfo :: rest =>
      acc' <-? accumulate_child propagatedNodeInfoByNdfo acc childSelectorByNdfo ;;
      children_loop propagatedNodeInfoByNdfo rest acc'
  end.

(** The accumulator starts as [torch.tensor([])], which has no rows. *)
Definition children_info (propagatedNodeInfoByNdfo : tensor)
    (childSelectorByNdfoList : list (list Z)) : PyResult tensor :=
  children_loop propagatedNodeInfoByNdfo childSelectorByNdfoList [].

(** Line 155-157: normalise by the child count when anything was accumulated. *)
Definition normalize_children (propagatedChildrenInfoByNdfo : tensor)
    (decreasingFanoutsFactor : list T) : PyResult tensor :=
  if nrows propagatedChildrenInfoByNdfo =? 0 then Ok propagatedChildrenInfoByNdfo
  else div_by_column propagatedChildrenInfoByNdfo decreasingFanoutsFactor.

(** Lines 159-180: split at [deficitStart], merge the children info into
    the prefix and put the suffix back.  [finalDeficit] is a Python integer
    tested for truth, so a negative value counts as true. *)
Definition merge_children (propagatedChildrenInfoByNdfo propagatedNodeInfoByNdfo : tensor)
    : M tensor :=
  let deficitStart := nrows propagatedChildrenInfoByNdfo in
  let finalDeficit := (Z.of_nat (nrows propagatedNodeInfoByNdfo) - Z.of_nat deficitStart)%Z in
  let nodeInfoPropgatedByDfoWhenNoChild := drop deficitStart propagatedNodeInfoByNdfo in
  let prefix := take deficitStart propagatedNodeInfoByNdfo in
  prefix <- (if nrows propagatedChildrenInfoByNdfo =? 0 then ret prefix
             else
               record (CallOverlayChildrenInfo (nrows prefix)) ;;;
               lift (GRUCell_forward (propagated_info_len self) (overlayChildrenInfo self)
                       propagatedChildrenInfoByNdfo prefix)) ;;
  ret (if bool_decide (finalDeficit = 0%Z) then prefix
       else prefix ++ nodeInfoPropgatedByDfoWhenNoChild).

(** The body of the propagation loop (lines 126-183). *)
Definition propagation_round (parentSelectorByNdfo : list Z)
    (childSelectorByNdfoList : list (list Z)) (decreasingFanoutsFactor : list T)
    (propagatedNodeInfoByNdfo : tensor) : M tensor :=
  propagatedParentInfoByNdfo <-
    lift (index_rows propagatedNodeInfoByNdfo parentSelectorByNdfo) ;;
  propagatedParentInfoByNdfo <-
    lift (Linear_forward (propagated_info_len self) (transformParentInfo self)
            propagatedParentInfoByNdfo) ;;
  propagatedChildrenInfoByNdfo <-
    lift (children_info propagatedNodeInfoByNdfo childSelectorByNdfoList) ;;
  record (CallOverlayParentInfo (nrows propagatedNodeInfoByNdfo)) ;;;
  propagatedNodeInfoByNdfo <-
    lift (GRUCell_forward (propagated_info_len self) (overlayParentInfo self)
            propagatedParentInfoByNdfo propagatedNodeInfoByNdfo) ;;
  propagatedChildrenInfoByNdfo <-
    lift (normalize_children propagatedChildrenInfoByNdfo decreasingFanoutsFactor) ;;
  propagatedNodeInfoByNdfo <-
    merge_children propagatedChildrenInfoByNdfo propagatedNodeInfoByNdfo ;;
  record CallDropout ;;;
  Dropout_forward (training self) (dropout self) propagatedNodeInfoByNdfo.

(** [for i in range(depth)]: the rounds, each on the previous result. *)
Fixpoint propagation_loop (depth : nat) (parentSelectorByNdfo : list Z)
    (childSelectorByNdfoList : list (list Z)) (decreasingFanoutsFactor : list T)
    (propagatedNodeInfoByNdfo : tensor) : M tensor :=
  match depth with
  | 0 => ret propagatedNodeInfoByNdfo
  | S depth' =>
      x <- propagation_round parentSelectorByNdfo childSelectorByNdfoList
             decreasingFanoutsFactor propagatedNodeInfoByNdfo ;;
      propagation_loop depth' parentSelectorByNdfo childSelectorByNdfoList
        decreasingFanoutsFactor x
  end.

(** [forward] (lines 79-185).  [tensorBoardHook] is not used by the body
    and is left out; the profiling decorator does not change the result. *)
Definition forward (propagatedNodeInfoByNdfo : tensor) (parentSelectorByNdfo : list Z)
    (childSelectorByNdfoList : list (list Z)) (decreasingFanoutsFactor : list T)
    (dataDebugHook : option Hook) : M tensor :=
  call_hook dataDebugHook propagatedNodeInfoByNdfo "ndfo" ;;;
  record CallInputDropout ;;;
  propagatedNodeInfoByNdfo <-
    Dropout_forward (training self) (input_dropout self) propagatedNodeInfoByNdfo ;;
  propagatedNodeInfoByNdfo <-
    (if negb (disable_batch_norm self) && (1 <? nrows propagatedNodeInfoByNdfo)
     then record CallBatchNorm ;;;
          BatchNorm1d_forward (propagated_info_len self) (training self)
            propagatedNodeInfoByNdfo
     else ret propagatedNodeInfoByNdfo) ;;
  call_hook dataDebugHook propagatedNodeInfoByNdfo "ndfo" ;;;
  propagation_loop (node_info_propagator_stack_depth self) parentSelectorByNdfo
    childSelectorByNdfoList decreasingFanoutsFactor propagatedNodeInfoByNdfo.

End Forward.

(** ** Preconditions

    What the data model asks of a batch, in the terms of the code. *)

(** Every row has [w] entries. *)
Definition widths (w : nat) (x : tensor) : Prop := Forall (λ r, length r = w) x.

(** The indices a tensor of [n] rows accepts. *)
Definition in_range (n : nat) (i : Z) : Prop := (- Z.of_nat n ≤ i < Z.of_nat n)%Z.

(** An index at or past the row count. *)
Definition beyond (n : nat) (i : Z) : Prop := (Z.of_nat n ≤ i)%Z.

(** The row an index selects. *)
Definition row_at (x : tensor) (i : Z) : row :=
  default [] (normalize_index (length x) i ≫= (x !!.)).

(** Length of the last array of the child-selector list, 0 for no array. *)
Definition last_len (sels : list (list Z)) : nat := default 0 (last (length <$> sels)).

(** Number of arrays holding an entry for row [i]: the child count of the
    node at rank [i], as the selectors record it. *)
Definition child_count (sels : list (list Z)) (i : nat) : nat :=
  length (filter (λ sel, i < length sel) sels).

(** The linear layers and the cells map rows of the configured width to
    rows of that width. *)
Record wf_module (self : HierarchyPropagator) : Prop := {
  transformParentInfo_width r :
    length r = propagated_info_len self →
    length (transformParentInfo self r) = propagated_info_len self;
  transformChildrenInfo_width r :
    length r = propagated_info_len self →
    length (transformChildrenInfo self r) = propagated_info_len self;
  overlayParentInfo_width i h :
    length i = propagated_info_len self → length h = propagated_info_len self →
    length (overlayParentInfo self i h) = propagated_info_len self;
  overlayChildrenInfo_width i h :
    length i = propagated_info_len self → length h = propagated_info_len self →
    length (overlayChildrenInfo self i h) = propagated_info_len self;
}.

(** A batch the loop body accepts: one feature row and one parent index per
    node, indices in range, child-selector arrays ordered by non-decreasing
    length and no longer than the node count, and one fanout factor per row
    of accumulated children info. *)
Record valid_batch (self : HierarchyPropagator) (x : tensor) (parentSel : list Z)
    (childSels : list (list Z)) (fanouts : list T) : Prop := {
  vb_widths : widths (propagated_info_len self) x;
  vb_parent_len : length parentSel = nrows x;
  vb_parent_range : Forall (in_range (nrows x)) parentSel;
  vb_child_range : Forall (Forall (in_range (nrows x))) childSels;
  vb_child_sorted : Sorted le (length <$> childSels);
  vb_child_len : last_len childSels ≤ nrows x;
  vb_fanouts : last_len childSels = 0 ∨ length fanouts = last_len childSels;
}.

(** A batch that differs from an accepted one in a single respect: the
    accumulated children info has more rows than there are nodes. *)
Record overlong_batch (self : HierarchyPropagator) (x : tensor) (parentSel : list Z)
    (childSels : list (list Z)) (fanouts : list T) : Prop := {
  ob_widths : widths (propagated_info_len self) x;
  ob_parent_len : length parentSel = nrows x;
  ob_parent_range : Forall (in_range (nrows x)) parentSel;
  ob_child_range : Forall (Forall (in_range (nrows x))) childSels;
  ob_child_sorted : Sorted le (length <$> childSels);
  ob_fanouts : length fanouts = last_len childSels;
  ob_child_len : nrows x < last_len childSels;
}.

(** Hidden state after further sub-module calls. *)
Definition logged (s : World) (cs : list Call) : World :=
  {| rng := rng s; bn_stats := bn_stats s; calls := calls s ++ cs |}.

(** The calls a propagation round can make. *)
Definition round_call (c : Call) : Prop :=
  match c with
  | CallOverlayParentInfo _ | CallOverlayChildrenInfo _ | CallDropout => True
  | _ => False
  end.

Definition is_children_merge (c : Call) : Prop :=
  match c with
  | CallOverlayChildrenInfo _ => True
  | _ => False
  end.

(** The result of a round before output dropout, in closed form: every row
    merged with its parent's transformed row, then the first
    [nrows acc] rows merged with the normalised children info [acc]. *)
Definition parent_merged (self : HierarchyPropagator) (parentSel : list Z)
    (x : tensor) : tensor :=
  zip_with (overlayParentInfo self)
    (transformParentInfo self <$> (row_at x <$> parentSel)) x.

Definition children_merged (self : HierarchyPropagator) (parentSel : list Z)
    (fanouts : list T) (x acc : tensor) : tensor :=
  zip_with (overlayChildrenInfo self) (zip_with row_div acc fanouts)
    (take (nrows acc) (parent_merged self parentSel x))
  ++ drop (nrows acc) (parent_merged self parentSel x).

Definition round_calls (n m : nat) : list Call :=
  CallOverlayParentInfo n
  :: (if m =? 0 then [] else [CallOverlayChildrenInfo m]) ++ [CallDropout].

(** A computation whose calls all satisfy [P]. *)
Definition emits {A} (P : Call → Prop) (m : M A) : Prop :=
  ∀ s, ∃ cs, calls (m s).2 = calls s ++ cs ∧ Forall P cs.

(** A computation that neither reads nor writes the generator and the
    running statistics: result and calls are the same from every state. *)
Definition steady {A} (m : M A) : Prop :=
  ∃ r cs, ∀ s, m s = (r, logged s cs).

(** A single-node tree: the rounds with the parent step alone, the node
    being its own parent. *)
Definition self_loop_row (self : HierarchyPropagator) (r : row) : row :=
  overlayParentInfo self (transformParentInfo self r) r.

Definition self_loop_round (self : HierarchyPropagator) (x : tensor) : M tensor :=
  record (CallOverlayParentInfo (nrows x)) ;;;
  record CallDropout ;;;
  Dropout_forward (training self) (dropout self) (self_loop_row self <$> x).

Fixpoint self_loop_rounds (self : HierarchyPropagator) (depth : nat) (x : tensor)
    : M tensor :=
  match depth with
  | 0 => ret x
  | S depth' => y <- self_loop_round self x ;; self_loop_rounds self depth' y
  end.

End Propagator.

(** The kernels of the substrate keep the shape of their input. *)
Definition shape_eq `{Sub : Substrate} (x y : tensor) : Prop :=
  Forall2 (λ r s, length r = length s) x y.

Class SubstrateOk (Sub : Substrate) : Prop := {
  bernoulli_drop_shape q g x : shape_eq x (bernoulli_drop q g x).1;
  batch_norm_kernel_shape b st x : shape_eq x (batch_norm_kernel b st x).1;
}.

(** ** A concrete substrate

    Integers stand for the scalars, the quotient for the division; an
    active dropout zeroes its input, and normalisation subtracts the
    column mean. *)
Module Concrete.

Definition column_sum (x : list (list Z)) (j : nat) : Z :=
  foldr (λ r acc, (default 0 (r !! j) + acc)%Z) 0%Z x.

Definition center (x : list (list Z)) : list (list Z) :=
  (λ r, imap (λ j v, (v - column_sum x j / Z.of_nat (length x))%Z) r) <$> x.

#[export] Instance ZSub : Substrate := {|
  T := Z; fzero := 0%Z; fadd := Z.add; fdiv := Z.div;
  Rng := nat;
  bernoulli_drop := λ _ g (x : list (list Z)), (map (map (λ _ : Z, 0%Z)) x, S g);
  Stats := nat;
  batch_norm_kernel := λ _ st x, (center x, S st);
  batch_norm_track := S;
  Hook := unit;
|}.

(** A propagator of width 1 with affine layers and cells. *)
Definition hp (depth : nat) (no_bn : bool) : HierarchyPropagator := {|
  propagated_info_len := 1;
  node_info_propagator_stack_depth := depth;
  disable_batch_norm := no_bn;
  input_dropout := {| p := 0 |};
  transformParentInfo := map (λ v, (2 * v + 1)%Z);
  overlayParentInfo := zip_with (λ a h, (a + 10 * h)%Z);
  transformChildrenInfo := map (λ v, (3 * v)%Z);
  overlayChildrenInfo := zip_with (λ a h, (a + 100 * h)%Z);
  dropout := {| p := 0 |};
  training := true;
|}.

(** The same propagator with an active input dropout. *)
Definition hp_input_dropout (depth : nat) (no_bn : bool) : HierarchyPropagator := {|
  propagated_info_len := 1;
  node_info_propagator_stack_depth := depth;
  disable_batch_norm := no_bn;
  input_dropout := {| p := 1 # 2 |};
  transformParentInfo := map (λ v, (2 * v + 1)%Z);
  overlayParentInfo := zip_with (λ a h, (a + 10 * h)%Z);
  transformChildrenInfo := map (λ v, (3 * v)%Z);
  overlayChildrenInfo := zip_with (λ a h, (a + 100 * h)%Z);
  dropout := {| p := 0 |};
  training := true;
|}.

Definition s0 : World := {| rng := 0; bn_stats := 0; calls := [] |}.

(** A four-node tree in NDFO order: node 0 has the children 1 and 2, node 1
    has the child 3.  The child selectors come shortest first: the second
    children, then the first children; one fanout factor per parent. *)
Definition x4 : list (list Z) := [[1]; [2]; [3]; [4]]%Z.
Definition parent4 : list Z := [0; 0; 0; 1]%Z.
Definition children4 : list (list Z) := [[2]; [1; 3]]%Z.
Definition fanouts4 : list Z := [2; 1]%Z.

(** A chain of three nodes: 0 is the parent of 1, 1 the parent of 2; the
    fanout factor holds the child count of every node. *)
Definition x3 : list (list Z) := [[1]; [2]; [3]]%Z.
Definition parent3 : list Z := [0; 0; 1]%Z.
Definition children3 : list (list Z) := [[1; 2]]%Z.
Definition fanouts3 : list Z := [1; 1; 0]%Z.

(** The same tree with the first children first, so that the longest
    array leads, and with the child count of every node as fanout factor. *)
Definition children4_longest_first : list (list Z) := [[1; 3]; [2]]%Z.
Definition fanouts4_per_node : list Z := [2; 1; 0; 0]%Z.

(** One node with a child-selector array of two entries: more rows of
    children info than nodes. *)
Definition x1 : list (list Z) := [[1]]%Z.
Definition parent1 : list Z := [0]%Z.
Definition children1_overlong : list (list Z) := [[0; 0]]%Z.
Definition fanouts1_overlong : list Z := [1; 1]%Z.

(** Two nodes, the second a child of the first. *)
Definition x2 : list (list Z) := [[1]; [3]]%Z.
Definition parent2 : list Z := [0; 0]%Z.
Definition children2 : list (list Z) := [[1]]%Z.
Definition fanouts2 : list Z := [1]%Z.
Definition fanouts2_per_node : list Z := [1; 0]%Z.

End Concrete.

(** ** Further notions for [forward] *)

Section PropagatorExtras.
Context `{Sub : Substrate}.

(** The same module with another value of
    [node_info_propagator_stack_depth]. *)
Definition set_depth (self : HierarchyPropagator) (depth : nat) : HierarchyPropagator :=
  {| propagated_info_len := propagated_info_len self;
     node_info_propagator_stack_depth := depth;
     disable_batch_norm := disable_batch_norm self;
     input_dropout := input_dropout self;
     transformParentInfo := transformParentInfo self;
     overlayParentInfo := overlayParentInfo self;
     transformChildrenInfo := transformChildrenInfo self;
     overlayChildrenInfo := overlayChildrenInfo self;
     dropout := dropout self;
     training := training self |}.

(** The tensor a round yields before output dropout, in closed form: the
    rows merged with their parents', then the leading rows merged with the
    children info that the accumulation gives for the tensor. *)
Definition round_result (self : HierarchyPropagator) (parentSel : list Z)
    (childSels : list (list Z)) (fanouts : list T) (x : tensor) : tensor :=
  match children_info self x childSels with
  | Ok acc => children_merged self parentSel fanouts x acc
  | Raise _ => x
  end.

(** A computation that leaves the component [f] of the hidden state as it
    found it, whether it returns or raises. *)
Definition keeps {A B} (f : World → B) (m : M A) : Prop :=
  ∀ s, f (m s).2 = f s.

End PropagatorExtras.

(** * The toy1 domain: sample generation and transformation

    An embedding of [generateSample] and [transformSample]
    (domains/toy1/generate.py).  The XML elements and element trees are
    Python objects that the functions mutate in place, so they live in a
    store: an element holds its tag, attributes, text and tail and the
    identities of its children; an element tree holds the identity of its
    root. *)

Module Toy1.

Inductive Exc : Type :=
  | IndexError    (* a child index or a random choice out of range *)
  | ValueError.   (* [list.remove] of an absent item *)

Inductive Res (A : Type) : Type :=
  | Return (a : A)
  | Throw (e : Exc).
Arguments Return {A} a.
Arguments Throw {A} e.

(** The random source behind [random.choice]: [randbelow g n] draws an
    index below [n]. *)
Class RandomSource : Type := {
  Gen : Type;
  randbelow : Gen → nat → nat * Gen;
}.

Class RandomSourceOk (R : RandomSource) : Prop := {
  randbelow_lt g n : 0 < n → (randbelow g n).1 < n;
}.

Definition loc : Type := nat.

(** What an element carries besides its children. *)
Record Info : Type := {
  tag : string;
  attrib : gmap string string;
  text : option string;
  tail : option string;
}.

Record Element : Type := {
  info : Info;
  children : list loc;
}.

Section Store.
Context `{R : RandomSource}.

Record Store : Type := {
  elements : gmap loc Element;   (* the [Element] objects *)
  roots : gmap loc loc;          (* the [ElementTree] objects: their [_root] *)
  gen : Gen;
}.

(** Computations on the store.  [None] stands for an identity that names
    no object, which no Python value does. *)
Definition H (A : Type) : Type := Store → option (Res A * Store).

Definition ret {A} (a : A) : H A := λ s, Some (Return a, s).
Definition throw {A} (e : Exc) : H A := λ s, Some (Throw e, s).
Definition bind {A B} (m : H A) (k : A → H B) : H B :=
  λ s, match m s with
       | Some (Return a, s') => k a s'
       | Some (Throw e, s') => Some (Throw e, s')
       | None => None
       end.

Notation "x <- e ;; k" := (bind e (λ x, k))
  (at level 100, e at next level, k at level 200, right associativity).
Notation "e ;;; k" := (bind e (λ _, k))
  (at level 100, k at level 200, right associativity).

Definition set_elements (s : Store) (es : gmap loc Element) : Store :=
  {| elements := es; roots := roots s; gen := gen s |}.
Definition set_roots (s : Store) (rs : gmap loc loc) : Store :=
  {| elements := elements s; roots := rs; gen := gen s |}.

(** [ET.Element(tag)]: a new element without attributes, text, tail or
    children. *)
Definition new_info (t : string) : Info :=
  {| tag := t; attrib := ∅; text := None; tail := None |}.

Definition Element_new (t : string) : H loc := λ s,
  let l := fresh (dom (elements s)) in
  Some (Return l,
        set_elements s (<[l := {| info := new_info t; children := [] |}]> (elements s))).

(** [element.append(subelement)]. *)
Definition Element_append (e sub : loc) : H () := λ s,
  match elements s !! e, elements s !! sub with
  | Some o, Some _ =>
      Some (Return (),
            set_elements s
              (<[e := {| info := info o; children := children o ++ [sub] |}]> (elements s)))
  | _, _ => None
  end.

(** [element[i]] for a non-negative [i]. *)
Definition Element_getitem (e : loc) (i : nat) : H loc := λ s,
  match elements s !! e with
  | Some o =>
      match children o !! i with
      | Some c => Some (Return c, s)
      | None => Some (Throw IndexError, s)
      end
  | None => None
  end.

(** [list.remove(x)]: without the first occurrence of [x]. *)
Fixpoint remove_first (x : loc) (l : list loc) : option (list loc) :=
  match l with
  | [] => None
  | y :: l' => if decide (x = y) then Some l' else (y ::.) <$> remove_first x l'
  end.

(** [element.remove(subelement)]. *)
Definition Element_remove (e sub : loc) : H () := λ s,
  match elements s !! e with
  | Some o =>
      match remove_first sub (children o) with
      | Some cs =>
          Some (Return (),
                set_elements s (<[e := {| info := info o; children := cs |}]> (elements s)))
      | None => Some (Throw ValueError, s)
      end
  | None => None
  end.

(** [ET.ElementTree(element)], [tree.getroot()] and [tree._setroot(element)]. *)
Definition ElementTree_new (root : loc) : H loc := λ s,
  match elements s !! root with
  | Some _ =>
      let t := fresh (dom (roots s)) in
      Some (Return t, set_roots s (<[t := root]> (roots s)))
  | None => None
  end.

Definition ElementTree_getroot (t : loc) : H loc := λ s,
  match roots s !! t with
  | Some r => Some (Return r, s)
  | None => None
  end.

Definition ElementTree_setroot (t root : loc) : H () := λ s,
  match roots s !! t with
  | Some _ => Some (Return (), set_roots s (<[t := root]> (roots s)))
  | None => None
  end.

(** [random.choice(seq)]. *)
Definition random_choice {A} (seq : list A) : H A := λ s,
  match seq with
  | [] => Some (Throw IndexError, s)
  | _ =>
      let '(i, g) := randbelow (gen s) (length seq) in
      match seq !! i with
      | Some a => Some (Return a, {| elements := elements s; roots := roots s; gen := g |})
      | None => None
      end
  end.

(** [generateSample] (lines 30-39); [generatorArgs] is not used. *)
Definition generateSample (tagPool : list string) : H loc :=
  tag1 <- random_choice tagPool ;;
  retval <- Element_new tag1 ;;
  tag2 <- random_choice tagPool ;;
  sub <- Element_new tag2 ;;
  Element_append retval sub ;;;
  ElementTree_new retval.

(** [transformSample] (lines 41-47). *)
Definition transformSample (xmlTree : loc) : H loc :=
  root <- ElementTree_getroot xmlTree ;;
  child <- Element_getitem root 0 ;;
  Element_remove root child ;;;
  Element_append child root ;;;
  ElementTree_setroot xmlTree child ;;;
  ElementTree_new child.

(** ** Trees as values

    The document a root element stands for, and the elements it is made
    of. *)
Inductive Tree : Type :=
  | Node (i : Info) (kids : list Tree).

Fixpoint all3 {A B C} (P : A → B → C → Prop)
    (xs : list A) (ys : list B) (zs : list C) : Prop :=
  match xs, ys, zs with
  | [], [], [] => True
  | x :: xs', y :: ys', z :: zs' => P x y z ∧ all3 P xs' ys' zs'
  | _, _, _ => False
  end.

(** [shape es t l L]: in the elements [es], the element [l] is the root of
    the document [t], whose elements are [L], root first and then child by
    child. *)
Fixpoint shape (es : gmap loc Element) (t : Tree) : loc → list loc → Prop :=
  match t with
  | Node i kids => λ l L,
      ∃ cls Ls,
        es !! l = Some {| info := i; children := cls |}
        ∧ L = l :: concat Ls
        ∧ all3 (shape es) kids cls Ls
  end.

(** [l] is the root of the document [t], no element of which occurs twice. *)
Definition is_tree (es : gmap loc Element) (t : Tree) (l : loc) (L : list loc) : Prop :=
  shape es t l L ∧ NoDup L.

Fixpoint size (t : Tree) : nat :=
  match t with
  | Node _ kids => S (foldr (λ k n, size k + n) 0 kids)
  end.

Fixpoint tags (t : Tree) : list string :=
  match t with
  | Node i kids => tag i :: foldr (λ k l, tags k ++ l) [] kids
  end.

(** The first child becomes the root and takes the old root, with the
    remaining children, as its last child. *)
Definition rotate (t : Tree) : option Tree :=
  match t with
  | Node ri (Node ci ckids :: kids) => Some (Node ci (ckids ++ [Node ri kids]))
  | Node _ [] => None
  end.

(** The store after a successful [transformSample]: the root without its
    first child, the first child with the root appended, the argument tree
    re-rooted and a new tree on the same root. *)
Definition transformed (s : Store) (xmlTree root child : loc)
    (o oc : Element) (rest : list loc) : Store :=
  let es1 := <[root := {| info := info o; children := rest |}]> (elements s) in
  let es2 := <[child := {| info := info oc; children := children oc ++ [root] |}]> es1 in
  let rs1 := <[xmlTree := child]> (roots s) in
  {| elements := es2;
     roots := <[fresh (dom rs1) := child]> rs1;
     gen := gen s |}.

End Store.
End Toy1.

(** ** A concrete random source and store for the toy1 domain *)

Module Toy1Concrete.
Import Toy1.

(** A counter as generator: the draw is the counter modulo the bound. *)
#[export] Instance CounterSource : RandomSource := {|
  Gen := nat;
  randbelow := λ g n, (g `mod` n, S g);
|}.

Definition empty_store : Store := {| elements := ∅; roots := ∅; gen := 0 |}.

Definition tagPool : list string := ["a"; "b"; "c"]%string.

(** The document [<r><c/><d/></r>] as objects: the tree 7 on the root 0 with
    the children 1 and 2. *)
Definition info_of (t : string) : Info := new_info t.

Definition store3 : Store := {|
  elements := {[ 0 := {| info := info_of "r"; children := [1; 2] |};
                 1 := {| info := info_of "c"; children := [] |};
                 2 := {| info := info_of "d"; children := [] |} ]};
  roots := {[ 7 := 0 ]};
  gen := 0;
|}.

Definition doc3 : Tree :=
  Node (info_of "r") [Node (info_of "c") []; Node (info_of "d") []].

(** The document [<r><c/></r>]: the tree 7 on the root 0 with the child 1. *)
Definition store2 : Store := {|
  elements := {[ 0 := {| info := info_of "r"; children := [1] |};
                 1 := {| info := info_of "c"; children := [] |} ]};
  roots := {[ 7 := 0 ]};
  gen := 0;
|}.

(** A single element [<r/>]. *)
Definition store1 : Store := {|
  elements := {[ 0 := {| info := info_of "r"; children := [] |} ]};
  roots := {[ 7 := 0 ]};
  gen := 0;
|}.

End Toy1Concrete.

(** * Run folders and checkpoints ([src/DeepInXML/apps/config.py])

    [getRunFolder] and [getLatestCheckpoint] decide, from the folders found
    below the training directory, which run is resumed or created and which
    checkpoint is the latest one.  A Python string is a list of characters.
    The operating system ([glob.glob], [os.listdir], [os.makedirs]) and the
    builtin [int] are an interface, [Os]; the contract [OsOk] states what the
    two functions rely on.  [os.path] is the POSIX one. *)

Module Config.

Abbreviation str := (list ascii).
Abbreviation lit s := (String.list_ascii_of_string s).

Inductive Exc :=
  | FileNotFoundError | NotADirectoryError | FileExistsError | PermissionError
  | ValueError.

Inductive Res (A : Type) :=
  | Return (a : A)
  | Throw (e : Exc).
Arguments Return {A} a.
Arguments Throw {A} e.

(** ** The interface to the operating system *)

Class Os := {
  (** the state of the file system *)
  Fs : Type;
  (** [glob.glob(pattern)]: the paths that match, in no particular order *)
  glob_glob : str → Fs → list str;
  (** [os.listdir(path)]: the names in a directory, or an [OSError] *)
  os_listdir : str → Fs → Res (list str);
  (** [os.makedirs(path, exist_ok=True)] *)
  os_makedirs : str → Fs → Res unit * Fs;
  (** [int(s)]; [None] stands for [ValueError] *)
  py_int : str → option Z
}.

(** ** Strings *)

Definition is_digit (c : ascii) : Prop := is_Some (Ascii.is_nat c).

Definition digit_value (c : ascii) : Z := Z.of_nat (default 0%nat (Ascii.is_nat c)).

(** The number a string of decimal digits denotes. *)
Definition decimal (s : str) : Z := foldl (λ acc c, (10 * acc + digit_value c)%Z) 0%Z s.

(** [s[a:b]] for [0 <= a <= b]. *)
Definition slice (a b : nat) (s : str) : str := take (b - a) (drop a s).

(** [s.replace(a, b)] for one-character [a] and [b]. *)
Definition replace (a b : ascii) (s : str) : str :=
  (λ c, if decide (c = a) then b else c) <$> s.

(** [s.endswith(t)]. *)
Definition endswith (s t : str) : bool := bool_decide (t `suffix_of` s).

(** [s.rstrip(c)]. *)
Fixpoint rstrip (c : ascii) (s : str) : str :=
  match s with
  | [] => []
  | x :: s' =>
      match rstrip c s' with
      | [] => if decide (x = c) then [] else [x]
      | r => x :: r
      end
  end.

(** [s.split(sep)] for a one-character separator. *)
Fixpoint split (sep : ascii) (s : str) : list str :=
  match s with
  | [] => [[]]
  | c :: s' =>
      if decide (c = sep) then [] :: split sep s'
      else match split sep s' with
           | p :: ps => (c :: p) :: ps
           | [] => [[c]]
           end
  end.

(** [str(n)] and the format [{:0>5}], which pads on the left. *)
Definition str_of_int (n : Z) : str := lit (pretty n).

Definition rjust (width : nat) (fill : ascii) (s : str) : str :=
  replicate (width - length s) fill ++ s.

(** The order of strings: lexicographic, by code point. *)
Fixpoint str_compare (a b : str) : comparison :=
  match a, b with
  | [], [] => Eq
  | [], _ :: _ => Lt
  | _ :: _, [] => Gt
  | x :: a', y :: b' =>
      match Ascii.compare x y with
      | Eq => str_compare a' b'
      | c => c
      end
  end.

Definition str_lt (a b : str) : bool :=
  match str_compare a b with Lt => true | _ => false end.

Definition str_le (a b : str) : bool :=
  match str_compare a b with Gt => false | _ => true end.

(** [max] of a non-empty list of strings: the first of the greatest. *)
Definition max_str (x : str) (xs : list str) : str :=
  foldl (λ m y, if str_lt m y then y else m) x xs.

(** [max] of a list of integers, [None] on the empty list. *)
Definition max_int (l : list Z) : option Z :=
  foldr (λ i acc, Some (from_option (Z.max i) i acc)) None l.

(** [os.path.basename] and [os.path.dirname]. *)
Fixpoint basename (p : str) : str :=
  match p with
  | [] => []
  | c :: p' =>
      if bool_decide ("/"%char ∈ p') then basename p'
      else if decide (c = "/"%char) then p' else c :: p'
  end.

Definition dirname (p : str) : str :=
  let head := take (length p - length (basename p)) p in
  if bool_decide (head ≠ [] ∧ Exists (λ c, c ≠ "/"%char) head)
  then rstrip "/" head else head.

(** ** The two functions *)

Section Model.
Context `{Os}.

Definition run_pattern : str :=
  lit "run." ++ concat (replicate 5 (lit "[0-9]")) ++ lit ".*".

Definition chk_pattern : str := lit "Chk*/output_vocab.pt".

(** Line 200: the matches whose listing is not empty; a listing that fails
    ends the comprehension. *)
Fixpoint nonempty_folders (paths : list str) (fs : Fs) : Res (list str) :=
  match paths with
  | [] => Return []
  | fullFolderPath :: paths' =>
      match os_listdir fullFolderPath fs with
      | Throw e => Throw e
      | Return names =>
          match nonempty_folders paths' fs with
          | Throw e => Throw e
          | Return rest =>
              Return (if names is [] then rest else fullFolderPath :: rest)
          end
      end
  end.

(** Lines 202-203: the dictionary from run index to run folder; a later
    folder with the same index replaces an earlier one. *)
Fixpoint index_folders (runFolders : list str) (m : gmap Z str)
    : Res (gmap Z str) :=
  match runFolders with
  | [] => Return m
  | runFolder :: rest =>
      match py_int (slice 4 9 (basename runFolder)) with
      | None => Throw ValueError
      | Some i =>
          index_folders rest (<[i := replace "\" "/" runFolder ++ lit "/"]> m)
      end
  end.

(** Lines 199-203. *)
Definition run_index_map (dataFolderPath allRunsFolder : str) (fs : Fs)
    : Res (gmap Z str) :=
  let existingRunFolders :=
    glob_glob (dataFolderPath ++ allRunsFolder ++ run_pattern) fs in
  match nonempty_folders existingRunFolders fs with
  | Throw e => Throw e
  | Return existingRunFolders =>
      index_folders (drop (length dataFolderPath) <$> existingRunFolders) ∅
  end.

(** Lines 205-206; the order of the list plays no role, it is only tested
    for emptiness and membership and passed to [max]. *)
Definition compatible_indices (suffix : str) (m : gmap Z str) : list Z :=
  (filter (λ kv, endswith kv.2 (lit "." ++ suffix ++ lit "/")) (map_to_list m)).*1.

(** The format ["{0}run.{1:0>5}.{2}/"] of lines 226 and 239. *)
Definition run_folder_format (allRunsFolder : str) (runIndex : Z) (suffix : str)
    : str :=
  allRunsFolder ++ lit "run." ++ rjust 5 "0" (str_of_int runIndex)
    ++ lit "." ++ suffix ++ lit "/".

(** Lines 226-228 and 239-241. *)
Definition create_run (dataFolderPath allRunsFolder : str) (runIndex : Z)
    (suffix : str) (fs : Fs) : Res (str * Z * bool) * Fs :=
  let runFolder := run_folder_format allRunsFolder runIndex suffix in
  match os_makedirs (dataFolderPath ++ runFolder) fs with
  | (Return _, fs') => (Return (runFolder, runIndex, false), fs')
  | (Throw e, fs') => (Throw e, fs')
  end.

(** [getRunFolder] (lines 188-243). *)
Definition getRunFolder (dataFolderPath allRunsFolder : str)
    (runIndex : option Z) (resume create : bool) (suffix : str) (fs : Fs)
    : Res (str * Z * bool) * Fs :=
  match run_index_map dataFolderPath allRunsFolder fs with
  | Throw e => (Throw e, fs)
  | Return runIndexToFolderMap =>
      let compatibleRunIndices := compatible_indices suffix runIndexToFolderMap in
      let runIndex :=
        match runIndex with
        | Some i => Some i
        | None =>
            if resume then
              if bool_decide (compatibleRunIndices ≠ []) then max_int compatibleRunIndices
              else None
            else if bool_decide (runIndexToFolderMap ≠ ∅) then
              (λ i, (i + 1)%Z) <$> max_int (map_to_list runIndexToFolderMap).*1
            else Some 0%Z
        end in
      match runIndex with
      | Some runIndex =>
          match runIndexToFolderMap !! runIndex with
          | None =>
              if create then create_run dataFolderPath allRunsFolder runIndex suffix fs
              else (Throw FileNotFoundError, fs)
          | Some runFolder =>
              if bool_decide (runIndex ∈ compatibleRunIndices)
              then (Return (runFolder, runIndex, true), fs)
              else (Throw ValueError, fs)
          end
      | None =>
          if create then
            let runIndex :=
              if bool_decide (runIndexToFolderMap ≠ ∅)
              then (default 0 (max_int (map_to_list runIndexToFolderMap).*1) + 1)%Z
              else 0%Z in
            create_run dataFolderPath allRunsFolder runIndex suffix fs
          else (Throw FileNotFoundError, fs)
      end
  end.

(** [getLatestCheckpoint] (lines 245-258).  The unpacking into two names
    raises [ValueError] unless there are exactly two items. *)
Definition getLatestCheckpoint (dataFolderPath runFolder : str) (fs : Fs)
    : Res (Z * Z * option str) :=
  match glob_glob (dataFolderPath ++ runFolder ++ chk_pattern) fs with
  | [] => Return ((-1)%Z, (-1)%Z, None)
  | p :: ps =>
      let latestCheckpoint := max_str p ps in
      let checkpointFolder := basename (dirname latestCheckpoint) in
      let stepDotEpochStr := drop (length (lit "Chk")) checkpointFolder in
      match mapM py_int (split "." stepDotEpochStr) with
      | Some [checkpointEpoch; checkpointStep] =>
          Return (checkpointEpoch, checkpointStep, Some checkpointFolder)
      | _ => Throw ValueError
      end
  end.

(** ** What the functions see *)

(** A directory path without glob characters that ends in one slash. *)
Definition magic (c : ascii) : Prop := c = "*"%char ∨ c = "?"%char ∨ c = "["%char.

Definition plain (D : str) : Prop :=
  ∃ D', D = D' ++ ["/"%char] ∧ last D' ≠ Some "/"%char ∧ Forall (λ c, ¬ magic c) D.

(** The path of the entry [run.<d>.<rest>] of the runs folder. *)
Definition run_path (dataFolderPath allRunsFolder d rest : str) : str :=
  dataFolderPath ++ allRunsFolder ++ lit "run." ++ d ++ "."%char :: rest.

(** The value the dictionary holds for that entry. *)
Definition run_folder_of (allRunsFolder d rest : str) : str :=
  replace "\" "/" (allRunsFolder ++ lit "run." ++ d ++ "."%char :: rest) ++ lit "/".

(** The entry, with its five digits [d], is found by the pattern and is a
    directory that is not empty. *)
Definition listed (dataFolderPath allRunsFolder : str) (fs : Fs) (d rest : str)
    : Prop :=
  length d = 5%nat ∧ Forall is_digit d
  ∧ run_path dataFolderPath allRunsFolder d rest
      ∈ glob_glob (dataFolderPath ++ allRunsFolder ++ run_pattern) fs
  ∧ ∃ n ns, os_listdir (run_path dataFolderPath allRunsFolder d rest) fs
            = Return (n :: ns).

(** Every match of the pattern can be listed. *)
Definition listable (dataFolderPath allRunsFolder : str) (fs : Fs) : Prop :=
  ∀ p, p ∈ glob_glob (dataFolderPath ++ allRunsFolder ++ run_pattern) fs →
       ∃ names, os_listdir p fs = Return names.

(** No two listed run folders share their index. *)
Definition unique_indices (dataFolderPath allRunsFolder : str) (fs : Fs) : Prop :=
  ∀ d1 r1 d2 r2,
    listed dataFolderPath allRunsFolder fs d1 r1 →
    listed dataFolderPath allRunsFolder fs d2 r2 →
    d1 = d2 → r1 = r2.

(** The folder belongs to runs of the given suffix. *)
Definition compatible (suffix folder : str) : Prop :=
  (lit "." ++ suffix ++ lit "/") `suffix_of` folder.

(** The path of the vocabulary file of checkpoint folder [Chk<name>]. *)
Definition chk_path (R name : str) : str :=
  R ++ lit "Chk" ++ name ++ lit "/output_vocab.pt".

End Model.

(** ** The contract of the interface

    [int] reads a string of ASCII digits as a decimal number (up to the
    digit limit of the interpreter); [glob.glob] returns paths made of the
    directory given and a name that matches the last component of the
    pattern, when the directory is [plain]. *)
Class OsOk `{Os} := {
  py_int_decimal s :
    s ≠ [] → Forall is_digit s → (length s ≤ 4300)%nat →
    py_int s = Some (decimal s);
  glob_run D fs p :
    plain D → p ∈ glob_glob (D ++ run_pattern) fs →
    ∃ d rest, p = D ++ lit "run." ++ d ++ "."%char :: rest
              ∧ length d = 5%nat ∧ Forall is_digit d ∧ "/"%char ∉ rest;
  glob_chk R fs p :
    plain R → p ∈ glob_glob (R ++ chk_pattern) fs →
    ∃ name, p = chk_path R name ∧ "/"%char ∉ name
}.

End Config.

(** ** A concrete file system

    A file system given by its directories: the path of each one, which ends
    in a slash, with the names in it.  A name in a directory that is not
    itself a directory is a file.  [glob] knows the two patterns of the
    module, and [int_digits] is [int] on strings of digits. *)

Module ConfigConcrete.
Import Config.

Definition DirFs : Type := list (str * list str).

Fixpoint entries (dir : str) (fs : DirFs) : option (list str) :=
  match fs with
  | [] => None
  | (d, names) :: fs' => if decide (d = dir) then Some names else entries dir fs'
  end.

(** The names [run.[0-9][0-9][0-9][0-9][0-9].*] matches. *)
Definition run_name (n : str) : Prop :=
  take 4 n = lit "run." ∧ length (slice 4 9 n) = 5%nat
  ∧ Forall is_digit (slice 4 9 n) ∧ take 1 (drop 9 n) = ["."%char]
  ∧ "/"%char ∉ drop 10 n.

(** The names [Chk*] matches, of directories that hold the vocabulary. *)
Definition chk_name (fs : DirFs) (R n : str) : Prop :=
  take 3 n = lit "Chk" ∧ ("/"%char ∉ n)
  ∧ lit "output_vocab.pt" ∈ default [] (entries (R ++ n ++ lit "/") fs).

Definition glob (pattern : str) (fs : DirFs) : list str :=
  if bool_decide (run_pattern `suffix_of` pattern) then
    let D := take (length pattern - length run_pattern) pattern in
    (λ n, D ++ n) <$> filter run_name (default [] (entries D fs))
  else if bool_decide (chk_pattern `suffix_of` pattern) then
    let R := take (length pattern - length chk_pattern) pattern in
    (λ n, R ++ n ++ lit "/output_vocab.pt")
      <$> filter (chk_name fs R) (default [] (entries R fs))
  else [].

Definition listdir (p : str) (fs : DirFs) : Res (list str) :=
  match entries (p ++ lit "/") fs with
  | Some names => Return names
  | None =>
      let parent := take (length p - length (basename p)) p in
      if bool_decide (basename p ∈ default [] (entries parent fs))
      then Throw NotADirectoryError else Throw FileNotFoundError
  end.

Fixpoint add_name (dir name : str) (fs : DirFs) : DirFs :=
  match fs with
  | [] => [(dir, [name])]
  | (d, names) :: fs' =>
      if decide (d = dir) then (d, names ++ [name]) :: fs'
      else (d, names) :: add_name dir name fs'
  end.

(** [makedirs] of a path that ends in a slash; one level is created. *)
Definition makedirs (p : str) (fs : DirFs) : Res unit * DirFs :=
  match entries p fs with
  | Some _ => (Return (), fs)
  | None =>
      let q := rstrip "/" p in
      let parent := take (length q - length (basename q)) q in
      if bool_decide (basename q ∈ default [] (entries parent fs))
      then (Throw FileExistsError, fs)
      else (Return (), add_name parent (basename q) fs ++ [(p, [])])
  end.

Definition int_digits (s : str) : option Z :=
  if decide (s ≠ [] ∧ Forall is_digit s) then Some (decimal s) else None.

#[export] Instance DirOs : Os := {|
  Fs := DirFs;
  glob_glob := glob;
  os_listdir := listdir;
  os_makedirs := makedirs;
  py_int := int_digits
|}.

(** A training directory with three run folders, the last one new and still
    empty, and a stray file. *)
Definition training_dir : str := lit "/data/".
Definition allRunsFolder : str := lit "runFolders/".
Definition run0 : str := lit "runFolders/run.00000.toy1_3/".
Definition run1 : str := lit "runFolders/run.00001.toy2_3/".

Definition fs0 : DirFs :=
  [ (lit "/data/runFolders/",
      [lit "run.00000.toy1_3"; lit "run.00001.toy2_3"; lit "run.00002.toy1_3"]);
    (lit "/data/runFolders/run.00000.toy1_3/",
      [lit "Chk0001.000100"; lit "Chk0002.000250"; lit "log.txt"]);
    (lit "/data/runFolders/run.00000.toy1_3/Chk0001.000100/",
      [lit "output_vocab.pt"]);
    (lit "/data/runFolders/run.00000.toy1_3/Chk0002.000250/",
      [lit "model.pt"; lit "output_vocab.pt"]);
    (lit "/data/runFolders/run.00001.toy2_3/", [lit "ChkFinal"]);
    (lit "/data/runFolders/run.00001.toy2_3/ChkFinal/", [lit "output_vocab.pt"]);
    (lit "/data/runFolders/run.00002.toy1_3/", []) ].

(** The same with a file named like a run folder. *)
Definition fs1 : DirFs :=
  [ (lit "/data/runFolders/", [lit "run.00000.toy1_3"; lit "run.00007.txt"]);
    (lit "/data/runFolders/run.00000.toy1_3/", [lit "log.txt"]) ].

End ConfigConcrete.

(** * Properties *)

Section Basics.
Context `{Sub : Substrate}.

(** ** Widths and shapes *)

Lemma has_width_true w (x : tensor) : has_width w x = true ↔ widths w x.
Proof.
  unfold has_width, widths. induction x as [|r x IH]; simpl.
  - split; [constructor | done].
  - rewrite andb_true_iff, Nat.eqb_eq, IH, Forall_cons. done.
Qed.

Lemma has_width_of w (x : tensor) : widths w x → has_width w x = true.
Proof. apply has_width_true. Qed.

Lemma widths_ncols w (x : tensor) : widths w x → x ≠ [] → ncols x = w.
Proof. destruct 1; [done | simpl; auto]. Qed.

Lemma shape_eq_length (x y : tensor) : shape_eq x y → length y = length x.
Proof. intros H. symmetry. by eapply Forall2_length. Qed.

Lemma shape_eq_widths w (x y : tensor) : shape_eq x y → widths w x → widths w y.
Proof.
  unfold shape_eq, widths. induction 1 as [|r s x y Hrs _ IH]; intros Hx.
  - constructor.
  - apply Forall_cons in Hx as [Hr Hx]. constructor; [congruence | auto].
Qed.

Lemma shape_eq_refl (x : tensor) : shape_eq x x.
Proof. unfold shape_eq. induction x; constructor; auto. Qed.

Lemma shape_eq_trans (x y z : tensor) : shape_eq x y → shape_eq y z → shape_eq x z.
Proof.
  unfold shape_eq. intros H. revert z.
  induction H as [|r s x y Hrs _ IH]; intros z Hz; inversion Hz; subst;
    constructor; [congruence | auto].
Qed.

(** ** Indexing *)

Lemma normalize_index_in_range n i :
  in_range n i → ∃ k, normalize_index n i = Some k ∧ k < n.
Proof.
  unfold in_range, normalize_index. intros Hi.
  repeat case_bool_decide; try lia; eexists; (split; [reflexivity | lia]).
Qed.

Lemma normalize_index_outside n i : ¬ in_range n i → normalize_index n i = None.
Proof.
  unfold in_range, normalize_index. intros Hi.
  repeat case_bool_decide; try reflexivity; lia.
Qed.

Lemma lookup_in_range (x : tensor) i :
  in_range (length x) i →
  ∃ r, normalize_index (length x) i ≫= (x !!.) = Some r ∧ r ∈ x.
Proof.
  intros (k & -> & Hk)%normalize_index_in_range. simpl.
  destruct (lookup_lt_is_Some_2 x k Hk) as [r Hr].
  exists r. split; [done | by eapply list_elem_of_lookup_2].
Qed.

Lemma row_at_elem (x : tensor) i : in_range (length x) i → row_at x i ∈ x.
Proof.
  intros (r & Hr & Hin)%lookup_in_range. unfold row_at. by rewrite Hr.
Qed.

Lemma index_rows_ok (x : tensor) sel :
  Forall (in_range (length x)) sel → index_rows x sel = Ok (row_at x <$> sel).
Proof.
  induction 1 as [|i sel Hi _ IH]; simpl; [done |].
  unfold row_at at 1.
  destruct (lookup_in_range x i Hi) as (r & -> & _).
  by rewrite IH.
Qed.

Lemma index_rows_raise (x : tensor) sel :
  Exists (λ i, ¬ in_range (length x) i) sel → index_rows x sel = Raise IndexError.
Proof.
  induction 1 as [i sel Hi | i sel _ IH]; simpl.
  - by rewrite (normalize_index_outside _ _ Hi).
  - destruct (normalize_index (length x) i ≫= (x !!.)); [by rewrite IH | done].
Qed.

Lemma widths_row_at w (x : tensor) sel :
  widths w x → Forall (in_range (length x)) sel → widths w (row_at x <$> sel).
Proof.
  unfold widths. intros Hx Hsel. apply Forall_fmap.
  eapply Forall_impl; [exact Hsel |]. intros i Hi. simpl.
  rewrite Forall_forall in Hx. apply Hx. by apply row_at_elem.
Qed.

(** ** Layers and cells *)

Lemma Linear_forward_ok w f (x : tensor) :
  widths w x → Linear_forward w f x = Ok (f <$> x).
Proof. intros Hx. unfold Linear_forward. by rewrite has_width_of. Qed.

Lemma widths_fmap w (f : row → row) (x : tensor) :
  (∀ r, length r = w → length (f r) = w) → widths w x → widths w (f <$> x).
Proof.
  unfold widths. intros Hf Hx. apply Forall_fmap.
  eapply Forall_impl; [exact Hx | done].
Qed.

Lemma GRUCell_forward_ok w cell (input hx : tensor) :
  length input = length hx → widths w input → widths w hx →
  GRUCell_forward w cell input hx = Ok (zip_with cell input hx).
Proof.
  intros Hlen Hi Hh. unfold GRUCell_forward.
  rewrite !has_width_of by done. by rewrite (proj2 (Nat.eqb_eq _ _) Hlen).
Qed.

Lemma GRUCell_forward_mismatch w cell (input hx : tensor) :
  length input ≠ length hx → GRUCell_forward w cell input hx = Raise RuntimeError.
Proof.
  intros Hlen. unfold GRUCell_forward.
  by rewrite (proj2 (Nat.eqb_neq _ _) Hlen).
Qed.

Lemma widths_zip_with w (cell : row → row → row) (a b : tensor) :
  (∀ i h, length i = w → length h = w → length (cell i h) = w) →
  widths w a → widths w b → widths w (zip_with cell a b).
Proof.
  unfold widths. intros Hc Ha. revert b.
  induction Ha as [|r a Hr _ IH]; intros [|s b] Hb; simpl; try constructor.
  - apply Forall_cons in Hb as [Hs _]. auto.
  - apply Forall_cons in Hb as [_ Hb]. by apply IH.
Qed.

(** ** Padding and addition *)

Lemma ZeroPad2d_bottom_length d (x : tensor) :
  length (ZeroPad2d_bottom d x) = length x + d.
Proof. unfold ZeroPad2d_bottom. by rewrite length_app, length_replicate. Qed.

Lemma ZeroPad2d_bottom_widths w d (x : tensor) :
  widths w x → x ≠ [] → widths w (ZeroPad2d_bottom d x).
Proof.
  intros Hx Hne. unfold ZeroPad2d_bottom, widths.
  apply Forall_app_2; [done |].
  apply Forall_replicate. by rewrite length_replicate, (widths_ncols w).
Qed.

Lemma tensor_add_ok w (a b : tensor) :
  length a = length b → widths w a → widths w b →
  tensor_add a b = Ok (zip_with (zip_with fadd) a b).
Proof.
  intros Hlen Ha Hb. unfold tensor_add, same_shape.
  destruct a as [|r a], b as [|s b]; simplify_eq/=; [done |].
  assert (length r = w) as Hr by (by apply Forall_cons in Ha as [? _]).
  assert (length s = w) as Hs by (by apply Forall_cons in Hb as [? _]).
  apply Forall_cons in Ha as [_ Ha]. apply Forall_cons in Hb as [_ Hb].
  rewrite Hr, Hs, !Nat.eqb_refl. simpl.
  rewrite (has_width_of w a), (has_width_of w b) by done.
  by rewrite (proj2 (Nat.eqb_eq _ _) Hlen).
Qed.

Lemma widths_add w (a b : tensor) :
  widths w a → widths w b → widths w (zip_with (zip_with fadd) a b).
Proof.
  unfold widths. intros Ha. revert b.
  induction Ha as [|r a Hr _ IH]; intros [|s b] Hb; simpl; try constructor.
  - apply Forall_cons in Hb as [Hs _]. rewrite length_zip_with. lia.
  - apply Forall_cons in Hb as [_ Hb]. by apply IH.
Qed.

(** ** Division by the fanout column *)

Lemma div_by_column_rowwise (a : tensor) (d : list T) :
  length d = length a → div_by_column a d = Ok (zip_with row_div a d).
Proof.
  intros Hlen. unfold div_by_column.
  by rewrite (proj2 (Nat.eqb_eq _ _) (eq_sym Hlen)).
Qed.

Lemma div_by_column_mismatch (a : tensor) (d : list T) :
  length a ≠ length d → length a ≠ 1 → length d ≠ 1 →
  div_by_column a d = Raise RuntimeError.
Proof.
  intros Hne Ha Hd. unfold div_by_column.
  rewrite (proj2 (Nat.eqb_neq _ _) Hne).
  destruct d as [|? [|? ?]], a as [|? [|? ?]]; simpl in *; done.
Qed.

Lemma widths_row_div w (a : tensor) (d : list T) :
  widths w a → widths w (zip_with row_div a d).
Proof.
  unfold widths. intros Ha. revert d.
  induction Ha as [|r a Hr _ IH]; intros [|x d]; simpl; constructor; auto.
  unfold row_div. by rewrite length_fmap.
Qed.

End Basics.

Section Rounds.
Context `{Sub : Substrate}.

(** ** Running the monad *)

Lemma bindM_lift {A B} (r : PyResult A) (k : A → M B) s :
  bindM (lift r) k s = match r with Ok a => k a s | Raise e => (Raise e, s) end.
Proof. by destruct r. Qed.

Lemma bindM_record {B} c (k : () → M B) s : bindM (record c) k s = k () (logged s [c]).
Proof. done. Qed.

Lemma bindM_ret {A B} (a : A) (k : A → M B) s : bindM (ret a) k s = k a s.
Proof. done. Qed.

Lemma logged_nil s : logged s [] = s.
Proof. destruct s. unfold logged. simpl. by rewrite app_nil_r. Qed.

Lemma logged_logged s cs ds : logged (logged s cs) ds = logged s (cs ++ ds).
Proof. unfold logged. simpl. by rewrite app_assoc. Qed.

(** ** The children-info accumulator *)

Lemma default_last_cons (a b : nat) l : default a (last (b :: l)) = default b (last l).
Proof. rewrite last_cons. by destruct (last l). Qed.

Section Accumulator.
Variable self : HierarchyPropagator.
Hypothesis Hself : wf_module self.
Let w := propagated_info_len self.

Lemma accumulate_child_ok (x acc : tensor) sel :
  widths w x → Forall (in_range (length x)) sel → widths w acc →
  length acc ≤ length sel →
  ∃ acc', accumulate_child self x acc sel = Ok acc'
          ∧ length acc' = length sel ∧ widths w acc'.
Proof.
  intros Hx Hsel Hacc Hle. unfold accumulate_child.
  rewrite index_rows_ok by done. simpl.
  rewrite Linear_forward_ok by (by apply widths_row_at). simpl.
  set (cur := transformChildrenInfo self <$> (row_at x <$> sel)).
  assert (length cur = length sel) as Hcur by (unfold cur; by rewrite !length_fmap).
  assert (widths w cur) as Hwcur.
  { apply widths_fmap; [apply Hself | by apply widths_row_at]. }
  unfold nrows. destruct (Nat.eqb_spec (length acc) 0) as [Hz|Hnz].
  { by exists cur. }
  rewrite (proj2 (Nat.ltb_ge _ _)) by lia.
  assert (acc ≠ []) as Hne by (by destruct acc).
  destruct (Nat.ltb_spec (length acc) (length cur)) as [Hlt|Hge].
  - rewrite (tensor_add_ok w); [| | by apply ZeroPad2d_bottom_widths | done].
    2:{ rewrite ZeroPad2d_bottom_length. lia. }
    eexists. split; [done |]. split.
    + rewrite length_zip_with, ZeroPad2d_bottom_length. lia.
    + apply widths_add; [by apply ZeroPad2d_bottom_widths | done].
  - rewrite (tensor_add_ok w) by (done || lia).
    eexists. split; [done |]. split.
    + rewrite length_zip_with. lia.
    + by apply widths_add.
Qed.

Lemma accumulate_child_shrink (x acc : tensor) sel :
  widths w x → Forall (in_range (length x)) sel →
  length sel < length acc →
  accumulate_child self x acc sel = Raise AssertionError.
Proof.
  intros Hx Hsel Hlt. unfold accumulate_child.
  rewrite index_rows_ok by done. simpl.
  rewrite Linear_forward_ok by (by apply widths_row_at). simpl.
  unfold nrows. rewrite !length_fmap.
  rewrite (proj2 (Nat.eqb_neq _ _)) by lia.
  by rewrite (proj2 (Nat.ltb_lt _ _)) by lia.
Qed.

Lemma children_loop_ok (x : tensor) sels : ∀ acc,
  widths w x → Forall (Forall (in_range (length x))) sels → widths w acc →
  Sorted le (length acc :: (length <$> sels)) →
  ∃ acc', children_loop self x sels acc = Ok acc'
          ∧ length acc' = default (length acc) (last (length <$> sels))
          ∧ widths w acc'.
Proof.
  induction sels as [|sel sels IH]; intros acc Hx Hsels Hacc Hsorted; simpl.
  - by exists acc.
  - apply Forall_cons in Hsels as [Hsel Hsels].
    rewrite fmap_cons in Hsorted.
    apply Sorted_inv in Hsorted as [Hsorted Hhd].
    apply HdRel_inv in Hhd.
    destruct (accumulate_child_ok x acc sel) as (acc1 & -> & Hlen1 & Hw1); try done.
    simpl. rewrite <- Hlen1 in Hsorted.
    destruct (IH acc1 Hx Hsels Hw1 Hsorted) as (acc' & -> & Hlen' & Hw').
    exists acc'. split; [done |]. split; [| done].
    rewrite Hlen', Hlen1. symmetry. apply default_last_cons.
Qed.

Lemma children_info_ok (x : tensor) sels :
  widths w x → Forall (Forall (in_range (length x))) sels →
  Sorted le (length <$> sels) →
  ∃ acc, children_info self x sels = Ok acc
         ∧ nrows acc = last_len sels ∧ widths w acc.
Proof.
  intros Hx Hsels Hsorted.
  destruct (children_loop_ok x sels [] Hx Hsels) as (acc & ? & ? & ?);
    [constructor | | by exists acc].
  constructor; [done |]. destruct (length <$> sels); constructor. simpl. lia.
Qed.

End Accumulator.

(** ** One round *)

Lemma Dropout_forward_inactive train d (x : tensor) s :
  dropout_active train d = false → Dropout_forward train d x s = (Ok x, s).
Proof. intros H. unfold Dropout_forward. by rewrite H. Qed.

Lemma Dropout_forward_run `{!SubstrateOk Sub} train d (x : tensor) s :
  ∃ y g, Dropout_forward train d x s
         = (Ok y, {| rng := g; bn_stats := bn_stats s; calls := calls s |})
         ∧ shape_eq x y.
Proof.
  unfold Dropout_forward. destruct (dropout_active train d).
  - pose proof (bernoulli_drop_shape (p d) (rng s) x) as Hshape.
    destruct (bernoulli_drop (p d) (rng s) x) as [y g]. by exists y, g.
  - exists x, (rng s). split; [by destruct s | apply shape_eq_refl].
Qed.

Lemma Dropout_forward_total `{!SubstrateOk Sub} train d (x : tensor) s :
  ∃ y s', Dropout_forward train d x s = (Ok y, s')
          ∧ shape_eq x y ∧ calls s' = calls s
          ∧ (dropout_active train d = false → y = x).
Proof.
  destruct (dropout_active train d) eqn:Hact.
  - destruct (Dropout_forward_run train d x s) as (y & g & -> & Hshape).
    by eexists _, _.
  - rewrite Dropout_forward_inactive by done.
    exists x, s. split; [done |]. split; [apply shape_eq_refl | done].
Qed.

Section Round.
Variable self : HierarchyPropagator.
Hypothesis Hself : wf_module self.
Let w := propagated_info_len self.

Lemma normalize_children_ok (acc : tensor) (ff : list T) :
  nrows acc = 0 ∨ length ff = nrows acc →
  normalize_children acc ff = Ok (zip_with row_div acc ff).
Proof.
  unfold normalize_children, nrows.
  destruct (Nat.eqb_spec (length acc) 0) as [Hz|Hnz].
  - destruct acc; done.
  - intros [?|Hlen]; [done | by apply div_by_column_rowwise].
Qed.

Lemma parent_merged_length psel (x : tensor) :
  length psel = length x → length (parent_merged self psel x) = length x.
Proof.
  intros Hlen. unfold parent_merged.
  rewrite length_zip_with, !length_fmap. lia.
Qed.

Lemma parent_merged_widths psel (x : tensor) :
  widths w x → Forall (in_range (length x)) psel →
  widths w (parent_merged self psel x).
Proof.
  intros Hx Hsel. unfold parent_merged.
  apply widths_zip_with; [apply Hself | | done].
  apply widths_fmap; [apply Hself | by apply widths_row_at].
Qed.

Lemma merge_children_run (acc pm : tensor) s :
  widths w acc → widths w pm → length acc ≤ length pm →
  merge_children self acc pm s
  = (Ok (zip_with (overlayChildrenInfo self) acc (take (nrows acc) pm)
         ++ drop (nrows acc) pm),
     logged s (if nrows acc =? 0 then [] else [CallOverlayChildrenInfo (nrows acc)])).
Proof.
  intros Hacc Hpm Hle. unfold merge_children, nrows.
  destruct (Nat.eqb_spec (length acc) 0) as [Hz|Hnz].
  - destruct acc; [| done]. simpl. rewrite bindM_ret, logged_nil. unfold ret.
    case_bool_decide; [| by rewrite drop_0].
    by destruct pm.
  - unfold bindM at 1. unfold bindM at 1. simpl.
    rewrite length_take_le by done.
    rewrite GRUCell_forward_ok;
      [| by rewrite length_take_le | done | by apply Forall_take].
    simpl. unfold ret. case_bool_decide as Hd; [| done].
    rewrite (drop_ge pm) by lia. by rewrite app_nil_r.
Qed.

Lemma children_merged_length psel ff (x acc : tensor) :
  length psel = length x → nrows acc ≤ nrows x →
  nrows acc = 0 ∨ length ff = nrows acc →
  length (children_merged self psel ff x acc) = length x.
Proof.
  unfold nrows. intros Hp Hle Hff. unfold children_merged, nrows.
  rewrite length_app, !length_zip_with, length_take, length_drop.
  rewrite parent_merged_length by done. lia.
Qed.

Lemma children_merged_widths psel ff (x acc : tensor) :
  widths w x → Forall (in_range (length x)) psel → widths w acc →
  widths w (children_merged self psel ff x acc).
Proof.
  intros Hx Hp Hacc. unfold children_merged.
  apply Forall_app_2.
  - apply widths_zip_with; [apply Hself | by apply widths_row_div |].
    apply Forall_take. by apply parent_merged_widths.
  - apply Forall_drop. by apply parent_merged_widths.
Qed.

Lemma parent_merged_lookup psel (x : tensor) i xi pi :
  x !! i = Some xi → psel !! i = Some pi →
  parent_merged self psel x !! i
  = Some (overlayParentInfo self (transformParentInfo self (row_at x pi)) xi).
Proof.
  intros Hx Hp. unfold parent_merged.
  by rewrite lookup_zip_with, !list_lookup_fmap, Hp, Hx.
Qed.

Lemma children_merged_suffix psel ff (x acc : tensor) i :
  length psel = length x → nrows acc ≤ nrows x →
  nrows acc = 0 ∨ length ff = nrows acc →
  nrows acc ≤ i →
  children_merged self psel ff x acc !! i = parent_merged self psel x !! i.
Proof.
  unfold nrows. intros Hp Hle Hff Hi. unfold children_merged, nrows.
  assert (length (zip_with (overlayChildrenInfo self) (zip_with row_div acc ff)
            (take (length acc) (parent_merged self psel x))) = length acc) as Hlen.
  { rewrite !length_zip_with, length_take, parent_merged_length by done. lia. }
  rewrite lookup_app_r, Hlen, lookup_drop by lia. f_equal. lia.
Qed.

Lemma children_merged_prefix psel ff (x acc : tensor) i ai di pmi :
  acc !! i = Some ai → ff !! i = Some di →
  parent_merged self psel x !! i = Some pmi →
  children_merged self psel ff x acc !! i
  = Some (overlayChildrenInfo self (row_div ai di) pmi).
Proof.
  intros Ha Hd Hpm. unfold children_merged, nrows.
  assert (i < length acc) as Hi by (by eapply lookup_lt_Some).
  apply lookup_app_l_Some.
  by rewrite !lookup_zip_with, lookup_take_lt, Ha, Hd, Hpm by done.
Qed.

Lemma merge_children_overlong (acc pm : tensor) s :
  length pm < length acc →
  merge_children self acc pm s
  = (Raise RuntimeError, logged s [CallOverlayChildrenInfo (nrows pm)]).
Proof.
  intros Hlt. unfold merge_children, nrows.
  rewrite (proj2 (Nat.eqb_neq _ _)) by lia.
  unfold bindM at 1. unfold bindM at 1. simpl.
  rewrite take_ge by lia.
  rewrite GRUCell_forward_mismatch by lia. done.
Qed.

(** A round up to the children merge, for selectors the gather steps and
    the accumulation accept. *)
Lemma propagation_round_to_merge psel csels ff (x : tensor) s :
  widths w x → length psel = nrows x → Forall (in_range (nrows x)) psel →
  Forall (Forall (in_range (nrows x))) csels → Sorted le (length <$> csels) →
  last_len csels = 0 ∨ length ff = last_len csels →
  ∃ acc, children_info self x csels = Ok acc
    ∧ nrows acc = last_len csels ∧ widths w acc
    ∧ propagation_round self psel csels ff x s
      = bindM (merge_children self (zip_with row_div acc ff)
                 (parent_merged self psel x))
          (λ y, bindM (record CallDropout)
                  (λ _, Dropout_forward (training self) (dropout self) y))
          (logged s [CallOverlayParentInfo (nrows x)]).
Proof.
  intros Hx Hplen Hprange Hcrange Hsorted Hff.
  destruct (children_info_ok self Hself x csels Hx Hcrange Hsorted)
    as (acc & Hacc & Hlen & Hwacc).
  exists acc. split; [done |]. split; [done |]. split; [done |].
  unfold propagation_round.
  rewrite bindM_lift, index_rows_ok by done.
  rewrite bindM_lift, Linear_forward_ok by (by apply widths_row_at).
  rewrite bindM_lift, Hacc, bindM_record, bindM_lift.
  rewrite GRUCell_forward_ok;
    [| by rewrite !length_fmap | | done].
  2:{ apply widths_fmap; [apply Hself | by apply widths_row_at]. }
  by rewrite bindM_lift, normalize_children_ok by (rewrite Hlen; done).
Qed.

Lemma propagation_round_run psel csels ff (x : tensor) s :
  valid_batch self x psel csels ff →
  ∃ acc, children_info self x csels = Ok acc
    ∧ nrows acc = last_len csels ∧ widths w acc
    ∧ propagation_round self psel csels ff x s
      = Dropout_forward (training self) (dropout self)
          (children_merged self psel ff x acc)
          (logged s (round_calls (nrows x) (nrows acc))).
Proof.
  intros [Hx Hplen Hprange Hcrange Hsorted Hclen Hff].
  destruct (propagation_round_to_merge psel csels ff x s)
    as (acc & Hacc & Hlen & Hwacc & ->); try done.
  exists acc. split; [done |]. split; [done |]. split; [done |].
  assert (nrows (zip_with row_div acc ff) = nrows acc) as Hn.
  { unfold nrows in *. rewrite length_zip_with. lia. }
  unfold bindM at 1.
  rewrite merge_children_run;
    [| by apply widths_row_div | by apply parent_merged_widths |].
  2:{ rewrite parent_merged_length by done. unfold nrows in *. lia. }
  rewrite Hn, bindM_record, !logged_logged. done.
Qed.

Lemma propagation_round_overlong psel csels ff (x : tensor) s :
  overlong_batch self x psel csels ff →
  (propagation_round self psel csels ff x s).1 = Raise RuntimeError.
Proof.
  intros [Hx Hplen Hprange Hcrange Hsorted Hff Hclen].
  destruct (propagation_round_to_merge psel csels ff x s)
    as (acc & Hacc & Hlen & Hwacc & ->); try done; [by right |].
  unfold bindM at 1. rewrite merge_children_overlong; [done |].
  rewrite parent_merged_length by done.
  unfold nrows in *. rewrite length_zip_with. lia.
Qed.

Lemma propagation_round_ok `{!SubstrateOk Sub} psel csels ff (x : tensor) s :
  valid_batch self x psel csels ff →
  ∃ y s', propagation_round self psel csels ff x s = (Ok y, s')
          ∧ nrows y = nrows x ∧ widths w y.
Proof.
  intros Hvalid.
  destruct (propagation_round_run psel csels ff x s Hvalid)
    as (acc & _ & Hlen & Hwacc & ->).
  destruct Hvalid as [Hx Hplen Hprange Hcrange Hsorted Hclen Hff].
  edestruct Dropout_forward_run as (y & g & -> & Hshape).
  eexists _, _. split; [done |]. split.
  - unfold nrows. rewrite (shape_eq_length _ _ Hshape).
    apply children_merged_length; rewrite ?Hlen; done.
  - eapply shape_eq_widths; [done |]. by apply children_merged_widths.
Qed.

Lemma valid_batch_transport psel csels ff (x y : tensor) :
  valid_batch self x psel csels ff → nrows y = nrows x → widths w y →
  valid_batch self y psel csels ff.
Proof.
  intros [Hx Hplen Hprange Hcrange Hsorted Hclen Hff] Hn Hy.
  split; rewrite ?Hn; done.
Qed.

Lemma propagation_loop_ok `{!SubstrateOk Sub} depth psel csels ff : ∀ (x : tensor) s,
  valid_batch self x psel csels ff →
  ∃ y s', propagation_loop self depth psel csels ff x s = (Ok y, s')
          ∧ nrows y = nrows x ∧ widths w y.
Proof.
  induction depth as [|depth IH]; intros x s Hvalid; simpl.
  - exists x, s. split; [done |]. split; [done | apply Hvalid].
  - destruct (propagation_round_ok psel csels ff x s Hvalid)
      as (x1 & s1 & Hrun & Hn1 & Hw1).
    unfold bindM. rewrite Hrun.
    destruct (IH x1 s1) as (y & s' & -> & Hn & Hw).
    { by eapply valid_batch_transport. }
    exists y, s'. split; [done |]. split; [congruence | done].
Qed.

End Round.

End Rounds.

Section Forward.
Context `{Sub : Substrate}.

Lemma bindM_run {A B} (m : M A) (k : A → M B) s a s' :
  m s = (Ok a, s') → bindM m k s = k a s'.
Proof. intros H. unfold bindM. by rewrite H. Qed.

Lemma bindM_raise {A B} (m : M A) (k : A → M B) s :
  raises (m s).1 → raises (bindM m k s).1.
Proof.
  intros [e He]. unfold bindM. destruct (m s) as [[a|e'] s']; simplify_eq/=.
  by exists e.
Qed.

Lemma BatchNorm1d_forward_run `{!SubstrateOk Sub} w train (x : tensor) s :
  widths w x →
  ∃ y st, BatchNorm1d_forward w train x s
          = (Ok y, {| rng := rng s; bn_stats := st; calls := calls s |})
          ∧ shape_eq x y.
Proof.
  intros Hx. unfold BatchNorm1d_forward. rewrite has_width_of by done.
  pose proof (batch_norm_kernel_shape train (bn_stats s) x) as Hshape.
  destruct (batch_norm_kernel train (bn_stats s) x) as [y st]. by exists y, st.
Qed.

Lemma bindM_raise_or {A B} (m : M A) (k : A → M B) s :
  raises (m s).1 ∨ (∃ a s', m s = (Ok a, s') ∧ raises (k a s').1) →
  raises (bindM m k s).1.
Proof.
  intros [H | (a & s' & Hrun & H)]; [by apply bindM_raise |].
  by rewrite (bindM_run _ _ _ _ _ Hrun).
Qed.

Lemma bindM_assoc {A B C} (m : M A) (f : A → M B) (k : B → M C) s :
  bindM (bindM m f) k s = bindM m (λ a, bindM (f a) k) s.
Proof. unfold bindM. by destruct (m s) as [[a|e] s']. Qed.

(** What precedes the loop: hook, input dropout, normalisation, hook. *)
Lemma forward_prelude `{!SubstrateOk Sub} self (x : tensor) psel csels ff h s :
  widths (propagated_info_len self) x →
  ∃ x1 s1, shape_eq x x1
    ∧ forward self x psel csels ff (Some h) s
      = propagation_loop self (node_info_propagator_stack_depth self)
          psel csels ff x1 s1.
Proof.
  intros Hx. unfold forward. simpl. rewrite !bindM_record.
  edestruct (Dropout_forward_run (training self) (input_dropout self) x)
    as (x1 & g & Hdrop & Hshape1).
  rewrite (bindM_run _ _ _ _ _ Hdrop).
  destruct (negb (disable_batch_norm self) && (1 <? nrows x1)).
  - rewrite bindM_assoc, bindM_record.
    edestruct (BatchNorm1d_forward_run (propagated_info_len self)
                 (training self) x1) as (x2 & st & Hbn & Hshape2).
    { by eapply shape_eq_widths. }
    rewrite (bindM_run _ _ _ _ _ Hbn), bindM_record.
    exists x2. eexists. split; [| done].
    by eapply shape_eq_trans.
  - rewrite bindM_ret, bindM_record. by eexists _, _.
Qed.

Lemma valid_batch_shape_eq self (x y : tensor) psel csels ff :
  valid_batch self x psel csels ff → shape_eq x y →
  valid_batch self y psel csels ff.
Proof.
  intros Hvalid Hshape. eapply valid_batch_transport; [done | |].
  - by apply shape_eq_length.
  - eapply shape_eq_widths; [done | apply Hvalid].
Qed.

(** ** Failure on an index outside the tensor *)

Lemma beyond_not_in_range n (sel : list Z) :
  Exists (beyond n) sel → Exists (λ i, ¬ in_range n i) sel.
Proof.
  intros H. eapply Exists_impl; [exact H |]. unfold beyond, in_range. lia.
Qed.

Lemma children_loop_bad self (x : tensor) sels :
  Exists (Exists (beyond (length x))) sels →
  ∀ acc, raises (children_loop self x sels acc).
Proof.
  induction 1 as [sel sels Hbad | sel sels _ IH]; intros acc; simpl.
  - unfold accumulate_child.
    rewrite index_rows_raise by (by apply beyond_not_in_range). by eexists.
  - destruct (accumulate_child self x acc sel) as [acc'|e]; simpl; [done | by eexists].
Qed.

Lemma propagation_round_bad self psel csels ff (x : tensor) s :
  Exists (beyond (length x)) psel ∨ Exists (Exists (beyond (length x))) csels →
  raises (propagation_round self psel csels ff x s).1.
Proof.
  intros [Hp|Hc]; unfold propagation_round; rewrite bindM_lift.
  - rewrite index_rows_raise by (by apply beyond_not_in_range). by eexists.
  - destruct (index_rows x psel); [| by eexists].
    rewrite bindM_lift. destruct (Linear_forward _ _ _); [| by eexists].
    rewrite bindM_lift. destruct (children_loop_bad self x csels Hc []) as [e He].
    unfold children_info. rewrite He. by eexists.
Qed.

Lemma forward_beyond_raises `{!SubstrateOk Sub} self (x : tensor) psel csels ff hook s :
  0 < node_info_propagator_stack_depth self →
  Exists (beyond (nrows x)) psel ∨ Exists (Exists (beyond (nrows x))) csels →
  raises (forward self x psel csels ff hook s).1.
Proof.
  intros Hdepth Hbad.
  destruct hook as [h|]; [| by eexists].
  unfold forward. simpl. rewrite !bindM_record.
  edestruct (Dropout_forward_run (training self) (input_dropout self) x)
    as (x1 & g & Hdrop & Hshape1).
  rewrite (bindM_run _ _ _ _ _ Hdrop).
  apply shape_eq_length in Hshape1.
  assert (∀ (x2 : tensor) s2, length x2 = length x →
    raises (bindM (call_hook (Some h) x2 "ndfo")
      (λ _, propagation_loop self (node_info_propagator_stack_depth self)
              psel csels ff x2) s2).1) as Hloop.
  { intros x2 s2 Hlen. simpl. rewrite bindM_record.
    destruct (node_info_propagator_stack_depth self) as [|d]; [lia |]. simpl.
    apply bindM_raise, propagation_round_bad. by rewrite Hlen. }
  destruct (negb (disable_batch_norm self) && (1 <? nrows x1)).
  - rewrite bindM_assoc, bindM_record.
    apply bindM_raise_or. unfold BatchNorm1d_forward.
    destruct (has_width _ _); [| left; by eexists].
    match goal with |- context [batch_norm_kernel ?b ?st x1] =>
      pose proof (batch_norm_kernel_shape b st x1) as Hshape2;
      destruct (batch_norm_kernel b st x1) as [x2 st2]
    end.
    right. eexists _, _. split; [done |]. apply Hloop.
    apply shape_eq_length in Hshape2. simpl in *. congruence.
  - rewrite bindM_ret. by apply Hloop.
Qed.

Lemma overlong_batch_shape_eq self (x y : tensor) psel csels ff :
  overlong_batch self x psel csels ff → shape_eq x y →
  overlong_batch self y psel csels ff.
Proof.
  intros [Hx Hplen Hprange Hcrange Hsorted Hff Hclen] Hshape.
  pose proof (shape_eq_length _ _ Hshape) as Hn.
  split; unfold nrows in *; rewrite ?Hn; try done.
  by eapply shape_eq_widths.
Qed.

Lemma forward_overlong `{!SubstrateOk Sub} self (x : tensor) psel csels ff h s :
  0 < node_info_propagator_stack_depth self →
  wf_module self → overlong_batch self x psel csels ff →
  (forward self x psel csels ff (Some h) s).1 = Raise RuntimeError.
Proof.
  intros Hdepth Hself Hover.
  destruct (forward_prelude self x psel csels ff h s) as (x1 & s1 & Hshape & ->).
  { apply Hover. }
  destruct (node_info_propagator_stack_depth self) as [|d]; [lia |]. simpl.
  pose proof (propagation_round_overlong self Hself psel csels ff x1 s1
                (overlong_batch_shape_eq _ _ _ _ _ _ Hover Hshape)) as Hround.
  unfold bindM. destruct (propagation_round _ _ _ _ _ _) as [[y|e] s2];
    simpl in *; by simplify_eq.
Qed.

End Forward.

(** ** Selector lengths in non-decreasing order *)

Section SortedLengths.

Lemma sorted_take (l : list nat) : ∀ k, Sorted le l → Sorted le (take k l).
Proof.
  induction l as [|a l IH]; intros [|k] Hl; simpl; try constructor.
  - apply IH. by apply Sorted_inv in Hl as [? _].
  - apply Sorted_inv in Hl as [_ Hhd].
    destruct l as [|b l], k as [|k]; simpl; constructor.
    by apply HdRel_inv in Hhd.
Qed.

Lemma last_take_mono (l : list nat) : ∀ a j k,
  Sorted le (a :: l) → j ≤ k →
  default a (last (take j l)) ≤ default a (last (take k l)).
Proof.
  induction l as [|b l IH]; intros a j k Hl Hjk.
  - by rewrite !take_nil.
  - apply Sorted_inv in Hl as [Hl Hab]. apply HdRel_inv in Hab.
    destruct k as [|k].
    { by replace j with 0 by lia. }
    simpl take at 2. rewrite default_last_cons.
    destruct j as [|j]; simpl take.
    + simpl. etrans; [exact Hab |]. apply (IH b 0 k); [done | lia].
    + rewrite default_last_cons. apply IH; [done | lia].
Qed.

Lemma last_len_take_mono (sels : list (list Z)) j k :
  Sorted le (length <$> sels) → j ≤ k →
  last_len (take j sels) ≤ last_len (take k sels).
Proof.
  intros Hsorted Hjk. unfold last_len. rewrite !fmap_take.
  apply last_take_mono; [| done].
  constructor; [done |]. destruct (length <$> sels); constructor. lia.
Qed.

Lemma child_count_last_len (sels : list (list Z)) i :
  Sorted le (length <$> sels) → 1 ≤ child_count sels i ↔ i < last_len sels.
Proof.
  unfold child_count, last_len.
  induction sels as [|sel sels IH]; intros Hsorted; [simpl; lia |].
  rewrite fmap_cons in Hsorted |- *.
  pose proof (last_take_mono (length <$> sels) (length sel) 0 (length sels) Hsorted)
    as Hge.
  rewrite take_0, take_ge in Hge by (by rewrite length_fmap).
  specialize (Hge ltac:(lia)).
  change (default (length sel) (last [])) with (length sel) in Hge.
  apply Sorted_inv in Hsorted as [Hsorted _]. specialize (IH Hsorted).
  rewrite default_last_cons, filter_cons.
  case_decide as Hi.
  - rewrite length_cons. lia.
  - rewrite IH. destruct (last (length <$> sels)) as [v|]; simpl in *; lia.
Qed.

End SortedLengths.

Section AccumulatorPrefix.
Context `{Sub : Substrate}.

Lemma children_loop_app self (x : tensor) pre post : ∀ acc,
  children_loop self x (pre ++ post) acc
  = bindR (children_loop self x pre acc) (children_loop self x post).
Proof.
  induction pre as [|sel pre IH]; intros acc; simpl; [done |].
  destruct (accumulate_child self x acc sel); simpl; [apply IH | done].
Qed.

End AccumulatorPrefix.

(** ** Calls made and state touched *)

Section Effects.
Context `{Sub : Substrate}.

Lemma emits_ret {A} P (a : A) : emits P (ret a).
Proof. intros s. exists []. by rewrite app_nil_r. Qed.

Lemma emits_throw {A} P e : emits P (throw (A:=A) e).
Proof. intros s. exists []. by rewrite app_nil_r. Qed.

Lemma emits_lift {A} P (r : PyResult A) : emits P (lift r).
Proof. intros s. exists []. by rewrite app_nil_r. Qed.

Lemma emits_record (P : Call → Prop) c : P c → emits P (record c).
Proof. intros Hc s. exists [c]. split; [done | by constructor]. Qed.

Lemma emits_bind {A B} P (m : M A) (k : A → M B) :
  emits P m → (∀ a, emits P (k a)) → emits P (bindM m k).
Proof.
  intros Hm Hk s. destruct (Hm s) as (cs & Hcs & HP).
  unfold bindM. destruct (m s) as [[a|e] s1]; simpl in *.
  - destruct (Hk a s1) as (ds & Hds & HQ). exists (cs ++ ds).
    rewrite Hds, Hcs, app_assoc. split; [done | by apply Forall_app_2].
  - by exists cs.
Qed.

Lemma emits_mono {A} (P Q : Call → Prop) (m : M A) :
  (∀ c, P c → Q c) → emits P m → emits Q m.
Proof.
  intros HPQ Hm s. destruct (Hm s) as (cs & Hcs & HP).
  exists cs. split; [done |]. by eapply Forall_impl.
Qed.

Lemma emits_Dropout_forward P train d (x : tensor) :
  emits P (Dropout_forward train d x).
Proof.
  unfold Dropout_forward. destruct (dropout_active train d); [| apply emits_ret].
  intros s. exists []. destruct (bernoulli_drop _ _ _). simpl. by rewrite app_nil_r.
Qed.

Lemma emits_BatchNorm1d_forward P w train (x : tensor) :
  emits P (BatchNorm1d_forward w train x).
Proof.
  unfold BatchNorm1d_forward. destruct (has_width w x).
  - intros s. exists []. destruct (batch_norm_kernel _ _ _). simpl.
    by rewrite app_nil_r.
  - intros s. exists []. simpl. by rewrite app_nil_r.
Qed.

Lemma emits_propagation_round self psel csels ff (x : tensor) :
  emits round_call (propagation_round self psel csels ff x).
Proof.
  unfold propagation_round, merge_children.
  repeat first
    [ apply emits_lift | apply emits_ret | apply emits_Dropout_forward
    | apply emits_record; exact I
    | apply emits_bind; [| intros ?]
    | match goal with |- emits _ (if ?c then _ else _) => destruct c end ].
Qed.

Lemma emits_propagation_loop self depth psel csels ff : ∀ x : tensor,
  emits round_call (propagation_loop self depth psel csels ff x).
Proof.
  induction depth as [|depth IH]; intros x; simpl.
  - apply emits_ret.
  - apply emits_bind; [apply emits_propagation_round | done].
Qed.

Lemma steady_ret {A} (a : A) : steady (ret a).
Proof. exists (Ok a), []. intros s. by rewrite logged_nil. Qed.

Lemma steady_lift {A} (r : PyResult A) : steady (lift r).
Proof. exists r, []. intros s. by rewrite logged_nil. Qed.

Lemma steady_record c : steady (record c).
Proof. by exists (Ok ()), [c]. Qed.

Lemma steady_call_hook hook (x : tensor) label : steady (call_hook hook x label).
Proof.
  destruct hook; [apply steady_record |].
  exists (Raise TypeError), []. intros s. by rewrite logged_nil.
Qed.

Lemma steady_bind {A B} (m : M A) (k : A → M B) :
  steady m → (∀ a, steady (k a)) → steady (bindM m k).
Proof.
  intros (r & cs & Hm) Hk. destruct r as [a|e].
  - destruct (Hk a) as (r' & ds & Hka). exists r', (cs ++ ds). intros s.
    unfold bindM. by rewrite Hm, Hka, logged_logged.
  - exists (Raise e), cs. intros s. unfold bindM. by rewrite Hm.
Qed.

Lemma steady_Dropout_forward train d (x : tensor) :
  dropout_active train d = false → steady (Dropout_forward train d x).
Proof.
  intros H. unfold Dropout_forward. rewrite H. apply steady_ret.
Qed.

Lemma steady_propagation_round self psel csels ff (x : tensor) :
  dropout_active (training self) (dropout self) = false →
  steady (propagation_round self psel csels ff x).
Proof.
  intros Hdrop. unfold propagation_round, merge_children.
  repeat first
    [ apply steady_lift | apply steady_ret | apply steady_record
    | by apply steady_Dropout_forward
    | apply steady_bind; [| intros ?]
    | match goal with |- steady (if ?c then _ else _) => destruct c end ].
Qed.

Lemma steady_propagation_loop self depth psel csels ff :
  dropout_active (training self) (dropout self) = false →
  ∀ x : tensor, steady (propagation_loop self depth psel csels ff x).
Proof.
  intros Hdrop. induction depth as [|depth IH]; intros x; simpl.
  - apply steady_ret.
  - apply steady_bind; [by apply steady_propagation_round | done].
Qed.

(** ** Components of the hidden state that a computation keeps *)

Section Keeps.
Context {B : Type} (f : World → B).
Hypothesis f_logged : ∀ s cs, f (logged s cs) = f s.

Lemma keeps_ret {A} (a : A) : keeps f (ret a).
Proof. done. Qed.

Lemma keeps_throw {A} e : keeps f (throw (A:=A) e).
Proof. done. Qed.

Lemma keeps_lift {A} (r : PyResult A) : keeps f (lift r).
Proof. done. Qed.

Lemma keeps_record c : keeps f (record c).
Proof. intros s. apply (f_logged s [c]). Qed.

Lemma keeps_call_hook hook (x : tensor) label : keeps f (call_hook hook x label).
Proof. destruct hook; [apply keeps_record | done]. Qed.

Lemma keeps_bind {A C} (m : M A) (k : A → M C) :
  keeps f m → (∀ a, keeps f (k a)) → keeps f (bindM m k).
Proof.
  intros Hm Hk s. specialize (Hm s). unfold bindM.
  destruct (m s) as [[a|e] s1]; simpl in *; [| done].
  by rewrite Hk.
Qed.

Lemma keeps_propagation_loop self depth psel csels ff :
  (∀ x : tensor, keeps f (Dropout_forward (training self) (dropout self) x)) →
  ∀ x : tensor, keeps f (propagation_loop self depth psel csels ff x).
Proof.
  intros Hdrop. induction depth as [|depth IH]; intros x; simpl.
  - apply keeps_ret.
  - apply keeps_bind; [| done]. unfold propagation_round, merge_children.
    repeat first
      [ apply keeps_lift | apply keeps_ret | apply keeps_record | apply Hdrop
      | apply keeps_bind; [| intros ?]
      | match goal with |- keeps _ (if ?c then _ else _) => destruct c end ].
Qed.

End Keeps.

Lemma keeps_rng_Dropout_inactive train d (x : tensor) :
  dropout_active train d = false → keeps rng (Dropout_forward train d x).
Proof. intros H s. by rewrite Dropout_forward_inactive. Qed.

Lemma keeps_rng_BatchNorm1d w train (x : tensor) :
  keeps rng (BatchNorm1d_forward w train x).
Proof.
  intros s. unfold BatchNorm1d_forward. destruct (has_width w x); [| done].
  by destruct (batch_norm_kernel _ _ _).
Qed.

Lemma keeps_bn_stats_Dropout train d (x : tensor) :
  keeps bn_stats (Dropout_forward train d x).
Proof.
  intros s. unfold Dropout_forward. destruct (dropout_active train d); [| done].
  by destruct (bernoulli_drop _ _ _).
Qed.

End Effects.

(** ** A single node *)

Section SingleNode.
Context `{Sub : Substrate}.
Variable self : HierarchyPropagator.
Hypothesis Hself : wf_module self.

Lemma single_node_valid (r : row) ff :
  length r = propagated_info_len self → valid_batch self [r] [0%Z] [] ff.
Proof.
  intros Hr. split; simpl; by repeat constructor.
Qed.

Lemma propagation_round_single (r : row) ff s :
  length r = propagated_info_len self →
  propagation_round self [0%Z] [] ff [r] s = self_loop_round self [r] s.
Proof.
  intros Hr.
  destruct (propagation_round_run self Hself [0%Z] [] ff [r] s)
    as (acc & Hacc & _ & _ & ->); [by apply single_node_valid |].
  injection Hacc as <-.
  unfold self_loop_round. by rewrite !bindM_record, logged_logged.
Qed.

Lemma self_loop_round_ok `{!SubstrateOk Sub} (r : row) s :
  length r = propagated_info_len self →
  ∃ out s', self_loop_round self [r] s = (Ok [out], s')
            ∧ length out = propagated_info_len self
            ∧ (dropout_active (training self) (dropout self) = false →
               out = self_loop_row self r).
Proof.
  intros Hr. unfold self_loop_round. rewrite !bindM_record. simpl.
  edestruct Dropout_forward_total as (y & s' & -> & Hshape & _ & Hid).
  inversion Hshape as [|? out ? ? Hlen Hnil]; subst. inversion Hnil; subst.
  exists out, s'. split; [done |]. split.
  - rewrite <- Hlen. apply Hself; [by apply Hself | done].
  - intros Hact. specialize (Hid Hact). by simplify_eq.
Qed.

Lemma self_loop_rounds_ok `{!SubstrateOk Sub} ff depth : ∀ (r : row) s,
  length r = propagated_info_len self →
  ∃ out s', self_loop_rounds self depth [r] s = (Ok [out], s')
            ∧ propagation_loop self depth [0%Z] [] ff [r] s = (Ok [out], s')
            ∧ length out = propagated_info_len self
            ∧ (dropout_active (training self) (dropout self) = false →
               out = Nat.iter depth (self_loop_row self) r).
Proof.
  induction depth as [|depth IH]; intros r s Hr; simpl.
  - by exists r, s.
  - destruct (self_loop_round_ok r s Hr) as (r1 & s1 & Hrun & Hr1 & Hid).
    rewrite (bindM_run _ _ _ _ _ Hrun).
    rewrite <- propagation_round_single with (ff := ff) in Hrun by done.
    rewrite (bindM_run _ _ _ _ _ Hrun).
    destruct (IH r1 s1 Hr1) as (out & s' & -> & -> & Hout & Hiter).
    exists out, s'. repeat split; try done.
    intros Hact. rewrite (Hiter Hact), (Hid Hact).
    clear. induction depth as [|depth IH]; simpl; [done | by rewrite IH].
Qed.

Lemma emits_self_loop_rounds depth : ∀ x : tensor,
  emits (λ c, ¬ is_children_merge c) (self_loop_rounds self depth x).
Proof.
  induction depth as [|depth IH]; intros x; simpl; [apply emits_ret |].
  apply emits_bind; [| done]. unfold self_loop_round.
  repeat (apply emits_bind; [apply emits_record; simpl; tauto | intros _]).
  apply emits_Dropout_forward.
Qed.

End SingleNode.

(** ** The concrete substrate is lawful *)

Section ConcreteFacts.
Import Concrete.

Lemma center_shape (x : list (list Z)) : shape_eq x (center x).
Proof.
  unfold center, shape_eq.
  generalize (λ (j : nat) v, (v - column_sum x j / Z.of_nat (length x))%Z).
  intros f. induction x as [|r x IH]; simpl; [constructor |].
  constructor; [by rewrite length_imap | done].
Qed.

Lemma ZSub_ok : SubstrateOk ZSub.
Proof.
  split; simpl.
  - intros _ _ x. unfold shape_eq. induction x as [|r x IH]; simpl; [constructor |].
    constructor; [by rewrite length_map | done].
  - intros _ _ x. apply center_shape.
Qed.

Lemma hp_wf depth no_bn : wf_module (hp depth no_bn).
Proof.
  split; simpl; intros.
  - by rewrite length_map.
  - by rewrite length_map.
  - rewrite length_zip_with. lia.
  - rewrite length_zip_with. lia.
Qed.

Lemma example4_valid depth no_bn :
  valid_batch (hp depth no_bn) x4 parent4 children4 fanouts4.
Proof.
  split; simpl; unfold widths, in_range, last_len; simpl;
    repeat (constructor; simpl); lia.
Qed.

End ConcreteFacts.

(** ** The steps before the loop, in terms of the kernels *)

Section Prelude.
Context `{Sub : Substrate}.

Lemma shape_eq_sym (x y : tensor) : shape_eq x y → shape_eq y x.
Proof. unfold shape_eq. induction 1; constructor; auto. Qed.

Lemma shape_eq_has_width w (x y : tensor) :
  shape_eq x y → has_width w y = has_width w x.
Proof.
  intros Hshape. destruct (has_width w x) eqn:Hx.
  - apply has_width_true. eapply shape_eq_widths; [done |]. by apply has_width_true.
  - apply not_true_is_false. intros Hy%has_width_true.
    apply shape_eq_sym in Hshape.
    pose proof (shape_eq_widths _ _ _ Hshape Hy) as Hx'%has_width_true. congruence.
Qed.

Lemma Dropout_forward_eq train d (x : tensor) s :
  Dropout_forward train d x s
  = (Ok (if dropout_active train d then (bernoulli_drop (p d) (rng s) x).1 else x),
     {| rng := if dropout_active train d then (bernoulli_drop (p d) (rng s) x).2
               else rng s;
        bn_stats := bn_stats s; calls := calls s |}).
Proof.
  unfold Dropout_forward. destruct (dropout_active train d).
  - by destruct (bernoulli_drop (p d) (rng s) x).
  - by destruct s.
Qed.

Lemma Dropout_forward_shape `{!SubstrateOk Sub} train d (x : tensor) g :
  shape_eq x (if dropout_active train d then (bernoulli_drop (p d) g x).1 else x).
Proof.
  destruct (dropout_active train d); [apply bernoulli_drop_shape | apply shape_eq_refl].
Qed.

Lemma BatchNorm1d_forward_eq w train (x : tensor) s :
  has_width w x = true →
  BatchNorm1d_forward w train x s
  = (Ok (batch_norm_kernel train (bn_stats s) x).1,
     {| rng := rng s; bn_stats := (batch_norm_kernel train (bn_stats s) x).2;
        calls := calls s |}).
Proof.
  intros Hw. unfold BatchNorm1d_forward. rewrite Hw.
  by destruct (batch_norm_kernel train (bn_stats s) x).
Qed.

Lemma BatchNorm1d_forward_bad w train (x : tensor) s :
  has_width w x = false →
  BatchNorm1d_forward w train x s
  = (Raise RuntimeError,
     {| rng := rng s;
        bn_stats := if train then batch_norm_track (bn_stats s) else bn_stats s;
        calls := calls s |}).
Proof. intros Hw. unfold BatchNorm1d_forward. by rewrite Hw. Qed.

(** [forward] with a callable hook, up to the normalisation. *)
Lemma forward_to_norm `{!SubstrateOk Sub} self (x : tensor) psel csels ff h s :
  let drop := dropout_active (training self) (input_dropout self) in
  let dropped := bernoulli_drop (p (input_dropout self)) (rng s) x in
  let x1 := if drop then dropped.1 else x in
  let g1 := if drop then dropped.2 else rng s in
  forward self x psel csels ff (Some h) s
  = if negb (disable_batch_norm self) && (1 <? nrows x) then
      bindM (BatchNorm1d_forward (propagated_info_len self) (training self) x1)
        (λ x2, bindM (call_hook (Some h) x2 "ndfo")
                 (λ _, propagation_loop self (node_info_propagator_stack_depth self)
                         psel csels ff x2))
        {| rng := g1; bn_stats := bn_stats s;
           calls := calls s ++ [CallDataDebugHook h x "ndfo"; CallInputDropout;
                                CallBatchNorm] |}
    else
      propagation_loop self (node_info_propagator_stack_depth self) psel csels ff x1
        {| rng := g1; bn_stats := bn_stats s;
           calls := calls s ++ [CallDataDebugHook h x "ndfo"; CallInputDropout;
                                CallDataDebugHook h x1 "ndfo"] |}.
Proof.
  cbv zeta. unfold forward. simpl call_hook at 1. rewrite !bindM_record.
  rewrite (bindM_run _ _ _ _ _ (Dropout_forward_eq _ _ _ _)).
  pose proof (Dropout_forward_shape (training self) (input_dropout self) x (rng s))
    as Hshape.
  cbn [logged rng bn_stats calls].
  set (x1 := if dropout_active (training self) (input_dropout self)
             then (bernoulli_drop (p (input_dropout self)) (rng s) x).1 else x) in *.
  unfold nrows at 1. rewrite (shape_eq_length _ _ Hshape). fold (nrows x).
  destruct (negb (disable_batch_norm self) && (1 <? nrows x)).
  - rewrite bindM_assoc, bindM_record. unfold logged. cbn [rng bn_stats calls].
    by rewrite <- !app_assoc.
  - rewrite bindM_ret. simpl call_hook. rewrite bindM_record.
    unfold logged. cbn [rng bn_stats calls]. by rewrite <- !app_assoc.
Qed.

(** An index of the parent selector past the rows: [IndexError] from the
    first round, unless the normalisation fails before. *)
Lemma forward_beyond_parent_cases `{!SubstrateOk Sub} self (x : tensor)
    psel csels ff h s :
  0 < node_info_propagator_stack_depth self →
  Exists (beyond (nrows x)) psel →
  (disable_batch_norm self = true ∨ nrows x ≤ 1
   ∨ widths (propagated_info_len self) x →
   (forward self x psel csels ff (Some h) s).1 = Raise IndexError)
  ∧ (disable_batch_norm self = false → 1 < nrows x →
     ¬ widths (propagated_info_len self) x →
     (forward self x psel csels ff (Some h) s).1 = Raise RuntimeError).
Proof.
  intros Hdepth Hp. rewrite forward_to_norm. cbv zeta.
  pose proof (Dropout_forward_shape (training self) (input_dropout self) x (rng s))
    as Hshape.
  set (x1 := if dropout_active (training self) (input_dropout self)
             then (bernoulli_drop (p (input_dropout self)) (rng s) x).1 else x) in *.
  assert (∀ (y : tensor) s', shape_eq x y →
    (propagation_loop self (node_info_propagator_stack_depth self)
       psel csels ff y s').1 = Raise IndexError) as Hloop.
  { intros y s' Hy.
    destruct (node_info_propagator_stack_depth self) as [|d]; [lia |]. simpl.
    unfold bindM at 1. unfold propagation_round. rewrite bindM_lift.
    rewrite index_rows_raise; [done |].
    apply beyond_not_in_range. by rewrite (shape_eq_length _ _ Hy). }
  destruct (negb (disable_batch_norm self) && (1 <? nrows x)) eqn:Hnorm.
  - apply andb_true_iff in Hnorm as [Hdis%negb_true_iff Hn%Nat.ltb_lt].
    destruct (has_width (propagated_info_len self) x) eqn:Hw.
    + rewrite (bindM_run _ _ _ _ _ (BatchNorm1d_forward_eq _ _ _ _
                 (eq_trans (shape_eq_has_width _ _ _ Hshape) Hw))).
      simpl call_hook. rewrite bindM_record. split.
      * intros _. apply Hloop. eapply shape_eq_trans; [exact Hshape |].
        apply batch_norm_kernel_shape.
      * intros _ _ Hbad. destruct Hbad. by apply has_width_true.
    + unfold bindM.
      rewrite (BatchNorm1d_forward_bad _ _ _ _
                 (eq_trans (shape_eq_has_width _ _ _ Hshape) Hw)).
      split; [| done].
      intros [Hd | [Hle | Hx%has_width_true]]; [congruence | lia | congruence].
  - split; [intros _; by apply Hloop |].
    intros Hdis Hn _. rewrite Hdis in Hnorm. simpl in Hnorm.
    apply Nat.ltb_ge in Hnorm. lia.
Qed.

(** The log of a call: the hook, one input dropout, at most one
    normalisation, and nothing of the two afterwards. *)
Lemma forward_prelude_log `{!SubstrateOk Sub} self (x : tensor) psel csels ff h s :
  ∃ rest,
    calls (forward self x psel csels ff (Some h) s).2
    = calls s
      ++ [CallDataDebugHook h x "ndfo"; CallInputDropout]
      ++ (if negb (disable_batch_norm self) && (1 <? nrows x)
          then [CallBatchNorm] else [])
      ++ rest
    ∧ Forall (λ c, c ≠ CallInputDropout ∧ c ≠ CallBatchNorm) rest.
Proof.
  set (P := λ c : Call, c ≠ CallInputDropout ∧ c ≠ CallBatchNorm).
  assert (∀ x2 : tensor, emits P
    (bindM (call_hook (Some h) x2 "ndfo")
       (λ _, propagation_loop self (node_info_propagator_stack_depth self)
               psel csels ff x2))) as Hrest.
  { intros x2. apply emits_bind; [by apply emits_record |]. intros _.
    eapply emits_mono; [| apply emits_propagation_loop].
    by intros []. }
  unfold forward. simpl call_hook at 1. rewrite !bindM_record.
  edestruct (Dropout_forward_run (training self) (input_dropout self) x)
    as (x1 & g & Hdrop & Hshape1).
  rewrite (bindM_run _ _ _ _ _ Hdrop).
  unfold nrows. rewrite (shape_eq_length _ _ Hshape1).
  destruct (negb (disable_batch_norm self) && (1 <? length x)).
  - rewrite bindM_assoc, bindM_record.
    match goal with |- context [bindM ?m ?k ?s2] =>
      destruct (emits_bind P m k) with (s := s2) as (rest & Hcalls & HP)
    end.
    { apply emits_BatchNorm1d_forward. }
    { apply Hrest. }
    exists rest. split; [| done]. rewrite Hcalls. simpl.
    by rewrite <- !app_assoc.
  - rewrite bindM_ret.
    match goal with |- context [bindM ?m ?k ?s2] =>
      destruct (Hrest x1 s2) as (rest & Hcalls & HP)
    end.
    exists rest. split; [| done]. rewrite Hcalls. simpl.
    by rewrite <- !app_assoc.
Qed.

End Prelude.

(** * The claims *)

Section Claims.
Context `{Sub : Substrate}.

(** C1 (amended). For a batch that the loop body accepts (one row of width
    [propagated_info_len] and one in-range parent index per node, in-range
    child selectors ordered by non-decreasing length and no longer than the
    node count, one fanout factor per row of accumulated children info) and
    a callable hook, [forward] returns a tensor with the row count and the
    width of its input, whatever the stack depth. *)
Theorem forward_shape `{!SubstrateOk Sub} self (x : tensor) psel csels ff h s :
  wf_module self → valid_batch self x psel csels ff →
  ∃ y s', forward self x psel csels ff (Some h) s = (Ok y, s')
          ∧ nrows y = nrows x ∧ widths (propagated_info_len self) y.
Proof.
  intros Hself Hvalid.
  destruct (forward_prelude self x psel csels ff h s) as (x1 & s1 & Hshape & ->).
  { apply Hvalid. }
  destruct (propagation_loop_ok self Hself (node_info_propagator_stack_depth self)
              psel csels ff x1 s1) as (y & s' & Hrun & Hn & Hw).
  { by eapply valid_batch_shape_eq. }
  exists y, s'. split; [done |]. split; [| done].
  rewrite Hn. by apply shape_eq_length.
Qed.

(** C2 (amended). For a child-selector list whose array lengths are
    non-decreasing in list order (shortest first, longest last), the
    length check of the accumulation loop holds at every iteration: after
    any number [k] of arrays the accumulator exists, has the length of the
    [k]-th array, is what the rest of the loop continues from, and is at
    least as long as after any smaller number of arrays. *)
Theorem children_accumulator_grows self (x : tensor) sels :
  wf_module self → widths (propagated_info_len self) x →
  Forall (Forall (in_range (nrows x))) sels →
  Sorted le (length <$> sels) →
  ∀ j k, j ≤ k →
    ∃ accj acck,
      children_info self x (take j sels) = Ok accj
      ∧ children_info self x (take k sels) = Ok acck
      ∧ children_info self x sels = children_loop self x (drop k sels) acck
      ∧ nrows acck = last_len (take k sels)
      ∧ nrows accj ≤ nrows acck.
Proof.
  intros Hself Hx Hrange Hsorted j k Hjk.
  assert (∀ n, ∃ acc, children_info self x (take n sels) = Ok acc
                      ∧ nrows acc = last_len (take n sels)) as Hprefix.
  { intros n.
    destruct (children_info_ok self Hself x (take n sels)) as (acc & ? & ? & _).
    - done.
    - by apply Forall_take.
    - rewrite fmap_take. by apply sorted_take.
    - by exists acc. }
  destruct (Hprefix j) as (accj & Hj & Hlenj).
  destruct (Hprefix k) as (acck & Hk & Hlenk).
  exists accj, acck. split; [done |]. split; [done |]. split; [| split; [done |]].
  - unfold children_info in *.
    rewrite <- (take_drop k sels) at 1. by rewrite children_loop_app, Hk.
  - rewrite Hlenj, Hlenk. by apply last_len_take_mono.
Qed.

(** C3 (amended). In a round on an accepted batch the parent-merge cell is
    applied to every row, and the children-merge cell to the rows below the
    length of the accumulated children info, which is the length of the
    last (longest) child-selector array: such a row is the children merge
    of its normalised children info into its parent-merged value, every
    later row is its parent-merged value, and the rows stay in node order.
    Output dropout is then applied to the whole tensor. *)
Theorem round_prefix_suffix self psel csels ff (x : tensor) s :
  wf_module self → valid_batch self x psel csels ff →
  ∃ acc merged,
    children_info self x csels = Ok acc
    ∧ nrows acc = last_len csels
    ∧ propagation_round self psel csels ff x s
      = Dropout_forward (training self) (dropout self) merged
          (logged s (round_calls (nrows x) (nrows acc)))
    ∧ nrows merged = nrows x
    ∧ ∀ i xi pi, x !! i = Some xi → psel !! i = Some pi →
        let pm := overlayParentInfo self (transformParentInfo self (row_at x pi)) xi in
        (nrows acc ≤ i → merged !! i = Some pm)
        ∧ (i < nrows acc →
           ∃ ai di, acc !! i = Some ai ∧ ff !! i = Some di
             ∧ merged !! i = Some (overlayChildrenInfo self (row_div ai di) pm)).
Proof.
  intros Hself Hvalid.
  destruct (propagation_round_run self Hself psel csels ff x s Hvalid)
    as (acc & Hacc & Hlen & Hwacc & Hrun).
  destruct Hvalid as [Hx Hplen Hprange Hcrange Hsorted Hclen Hff].
  rewrite <- Hlen in Hclen, Hff.
  exists acc, (children_merged self psel ff x acc).
  split; [done |]. split; [done |]. split; [done |]. split.
  { by apply children_merged_length. }
  intros i xi pi Hxi Hpi pm.
  pose proof (parent_merged_lookup self psel x i xi pi Hxi Hpi) as Hpm.
  split.
  - intros Hi. by rewrite children_merged_suffix.
  - intros Hi. unfold nrows in *.
    destruct (lookup_lt_is_Some_2 acc i Hi) as [ai Hai].
    destruct (lookup_lt_is_Some_2 ff i) as [di Hdi]; [lia |].
    exists ai, di. split; [done |]. split; [done |].
    by apply children_merged_prefix.
Qed.

(** C4 (amended). With stack depth 0, input dropout inactive and
    normalisation skipped (disabled, or at most one row), [forward] returns
    its input. *)
Theorem forward_depth0 self (x : tensor) psel csels ff h s :
  node_info_propagator_stack_depth self = 0 →
  dropout_active (training self) (input_dropout self) = false →
  disable_batch_norm self = true ∨ nrows x ≤ 1 →
  (forward self x psel csels ff (Some h) s).1 = Ok x.
Proof.
  intros Hdepth Hdrop Hbn. unfold forward. simpl. rewrite !bindM_record.
  rewrite (bindM_run _ _ _ _ _ (Dropout_forward_inactive _ _ _ _ Hdrop)).
  replace (negb (disable_batch_norm self) && (1 <? nrows x)) with false.
  - by rewrite bindM_ret, bindM_record, Hdepth.
  - symmetry. destruct Hbn as [-> | Hle]; [done |].
    rewrite andb_false_iff. right. apply Nat.ltb_ge. lia.
Qed.

(** C5 (amended). When the fanout factor has one entry per row of
    accumulated children info, the normalisation divides row by row: row
    [i] of the children info by entry [i] of the factor, for the rows
    below the accumulator length and no other.  These are exactly the rows
    for which some child-selector array holds an entry, that is the nodes
    with a child count of at least one. *)
Theorem normalize_children_rowwise self (x : tensor) csels ff :
  wf_module self → widths (propagated_info_len self) x →
  Forall (Forall (in_range (nrows x))) csels →
  Sorted le (length <$> csels) →
  length ff = last_len csels →
  ∃ acc,
    children_info self x csels = Ok acc
    ∧ normalize_children acc ff = Ok (zip_with row_div acc ff)
    ∧ nrows (zip_with row_div acc ff) = nrows acc
    ∧ (∀ i ai di, acc !! i = Some ai → ff !! i = Some di →
         zip_with row_div acc ff !! i = Some (row_div ai di))
    ∧ (∀ i, i < nrows acc ↔ 1 ≤ child_count csels i).
Proof.
  intros Hself Hx Hrange Hsorted Hff.
  destruct (children_info_ok self Hself x csels Hx Hrange Hsorted)
    as (acc & Hacc & Hlen & _).
  exists acc. split; [done |]. split.
  { apply normalize_children_ok. right. congruence. }
  split.
  { unfold nrows in *. rewrite length_zip_with. lia. }
  split.
  - intros i ai di Ha Hd. by rewrite lookup_zip_with, Ha, Hd.
  - intros i. rewrite Hlen. symmetry. by apply child_count_last_len.
Qed.

(** C6 (amended). When at least one round runs, [forward] raises and
    returns no tensor whenever an entry of the parent selector or of a
    child-selector array is at or past the row count, and whenever, on a
    batch accepted up to there, the accumulated children info has more
    rows than there are nodes.  With a callable hook the exception for a
    bad parent entry is [IndexError] when the normalisation before the loop
    does not fail (it is disabled, or there is at most one row, or the
    input has the configured width), and the [RuntimeError] of the
    normalisation otherwise; for the overlong children info it is
    [RuntimeError]. *)
Theorem forward_shape_fault `{!SubstrateOk Sub} self (x : tensor) psel csels ff hook s :
  0 < node_info_propagator_stack_depth self →
  Exists (beyond (nrows x)) psel
  ∨ Exists (Exists (beyond (nrows x))) csels
  ∨ (wf_module self ∧ overlong_batch self x psel csels ff) →
  ∃ e, (forward self x psel csels ff hook s).1 = Raise e
    ∧ (is_Some hook → Exists (beyond (nrows x)) psel →
       (disable_batch_norm self = true ∨ nrows x ≤ 1
        ∨ widths (propagated_info_len self) x → e = IndexError)
       ∧ (disable_batch_norm self = false → 1 < nrows x →
          ¬ widths (propagated_info_len self) x → e = RuntimeError))
    ∧ (is_Some hook → wf_module self →
       overlong_batch self x psel csels ff → e = RuntimeError).
Proof.
  intros Hdepth Hfault.
  assert (raises (forward self x psel csels ff hook s).1) as [e He].
  { destruct Hfault as [Hp | [Hc | [Hself Hover]]].
    - apply forward_beyond_raises; [done | by left].
    - apply forward_beyond_raises; [done | by right].
    - destruct hook as [h|]; [| by eexists].
      rewrite forward_overlong by done. by eexists. }
  exists e. split; [done |]. split.
  - intros [h ->] Hp.
    destruct (forward_beyond_parent_cases self x psel csels ff h s Hdepth Hp)
      as [Hindex Hnorm].
    split.
    + intros Hok. rewrite (Hindex Hok) in He. by simplify_eq.
    + intros Hdis Hn Hw. rewrite (Hnorm Hdis Hn Hw) in He. by simplify_eq.
  - intros [h ->] Hself Hover.
    rewrite forward_overlong in He by done. by simplify_eq.
Qed.

(** C7. With a callable hook, [forward] applies the input-dropout kernel
    once, to its input and from the generator state of the call, and the
    normalisation kernel once, to the result of input dropout and from the
    running statistics of the call, exactly when batch norm is not disabled
    and the input has more than one row; otherwise normalisation is
    skipped.  The rounds run on the result.  They leave the running
    statistics as the normalisation left them and, with output dropout
    inactive, the generator as input dropout left it, so that neither step
    is repeated in a round.  If the normalisation is due on an input of
    another width it raises [RuntimeError] and no round runs.  In the call
    log the hook is followed by one input dropout and, when due, one
    normalisation, and nothing after that is an input dropout or a
    normalisation, wherever the call ends. *)
Theorem forward_dropout_norm_once `{!SubstrateOk Sub} self (x : tensor)
    psel csels ff h s :
  let drop := dropout_active (training self) (input_dropout self) in
  let norm := negb (disable_batch_norm self) && (1 <? nrows x) in
  let dropped := bernoulli_drop (p (input_dropout self)) (rng s) x in
  let x1 := if drop then dropped.1 else x in
  let g1 := if drop then dropped.2 else rng s in
  let normed := batch_norm_kernel (training self) (bn_stats s) x1 in
  let x2 := if norm then normed.1 else x1 in
  let st2 := if norm then normed.2 else bn_stats s in
  let prelude :=
    [CallDataDebugHook h x "ndfo"; CallInputDropout]
    ++ (if norm then [CallBatchNorm] else []) in
  (norm = false ∨ widths (propagated_info_len self) x →
     forward self x psel csels ff (Some h) s
     = propagation_loop self (node_info_propagator_stack_depth self)
         psel csels ff x2
         {| rng := g1; bn_stats := st2;
            calls := calls s ++ prelude ++ [CallDataDebugHook h x2 "ndfo"] |}
     ∧ bn_stats (forward self x psel csels ff (Some h) s).2 = st2
     ∧ (dropout_active (training self) (dropout self) = false →
        rng (forward self x psel csels ff (Some h) s).2 = g1))
  ∧ (norm = true → ¬ widths (propagated_info_len self) x →
     forward self x psel csels ff (Some h) s
     = (Raise RuntimeError,
        {| rng := g1;
           bn_stats := if training self then batch_norm_track (bn_stats s)
                       else bn_stats s;
           calls := calls s ++ prelude |}))
  ∧ ∃ rest,
      calls (forward self x psel csels ff (Some h) s).2
      = calls s ++ prelude ++ rest
      ∧ Forall (λ c, c ≠ CallInputDropout ∧ c ≠ CallBatchNorm) rest.
Proof.
  cbv zeta.
  pose proof (Dropout_forward_shape (training self) (input_dropout self) x (rng s))
    as Hshape.
  pose proof (forward_to_norm self x psel csels ff h s) as Hfwd. cbv zeta in Hfwd.
  set (x1 := if dropout_active (training self) (input_dropout self)
             then (bernoulli_drop (p (input_dropout self)) (rng s) x).1 else x) in *.
  set (g1 := if dropout_active (training self) (input_dropout self)
             then (bernoulli_drop (p (input_dropout self)) (rng s) x).2 else rng s) in *.
  split; [| split].
  - intros Hok.
    assert (forward self x psel csels ff (Some h) s
            = propagation_loop self (node_info_propagator_stack_depth self)
                psel csels ff
                (if negb (disable_batch_norm self) && (1 <? nrows x)
                 then (batch_norm_kernel (training self) (bn_stats s) x1).1 else x1)
                {| rng := g1;
                   bn_stats := if negb (disable_batch_norm self) && (1 <? nrows x)
                               then (batch_norm_kernel (training self) (bn_stats s) x1).2
                               else bn_stats s;
                   calls := calls s
                     ++ ([CallDataDebugHook h x "ndfo"; CallInputDropout]
                         ++ (if negb (disable_batch_norm self) && (1 <? nrows x)
                             then [CallBatchNorm] else []))
                     ++ [CallDataDebugHook h
                           (if negb (disable_batch_norm self) && (1 <? nrows x)
                            then (batch_norm_kernel (training self) (bn_stats s) x1).1
                            else x1) "ndfo"] |}) as Hrun.
    { rewrite Hfwd.
      destruct (negb (disable_batch_norm self) && (1 <? nrows x)) eqn:Hnorm; [| done].
      destruct Hok as [? | Hx%has_width_true]; [done |].
      rewrite (bindM_run _ _ _ _ _ (BatchNorm1d_forward_eq _ _ _ _
                 (eq_trans (shape_eq_has_width _ _ _ Hshape) Hx))).
      simpl call_hook. rewrite bindM_record. unfold logged.
      cbn [rng bn_stats calls]. by rewrite <- !app_assoc. }
    split; [exact Hrun |]. rewrite Hrun. split.
    + rewrite (keeps_propagation_loop bn_stats); [done | done |].
      intros y. apply keeps_bn_stats_Dropout.
    + intros Hout. rewrite (keeps_propagation_loop rng); [done | done |].
      intros y. by apply keeps_rng_Dropout_inactive.
  - intros Hnorm Hx. rewrite Hfwd, Hnorm. unfold bindM.
    rewrite BatchNorm1d_forward_bad.
    + done.
    + rewrite (shape_eq_has_width _ _ _ Hshape).
      apply not_true_is_false. by intros ?%has_width_true.
  - destruct (forward_prelude_log self x psel csels ff h s) as (rest & Hcalls & HP).
    exists rest. split; [| done]. rewrite Hcalls. by rewrite <- !app_assoc.
Qed.

(** C8. For a batch of one node that is its own parent, with no child
    selector, [forward] returns a one-row tensor of the configured width:
    the rounds are the parent-only rounds [self_loop_rounds], no
    children-merge cell is called, and with the dropouts inactive the row
    is the self-loop merge iterated once per round. *)
Theorem forward_single_node `{!SubstrateOk Sub} self (r : row) ff h s :
  wf_module self → length r = propagated_info_len self →
  ∃ r1 s1 out s' cs,
    length r1 = length r
    ∧ (dropout_active (training self) (input_dropout self) = false → r1 = r)
    ∧ forward self [r] [0%Z] [] ff (Some h) s
      = self_loop_rounds self (node_info_propagator_stack_depth self) [r1] s1
    ∧ forward self [r] [0%Z] [] ff (Some h) s = (Ok [out], s')
    ∧ length out = propagated_info_len self
    ∧ (dropout_active (training self) (dropout self) = false →
       out = Nat.iter (node_info_propagator_stack_depth self) (self_loop_row self) r1)
    ∧ calls s' = calls s ++ cs
    ∧ Forall (λ c, ¬ is_children_merge c) cs.
Proof.
  intros Hself Hr. unfold forward. simpl call_hook. rewrite !bindM_record.
  edestruct (Dropout_forward_total (training self) (input_dropout self) [r])
    as (x1 & s1 & Hdrop & Hshape & Hcalls & Hid).
  rewrite (bindM_run _ _ _ _ _ Hdrop).
  inversion Hshape as [|? r1 ? ? Hlen Hnil]; subst. inversion Hnil; subst.
  simpl nrows. simpl Nat.ltb. rewrite andb_false_r, bindM_ret, bindM_record.
  destruct (self_loop_rounds_ok self Hself ff (node_info_propagator_stack_depth self)
              r1 (logged s1 [CallDataDebugHook h [r1] "ndfo"]))
    as (out & s' & Hrun & Hloop & Hout & Hiter); [congruence |].
  destruct (emits_self_loop_rounds self (node_info_propagator_stack_depth self)
              [r1] (logged s1 [CallDataDebugHook h [r1] "ndfo"]))
    as (ds & Hds & HP).
  rewrite Hrun in Hds. simpl in Hds. rewrite Hcalls in Hds. simpl in Hds.
  exists r1, (logged s1 [CallDataDebugHook h [r1] "ndfo"]), out, s'.
  eexists. split; [done |]. split.
  { intros Hact. specialize (Hid Hact). by simplify_eq. }
  split; [by rewrite Hloop, Hrun |]. split; [done |]. split; [done |].
  split; [done |]. split.
  - rewrite Hds, <- !app_assoc. reflexivity.
  - simpl. repeat (constructor; [simpl; tauto |]). done.
Qed.

(** C9. With both dropouts inactive and normalisation disabled, the result
    of [forward] is the same from every hidden state, and the call leaves
    the random generator and the running statistics as they were: two
    calls on the same inputs return the same tensor, or raise the same
    exception. *)
Theorem forward_deterministic self (x : tensor) psel csels ff hook :
  dropout_active (training self) (input_dropout self) = false →
  dropout_active (training self) (dropout self) = false →
  disable_batch_norm self = true →
  ∀ s1 s2,
    (forward self x psel csels ff hook s1).1 = (forward self x psel csels ff hook s2).1
    ∧ rng (forward self x psel csels ff hook s1).2 = rng s1
    ∧ bn_stats (forward self x psel csels ff hook s1).2 = bn_stats s1.
Proof.
  intros Hin Hout Hbn.
  assert (steady (forward self x psel csels ff hook)) as (r & cs & Hrun).
  { unfold forward. rewrite Hbn. simpl negb. simpl andb.
    apply steady_bind; [apply steady_call_hook | intros _].
    apply steady_bind; [apply steady_record | intros _].
    apply steady_bind; [by apply steady_Dropout_forward | intros x1].
    apply steady_bind; [apply steady_ret | intros x2].
    apply steady_bind; [apply steady_call_hook | intros _].
    by apply steady_propagation_loop. }
  intros s1 s2. by rewrite !Hrun.
Qed.

(** C10. Without a [dataDebugHook] argument the default [None] is called on
    entry: [forward] raises [TypeError] for every input, before any dropout,
    normalisation or propagation round has run and with the hidden state as
    it was. *)
Theorem forward_without_hook self (x : tensor) psel csels ff s :
  forward self x psel csels ff None s = (Raise TypeError, s).
Proof. reflexivity. Qed.

End Claims.

(** * The claims on the concrete substrate *)

Section ConcreteClaims.
Import Concrete.
#[local] Existing Instance ZSub_ok.

Lemma forward_shape_witness :
  wf_module (hp 2 false)
  ∧ valid_batch (hp 2 false) x4 parent4 children4 fanouts4
  ∧ ∃ y s', forward (hp 2 false) x4 parent4 children4 fanouts4 (Some ()) s0 = (Ok y, s')
            ∧ nrows y = nrows x4 ∧ widths 1 y.
Proof.
  split; [apply hp_wf |]. split; [apply example4_valid |].
  apply (forward_shape (hp 2 false) x4 parent4 children4 fanouts4 () s0);
    [apply hp_wf | apply example4_valid].
Defined.

(** C1, as stated, fails: one feature row of the configured width per node,
    every selector entry a valid rank and one fanout factor per node, yet
    the call raises.  On the chain it raises at the normalisation of two
    rows of children info by three factors; on the four-node tree with the
    longest child-selector array first it raises at the length check of
    the accumulation. *)
Lemma forward_shape_counterexample :
  (widths 1 x3
   ∧ length parent3 = nrows x3
   ∧ Forall (in_range (nrows x3)) parent3
   ∧ Forall (Forall (in_range (nrows x3))) children3
   ∧ length fanouts3 = nrows x3
   ∧ (forward (hp 1 true) x3 parent3 children3 fanouts3 (Some ()) s0).1
     = Raise RuntimeError)
  ∧ (widths 1 x4
     ∧ length parent4 = nrows x4
     ∧ Forall (in_range (nrows x4)) parent4
     ∧ Forall (Forall (in_range (nrows x4))) children4_longest_first
     ∧ length fanouts4_per_node = nrows x4
     ∧ (forward (hp 1 true) x4 parent4 children4_longest_first fanouts4_per_node
          (Some ()) s0).1
       = Raise AssertionError).
Proof.
  unfold widths, in_range.
  repeat split; try reflexivity; repeat constructor; simpl; lia.
Qed.

Lemma children_accumulator_grows_witness :
  wf_module (hp 1 true)
  ∧ widths 1 x4
  ∧ Forall (Forall (in_range (nrows x4))) children4
  ∧ Sorted le (length <$> children4)
  ∧ 1 ≤ 2
  ∧ ∃ accj acck,
      children_info (hp 1 true) x4 (take 1 children4) = Ok accj
      ∧ children_info (hp 1 true) x4 (take 2 children4) = Ok acck
      ∧ children_info (hp 1 true) x4 children4
        = children_loop (hp 1 true) x4 (drop 2 children4) acck
      ∧ nrows acck = last_len (take 2 children4)
      ∧ nrows accj ≤ nrows acck.
Proof.
  assert (widths 1 x4) as Hx by (by repeat constructor).
  assert (Forall (Forall (in_range (nrows x4))) children4) as Hrange.
  { unfold in_range. repeat constructor; simpl; lia. }
  assert (Sorted le (length <$> children4)) as Hsorted.
  { simpl. repeat constructor. }
  split; [apply hp_wf |]. split; [done |]. split; [done |]. split; [done |].
  split; [lia |].
  apply (children_accumulator_grows (hp 1 true) x4 children4 (hp_wf 1 true)
           Hx Hrange Hsorted 1 2). lia.
Defined.

(** C2, as stated, fails: with the longest array first, the lengths 2 and 1
    are non-increasing and the length check of the second iteration
    fails. *)
Lemma children_accumulator_counterexample :
  Sorted ge (length <$> children4_longest_first)
  ∧ children_info (hp 1 true) x4 children4_longest_first = Raise AssertionError.
Proof. split; [simpl; repeat constructor | reflexivity]. Qed.

Lemma round_prefix_suffix_witness :
  wf_module (hp 1 true)
  ∧ valid_batch (hp 1 true) x4 parent4 children4 fanouts4
  ∧ ∃ acc merged,
      children_info (hp 1 true) x4 children4 = Ok acc
      ∧ nrows acc = last_len children4
      ∧ propagation_round (hp 1 true) parent4 children4 fanouts4 x4 s0
        = Dropout_forward true {| p := 0 |} merged
            (logged s0 (round_calls (nrows x4) (nrows acc)))
      ∧ nrows merged = nrows x4
      ∧ ∀ i xi pi, x4 !! i = Some xi → parent4 !! i = Some pi →
          let pm := overlayParentInfo (hp 1 true)
                      (transformParentInfo (hp 1 true) (row_at x4 pi)) xi in
          (nrows acc ≤ i → merged !! i = Some pm)
          ∧ (i < nrows acc →
             ∃ ai di, acc !! i = Some ai ∧ fanouts4 !! i = Some di
               ∧ merged !! i
                 = Some (overlayChildrenInfo (hp 1 true) (row_div ai di) pm)).
Proof.
  split; [apply hp_wf |]. split; [apply example4_valid |].
  apply (round_prefix_suffix (hp 1 true) parent4 children4 fanouts4 x4 s0);
    [apply hp_wf | apply example4_valid].
Defined.

(** C3, as stated, fails.  With the arrays in the order the accumulation
    accepts, the first child-selector array has length 1, and the row at
    index 1 does not keep its parent-merged value: the children-merge cell
    is applied to it.  With the longest array first, the round raises in
    the accumulation, before either merge cell has been called. *)
Lemma round_prefix_suffix_counterexample :
  (∃ sel0 out,
     children4 !! 0 = Some sel0
     ∧ length sel0 ≤ 1
     ∧ (propagation_round (hp 1 true) parent4 children4 fanouts4 x4 s0).1 = Ok out
     ∧ parent_merged (hp 1 true) parent4 x4 !! 1 = Some [23%Z]
     ∧ out !! 1 = Some [2312%Z])
  ∧ (Sorted ge (length <$> children4_longest_first)
     ∧ propagation_round (hp 1 true) parent4 children4_longest_first
         fanouts4_per_node x4 s0
       = (Raise AssertionError, s0)).
Proof.
  split.
  - eexists _, _. repeat split; try reflexivity; simpl; lia.
  - split; [simpl; repeat constructor | reflexivity].
Qed.

Lemma forward_depth0_witness :
  node_info_propagator_stack_depth (hp 0 true) = 0
  ∧ dropout_active (training (hp 0 true)) (input_dropout (hp 0 true)) = false
  ∧ (disable_batch_norm (hp 0 true) = true ∨ nrows x2 ≤ 1)
  ∧ (forward (hp 0 true) x2 parent2 children2 fanouts2 (Some ()) s0).1 = Ok x2.
Proof.
  split; [reflexivity |]. split; [reflexivity |]. split; [by left |].
  apply (forward_depth0 (hp 0 true) x2 parent2 children2 fanouts2 () s0);
    [reflexivity | reflexivity | by left].
Defined.

(** C4, as stated, fails: stack depth 0 and no dropout, but normalisation
    is enabled and the input has two rows, so the result is the normalised
    input. *)
Lemma forward_depth0_counterexample :
  node_info_propagator_stack_depth (hp 0 false) = 0
  ∧ dropout_active (training (hp 0 false)) (input_dropout (hp 0 false)) = false
  ∧ dropout_active (training (hp 0 false)) (dropout (hp 0 false)) = false
  ∧ (forward (hp 0 false) x2 parent2 children2 fanouts2 (Some ()) s0).1
    = Ok [[-1]; [1]]%Z
  ∧ [[-1]; [1]]%Z ≠ x2.
Proof. repeat split; try reflexivity. discriminate. Qed.

Lemma normalize_children_rowwise_witness :
  wf_module (hp 1 true)
  ∧ widths 1 x4
  ∧ Forall (Forall (in_range (nrows x4))) children4
  ∧ Sorted le (length <$> children4)
  ∧ length fanouts4 = last_len children4
  ∧ ∃ acc,
      children_info (hp 1 true) x4 children4 = Ok acc
      ∧ normalize_children acc fanouts4 = Ok (zip_with row_div acc fanouts4)
      ∧ nrows (zip_with row_div acc fanouts4) = nrows acc
      ∧ (∀ i ai di, acc !! i = Some ai → fanouts4 !! i = Some di →
           zip_with row_div acc fanouts4 !! i = Some (row_div ai di))
      ∧ (∀ i, i < nrows acc ↔ 1 ≤ child_count children4 i).
Proof.
  assert (widths 1 x4) as Hx by (by repeat constructor).
  assert (Forall (Forall (in_range (nrows x4))) children4) as Hrange.
  { unfold in_range. repeat constructor; simpl; lia. }
  assert (Sorted le (length <$> children4)) as Hsorted.
  { simpl. repeat constructor. }
  split; [apply hp_wf |]. split; [done |]. split; [done |]. split; [done |].
  split; [reflexivity |].
  apply (normalize_children_rowwise (hp 1 true) x4 children4 fanouts4
           (hp_wf 1 true) Hx Hrange Hsorted). reflexivity.
Defined.

(** C5, as stated, fails: the fanout factor is the child count of every
    node, in decreasing order.  On the chain the division of the two
    accumulated rows by its three entries raises.  On the two-node tree
    the single accumulated row is broadcast against the two entries: the
    result has a row for the childless node as well, divided by its child
    count 0. *)
Lemma normalize_children_rowwise_counterexample :
  (fanouts3 = (λ i, Z.of_nat (child_count children3 i)) <$> seq 0 (nrows x3)
   ∧ ∃ acc,
       children_info (hp 1 true) x3 children3 = Ok acc
       ∧ nrows acc = 2
       ∧ normalize_children acc fanouts3 = Raise RuntimeError)
  ∧ (fanouts2_per_node
     = (λ i, Z.of_nat (child_count children2 i)) <$> seq 0 (nrows x2)
     ∧ ∃ acc out,
         children_info (hp 1 true) x2 children2 = Ok acc
         ∧ nrows acc = 1
         ∧ normalize_children acc fanouts2_per_node = Ok out
         ∧ nrows out = 2
         ∧ fanouts2_per_node !! 1 = Some 0%Z).
Proof.
  split.
  - split; [reflexivity |]. eexists. repeat split; reflexivity.
  - split; [reflexivity |]. eexists _, _. repeat split; reflexivity.
Qed.

Lemma forward_shape_fault_witness :
  0 < node_info_propagator_stack_depth (hp 1 true)
  ∧ Exists (beyond (nrows x2)) [0; 2]%Z
  ∧ wf_module (hp 1 true)
  ∧ overlong_batch (hp 1 true) x1 parent1 children1_overlong fanouts1_overlong
  ∧ (∃ e, (forward (hp 1 true) x2 [0; 2]%Z children2 fanouts2 (Some ()) s0).1 = Raise e
       ∧ e = IndexError)
  ∧ (∃ e, (forward (hp 1 true) x1 parent1 children1_overlong fanouts1_overlong
             (Some ()) s0).1 = Raise e
       ∧ e = RuntimeError).
Proof.
  assert (Exists (beyond (nrows x2)) [0; 2]%Z) as Hbad.
  { apply Exists_cons_tl, Exists_cons_hd. unfold beyond. simpl. lia. }
  assert (overlong_batch (hp 1 true) x1 parent1 children1_overlong fanouts1_overlong)
    as Hover.
  { split; simpl; unfold widths, in_range, last_len; simpl;
      repeat (constructor; simpl); lia. }
  assert (0 < node_info_propagator_stack_depth (hp 1 true)) as Hdepth
    by (simpl; lia).
  split; [done |]. split; [done |]. split; [apply hp_wf |]. split; [done |].
  split.
  - destruct (forward_shape_fault (hp 1 true) x2 [0; 2]%Z children2 fanouts2
                (Some ()) s0 Hdepth (or_introl Hbad)) as (e & He & Hindex & _).
    exists e. split; [done |].
    destruct (Hindex ltac:(by eexists) Hbad) as [Hok _]. apply Hok. by left.
  - destruct (forward_shape_fault (hp 1 true) x1 parent1 children1_overlong
                fanouts1_overlong (Some ()) s0 Hdepth
                (or_intror (or_intror (conj (hp_wf 1 true) Hover))))
      as (e & He & _ & Hruntime).
    exists e. split; [done |]. apply Hruntime; [by eexists | apply hp_wf | done].
Defined.

(** C6, as stated, fails twice.  With stack depth 0 no selector is ever
    used, and the call returns its input although the parent selector
    holds an index past the row count.  And with two rows of accumulated
    children info for four nodes the lengths disagree, yet the call
    returns: the two remaining rows pass through the children step. *)
Lemma forward_shape_fault_counterexample :
  (Exists (beyond (nrows x2)) [0; 2]%Z
   ∧ (forward (hp 0 true) x2 [0; 2]%Z children2 fanouts2 (Some ()) s0).1 = Ok x2)
  ∧ (∃ acc y, children_info (hp 1 true) x4 children4 = Ok acc
       ∧ nrows acc = 2 ∧ nrows x4 = 4
       ∧ (forward (hp 1 true) x4 parent4 children4 fanouts4 (Some ()) s0).1 = Ok y
       ∧ nrows y = 4).
Proof.
  split.
  - split; [| reflexivity].
    apply Exists_cons_tl, Exists_cons_hd. unfold beyond. simpl. lia.
  - eexists _, _. repeat split; reflexivity.
Qed.

Lemma forward_dropout_norm_once_witness :
  SubstrateOk ZSub
  ∧ (forward (hp_input_dropout 2 false) x4 parent4 children4 fanouts4 (Some ()) s0
     = propagation_loop (hp_input_dropout 2 false) 2 parent4 children4 fanouts4
         [[0]; [0]; [0]; [0]]%Z
         {| rng := 1; bn_stats := 1;
            calls := [CallDataDebugHook () x4 "ndfo"; CallInputDropout; CallBatchNorm;
                      CallDataDebugHook () [[0]; [0]; [0]; [0]]%Z "ndfo"] |}
     ∧ bn_stats (forward (hp_input_dropout 2 false) x4 parent4 children4 fanouts4
                   (Some ()) s0).2 = 1
     ∧ rng (forward (hp_input_dropout 2 false) x4 parent4 children4 fanouts4
              (Some ()) s0).2 = 1)
  ∧ ∃ rest,
      calls (forward (hp_input_dropout 2 false) x4 parent4 children4 fanouts4
               (Some ()) s0).2
      = calls s0
        ++ ([CallDataDebugHook () x4 "ndfo"; CallInputDropout] ++ [CallBatchNorm])
        ++ rest
      ∧ Forall (λ c, c ≠ CallInputDropout ∧ c ≠ CallBatchNorm) rest.
Proof.
  split; [apply ZSub_ok |].
  pose proof (forward_dropout_norm_once (hp_input_dropout 2 false) x4 parent4
                children4 fanouts4 () s0) as Hthm.
  cbv zeta in Hthm. destruct Hthm as (Hrun & _ & Hlog).
  split; [| exact Hlog].
  destruct Hrun as (Heq & Hstats & Hrng).
  { right. by repeat constructor. }
  split; [exact Heq |]. split; [exact Hstats |]. by apply Hrng.
Defined.

Lemma forward_single_node_witness :
  wf_module (hp 2 true)
  ∧ length [1%Z] = propagated_info_len (hp 2 true)
  ∧ ∃ r1 s1 out s' cs,
      length r1 = length [1%Z]
      ∧ (dropout_active (training (hp 2 true)) (input_dropout (hp 2 true)) = false →
         r1 = [1%Z])
      ∧ forward (hp 2 true) [[1%Z]] [0%Z] [] [0%Z] (Some ()) s0
        = self_loop_rounds (hp 2 true) 2 [r1] s1
      ∧ forward (hp 2 true) [[1%Z]] [0%Z] [] [0%Z] (Some ()) s0 = (Ok [out], s')
      ∧ length out = 1
      ∧ (dropout_active (training (hp 2 true)) (dropout (hp 2 true)) = false →
         out = Nat.iter 2 (self_loop_row (hp 2 true)) r1)
      ∧ calls s' = calls s0 ++ cs
      ∧ Forall (λ c, ¬ is_children_merge c) cs.
Proof.
  split; [apply hp_wf |]. split; [reflexivity |].
  apply (forward_single_node (hp 2 true) [1%Z] [0%Z] () s0);
    [apply hp_wf | reflexivity].
Defined.

Lemma forward_deterministic_witness :
  dropout_active (training (hp 2 true)) (input_dropout (hp 2 true)) = false
  ∧ dropout_active (training (hp 2 true)) (dropout (hp 2 true)) = false
  ∧ disable_batch_norm (hp 2 true) = true
  ∧ ∀ s1 s2,
      (forward (hp 2 true) x4 parent4 children4 fanouts4 (Some ()) s1).1
      = (forward (hp 2 true) x4 parent4 children4 fanouts4 (Some ()) s2).1
      ∧ rng (forward (hp 2 true) x4 parent4 children4 fanouts4 (Some ()) s1).2 = rng s1
      ∧ bn_stats (forward (hp 2 true) x4 parent4 children4 fanouts4 (Some ()) s1).2
        = bn_stats s1.
Proof.
  split; [reflexivity |]. split; [reflexivity |]. split; [reflexivity |].
  apply (forward_deterministic (hp 2 true) x4 parent4 children4 fanouts4 (Some ()));
    reflexivity.
Defined.

End ConcreteClaims.

(** * Further properties of [forward] *)

Section ForwardExtras.
Context `{Sub : Substrate}.

(** ** The length check, completely *)

Lemma children_loop_unsorted self (x : tensor) sels : ∀ acc,
  wf_module self → widths (propagated_info_len self) x →
  Forall (Forall (in_range (length x))) sels →
  widths (propagated_info_len self) acc →
  ¬ Sorted le (length acc :: (length <$> sels)) →
  children_loop self x sels acc = Raise AssertionError.
Proof.
  induction sels as [|sel sels IH]; intros acc Hself Hx Hsels Hacc Hns.
  - destruct Hns. repeat constructor.
  - apply Forall_cons in Hsels as [Hsel Hsels]. simpl.
    destruct (decide (length sel < length acc)) as [Hlt|Hge].
    + by rewrite accumulate_child_shrink.
    + destruct (accumulate_child_ok self Hself x acc sel)
        as (acc1 & -> & Hlen1 & Hw1); try done; [lia |].
      simpl. apply IH; try done.
      intros Hsorted. apply Hns. rewrite fmap_cons.
      constructor; [by rewrite <- Hlen1 |]. constructor. lia.
Qed.

(** X1. On rows of the configured width and in-range selectors, the
    accumulation of children info returns exactly when no child-selector
    array is shorter than the array before it; otherwise its length check
    fails with [AssertionError]. *)
Theorem children_info_sorted_iff self (x : tensor) sels :
  wf_module self → widths (propagated_info_len self) x →
  Forall (Forall (in_range (nrows x))) sels →
  (Sorted le (length <$> sels) →
   ∃ acc, children_info self x sels = Ok acc ∧ nrows acc = last_len sels)
  ∧ (¬ Sorted le (length <$> sels) →
     children_info self x sels = Raise AssertionError).
Proof.
  intros Hself Hx Hsels. split.
  - intros Hsorted.
    destruct (children_info_ok self Hself x sels Hx Hsels Hsorted)
      as (acc & ? & ? & _). by exists acc.
  - intros Hns. apply children_loop_unsorted; try done; [constructor |].
    intros Hsorted. apply Hns. by apply Sorted_inv in Hsorted as [? _].
Qed.

(** ** A parent selector of the wrong length *)

Lemma propagation_round_parent_length self psel csels ff (x : tensor) s :
  wf_module self → widths (propagated_info_len self) x →
  length psel ≠ nrows x →
  Forall (in_range (nrows x)) psel →
  Forall (Forall (in_range (nrows x))) csels →
  Sorted le (length <$> csels) →
  propagation_round self psel csels ff x s
  = (Raise RuntimeError, logged s [CallOverlayParentInfo (nrows x)]).
Proof.
  intros Hself Hx Hlen Hp Hc Hsorted.
  destruct (children_info_ok self Hself x csels Hx Hc Hsorted)
    as (acc & Hacc & _ & _).
  unfold propagation_round.
  rewrite bindM_lift, index_rows_ok by done.
  rewrite bindM_lift, Linear_forward_ok by (by apply widths_row_at).
  rewrite bindM_lift, Hacc, bindM_record, bindM_lift.
  rewrite GRUCell_forward_mismatch; [done |].
  by rewrite !length_fmap.
Qed.

(** X2. When at least one round runs on rows of the configured width, a
    parent selector whose entries are in range but whose length is not the
    number of nodes makes [forward] raise [RuntimeError]: the parent-merge
    cell receives batches of different sizes. *)
Theorem forward_parent_length_fault `{!SubstrateOk Sub} self (x : tensor)
    psel csels ff h s :
  wf_module self → 0 < node_info_propagator_stack_depth self →
  widths (propagated_info_len self) x →
  length psel ≠ nrows x →
  Forall (in_range (nrows x)) psel →
  Forall (Forall (in_range (nrows x))) csels →
  Sorted le (length <$> csels) →
  (forward self x psel csels ff (Some h) s).1 = Raise RuntimeError.
Proof.
  intros Hself Hdepth Hx Hlen Hp Hc Hsorted.
  destruct (forward_prelude self x psel csels ff h s Hx) as (x1 & s1 & Hshape & ->).
  pose proof (shape_eq_length _ _ Hshape) as Hn.
  destruct (node_info_propagator_stack_depth self) as [|d]; [lia |]. simpl.
  unfold bindM. rewrite propagation_round_parent_length; try done.
  - by eapply shape_eq_widths.
  - unfold nrows in *. congruence.
  - unfold nrows in *. by rewrite Hn.
  - unfold nrows in *. by rewrite Hn.
Qed.

(** ** Features of the wrong width *)

(** X3. When at least one round runs, a non-empty in-range parent selector
    on a feature tensor whose rows all have a width other than
    [propagated_info_len] makes [forward] raise [RuntimeError].  When batch
    norm is enabled and there is more than one row the normalisation raises
    it, after input dropout and before the second hook call and any round.
    Otherwise it is raised in the first round: the parent rows are
    gathered, the linear transform of them raises, and no merge cell has
    been called. *)
Theorem forward_width_fault `{!SubstrateOk Sub} self (x : tensor) w'
    psel csels ff h s :
  0 < node_info_propagator_stack_depth self →
  widths w' x → w' ≠ propagated_info_len self →
  psel ≠ [] → Forall (in_range (nrows x)) psel →
  let drop := dropout_active (training self) (input_dropout self) in
  let dropped := bernoulli_drop (p (input_dropout self)) (rng s) x in
  let x1 := if drop then dropped.1 else x in
  let g1 := if drop then dropped.2 else rng s in
  (forward self x psel csels ff (Some h) s).1 = Raise RuntimeError
  ∧ if negb (disable_batch_norm self) && (1 <? nrows x) then
      (BatchNorm1d_forward (propagated_info_len self) (training self) x1
         {| rng := g1; bn_stats := bn_stats s;
            calls := calls s ++ [CallDataDebugHook h x "ndfo"; CallInputDropout;
                                 CallBatchNorm] |}).1
      = Raise RuntimeError
      ∧ forward self x psel csels ff (Some h) s
        = (Raise RuntimeError,
           {| rng := g1;
              bn_stats := if training self then batch_norm_track (bn_stats s)
                          else bn_stats s;
              calls := calls s ++ [CallDataDebugHook h x "ndfo"; CallInputDropout;
                                   CallBatchNorm] |})
    else
      ∃ gathered,
        index_rows x1 psel = Ok gathered
        ∧ Linear_forward (propagated_info_len self) (transformParentInfo self)
            gathered = Raise RuntimeError
        ∧ forward self x psel csels ff (Some h) s
          = (Raise RuntimeError,
             {| rng := g1; bn_stats := bn_stats s;
                calls := calls s ++ [CallDataDebugHook h x "ndfo"; CallInputDropout;
                                     CallDataDebugHook h x1 "ndfo"] |}).
Proof.
  intros Hdepth Hx Hw Hne Hp. cbv zeta.
  pose proof (Dropout_forward_shape (training self) (input_dropout self) x (rng s))
    as Hshape.
  rewrite forward_to_norm. cbv zeta.
  set (x1 := if dropout_active (training self) (input_dropout self)
             then (bernoulli_drop (p (input_dropout self)) (rng s) x).1 else x) in *.
  assert (has_width (propagated_info_len self) (row_at x1 <$> psel) = false)
    as Hbadrows.
  { apply not_true_is_false. intros Hok%has_width_true.
    destruct psel as [|i psel]; [done |].
    apply Forall_cons in Hp as [Hi _].
    rewrite fmap_cons in Hok. apply Forall_cons in Hok as [Hrow _].
    pose proof (shape_eq_widths _ _ _ Hshape Hx) as Hx1.
    unfold widths in Hx1. rewrite Forall_forall in Hx1.
    unfold nrows in Hi. rewrite <- (shape_eq_length _ _ Hshape) in Hi.
    specialize (Hx1 _ (row_at_elem x1 i Hi)). congruence. }
  destruct (negb (disable_batch_norm self) && (1 <? nrows x)) eqn:Hbn.
  - assert (has_width (propagated_info_len self) x1 = false) as Hbad.
    { apply not_true_is_false. intros Hok%has_width_true.
      apply andb_true_iff in Hbn as [_ Hn%Nat.ltb_lt].
      pose proof (shape_eq_widths _ _ _ Hshape Hx) as Hx1.
      pose proof (shape_eq_length _ _ Hshape) as Hlen.
      destruct x1 as [|r x1]; [unfold nrows in Hn; simpl in Hlen; lia |].
      apply Forall_cons in Hok as [? _]. apply Forall_cons in Hx1 as [? _].
      congruence. }
    unfold bindM. rewrite (BatchNorm1d_forward_bad _ _ _ _ Hbad). done.
  - assert (index_rows x1 psel = Ok (row_at x1 <$> psel)) as Hidx.
    { apply index_rows_ok. by rewrite (shape_eq_length _ _ Hshape). }
    assert (propagation_loop self (node_info_propagator_stack_depth self)
              psel csels ff x1
              {| rng := if dropout_active (training self) (input_dropout self)
                        then (bernoulli_drop (p (input_dropout self)) (rng s) x).2
                        else rng s;
                 bn_stats := bn_stats s;
                 calls := calls s ++ [CallDataDebugHook h x "ndfo"; CallInputDropout;
                                      CallDataDebugHook h x1 "ndfo"] |}
            = (Raise RuntimeError,
               {| rng := if dropout_active (training self) (input_dropout self)
                         then (bernoulli_drop (p (input_dropout self)) (rng s) x).2
                         else rng s;
                  bn_stats := bn_stats s;
                  calls := calls s ++ [CallDataDebugHook h x "ndfo"; CallInputDropout;
                                       CallDataDebugHook h x1 "ndfo"] |})) as Hloop.
    { destruct (node_info_propagator_stack_depth self) as [|d]; [lia |]. simpl.
      unfold bindM at 1. unfold propagation_round.
      rewrite bindM_lift, Hidx, bindM_lift. unfold Linear_forward.
      by rewrite Hbadrows. }
    rewrite Hloop. split; [done |].
    exists (row_at x1 <$> psel). split; [done |]. split; [| done].
    unfold Linear_forward. by rewrite Hbadrows.
Qed.

(** ** One accumulated row against a factor per node *)

(** X4. When the accumulated children info has a single row and the fanout
    factor has one entry per node, for more than one node, the division
    broadcasts: the round does not raise, and the children-merge cell is
    applied to every node, childless ones included, each with the single
    accumulated row divided by its own factor. *)
Theorem round_broadcast_single_row self psel csels ff (x : tensor) s :
  wf_module self → widths (propagated_info_len self) x →
  length psel = nrows x → Forall (in_range (nrows x)) psel →
  Forall (Forall (in_range (nrows x))) csels →
  Sorted le (length <$> csels) →
  last_len csels = 1 → length ff = nrows x → 1 < nrows x →
  ∃ a0,
    children_info self x csels = Ok [a0]
    ∧ propagation_round self psel csels ff x s
      = Dropout_forward (training self) (dropout self)
          (zip_with (overlayChildrenInfo self) (row_div a0 <$> ff)
             (parent_merged self psel x))
          (logged s [CallOverlayParentInfo (nrows x);
                     CallOverlayChildrenInfo (nrows x); CallDropout]).
Proof.
  intros Hself Hx Hplen Hp Hc Hsorted Hone Hff Hn.
  destruct (children_info_ok self Hself x csels Hx Hc Hsorted)
    as (acc & Hacc & Hlen & Hwacc).
  rewrite Hone in Hlen. destruct acc as [|a0 [|? ?]]; try done.
  exists a0. split; [done |].
  apply Forall_cons in Hwacc as [Ha0 _].
  unfold propagation_round.
  rewrite bindM_lift, index_rows_ok by done.
  rewrite bindM_lift, Linear_forward_ok by (by apply widths_row_at).
  rewrite bindM_lift, Hacc, bindM_record, bindM_lift.
  rewrite GRUCell_forward_ok; [| by rewrite !length_fmap | | done].
  2:{ apply widths_fmap; [apply Hself | by apply widths_row_at]. }
  fold (parent_merged self psel x).
  assert (normalize_children [a0] ff = Ok (row_div a0 <$> ff)) as ->.
  { unfold normalize_children, div_by_column. simpl.
    unfold nrows in *. destruct ff as [|d0 [|d1 ff]]; simpl in *; try lia; done. }
  rewrite bindM_lift. unfold bindM at 1.
  assert (length (parent_merged self psel x) = length x) as Hpm
    by (by apply parent_merged_length).
  rewrite merge_children_run.
  - unfold nrows in *. rewrite length_fmap, Hff.
    rewrite (proj2 (Nat.eqb_neq _ _)) by lia.
    rewrite bindM_record, !logged_logged.
    rewrite take_ge, drop_ge, app_nil_r by lia. done.
  - unfold widths. apply Forall_fmap, Forall_forall. intros d _. simpl.
    unfold row_div. by rewrite length_fmap.
  - by apply parent_merged_widths.
  - unfold nrows in *. rewrite length_fmap. lia.
Qed.

(** ** Rounds without children *)

(** X5. On an accepted batch in which no child-selector array has an entry
    (no node has a child), a round is the parent merge of every row
    followed by output dropout: the children-merge cell is not called and
    the fanout factor is not used. *)
Theorem round_without_children self psel csels ff (x : tensor) s :
  wf_module self → valid_batch self x psel csels ff → last_len csels = 0 →
  propagation_round self psel csels ff x s
  = Dropout_forward (training self) (dropout self) (parent_merged self psel x)
      (logged s [CallOverlayParentInfo (nrows x); CallDropout]).
Proof.
  intros Hself Hvalid Hzero.
  destruct (propagation_round_run self Hself psel csels ff x s Hvalid)
    as (acc & _ & Hlen & _ & ->).
  rewrite Hzero in Hlen. destruct acc; [| done].
  unfold children_merged. simpl. by rewrite drop_0.
Qed.

(** ** Rounds compose *)

Lemma bindM_ext {A B} (m : M A) (k1 k2 : A → M B) s :
  (∀ a s', k1 a s' = k2 a s') → bindM m k1 s = bindM m k2 s.
Proof. intros H. unfold bindM. destruct (m s) as [[a|e] s']; [apply H | done]. Qed.

Lemma bindM_cong_l {A B} (m1 m2 : M A) (k : A → M B) s :
  m1 s = m2 s → bindM m1 k s = bindM m2 k s.
Proof. intros H. unfold bindM. by rewrite H. Qed.

Lemma propagation_loop_add self a b psel csels ff : ∀ (x : tensor) s,
  propagation_loop self (a + b) psel csels ff x s
  = bindM (propagation_loop self a psel csels ff x)
      (propagation_loop self b psel csels ff) s.
Proof.
  induction a as [|a IH]; intros x s; simpl; [done |].
  rewrite bindM_assoc. apply bindM_ext. intros y s1. apply IH.
Qed.

Lemma forward_set_depth self depth (x : tensor) psel csels ff hook s :
  forward (set_depth self depth) x psel csels ff hook s
  = bindM (forward (set_depth self 0) x psel csels ff hook)
      (propagation_loop self depth psel csels ff) s.
Proof.
  unfold forward. simpl.
  repeat (rewrite bindM_assoc; apply bindM_ext; intros ? ?).
  by rewrite bindM_ret.
Qed.

(** X6. Rounds compose: [forward] with stack depth [a + b] is [forward]
    with stack depth [a] followed by [b] further rounds on its result, with
    the same selectors and fanout factor, and fails where either part
    fails. *)
Theorem forward_depth_add self a b (x : tensor) psel csels ff hook s :
  forward (set_depth self (a + b)) x psel csels ff hook s
  = bindM (forward (set_depth self a) x psel csels ff hook)
      (propagation_loop self b psel csels ff) s.
Proof.
  rewrite (forward_set_depth self (a + b)).
  rewrite (bindM_cong_l _ _ _ _ (forward_set_depth self a x psel csels ff hook s)).
  rewrite bindM_assoc. apply bindM_ext. intros y s1.
  apply propagation_loop_add.
Qed.

(** ** The calls of a successful call *)

Lemma round_result_iter self psel csels ff depth (x : tensor) :
  Nat.iter depth (round_result self psel csels ff) (round_result self psel csels ff x)
  = Nat.iter (S depth) (round_result self psel csels ff) x.
Proof. induction depth as [|depth IH]; simpl; [done | by rewrite IH]. Qed.

Lemma propagation_loop_calls `{!SubstrateOk Sub} self depth psel csels ff :
  wf_module self → ∀ (x : tensor) s,
  valid_batch self x psel csels ff →
  ∃ y s', propagation_loop self depth psel csels ff x s = (Ok y, s')
    ∧ (dropout_active (training self) (dropout self) = false →
       y = Nat.iter depth (round_result self psel csels ff) x)
    ∧ calls s'
      = calls s ++ concat (replicate depth (round_calls (nrows x) (last_len csels))).
Proof.
  intros Hself. induction depth as [|depth IH]; intros x s Hvalid.
  - exists x, s. simpl. by rewrite app_nil_r.
  - cbn [propagation_loop].
    destruct (propagation_round_run self Hself psel csels ff x s Hvalid)
      as (acc & Hacc & Hlen & Hwacc & Hrun).
    edestruct (Dropout_forward_total (training self) (dropout self)
                 (children_merged self psel ff x acc))
      as (y & s1 & Hdrop & Hshape & Hcalls & Hid).
    rewrite Hdrop in Hrun. rewrite (bindM_run _ _ _ _ _ Hrun).
    assert (nrows y = nrows x) as Hn.
    { unfold nrows. rewrite (shape_eq_length _ _ Hshape).
      destruct Hvalid. apply children_merged_length; rewrite ?Hlen; done. }
    destruct (IH y s1) as (z & s' & -> & Hval & Hcalls').
    { eapply valid_batch_transport; [done.. |].
      eapply shape_eq_widths; [done |].
      destruct Hvalid. by apply children_merged_widths. }
    exists z, s'. split; [done |]. split.
    + intros Hout. rewrite (Hval Hout), (Hid Hout).
      assert (round_result self psel csels ff x = children_merged self psel ff x acc)
        as <- by (unfold round_result; by rewrite Hacc).
      apply round_result_iter.
    + rewrite Hcalls', Hcalls, Hn, Hlen. unfold logged. cbn [calls]. simpl.
      by rewrite <- app_assoc.
Qed.

(** X7. On an accepted batch with a callable hook [forward] returns.  The
    rounds start from the input after input dropout and, when it applies,
    normalisation; with output dropout inactive the result is the closed
    form of a round iterated once per unit of stack depth on that tensor.
    The calls the log records (the hook, the dropout layers, the
    normalisation and the merge cells; the linear layers are not recorded)
    are, in this order: the hook on the input, input dropout, batch
    normalisation when it applies, the hook on the normalised tensor, and
    then, once per unit of stack depth, the parent-merge cell on all rows,
    the children-merge cell on the rows that have children (when there are
    any) and output dropout. *)
Theorem forward_call_trace `{!SubstrateOk Sub} self (x : tensor) psel csels ff h s :
  wf_module self → valid_batch self x psel csels ff →
  let drop := dropout_active (training self) (input_dropout self) in
  let norm := negb (disable_batch_norm self) && (1 <? nrows x) in
  let x1 := if drop then (bernoulli_drop (p (input_dropout self)) (rng s) x).1
            else x in
  let x2 := if norm then (batch_norm_kernel (training self) (bn_stats s) x1).1
            else x1 in
  ∃ y s',
    forward self x psel csels ff (Some h) s = (Ok y, s')
    ∧ shape_eq x x2
    ∧ (dropout_active (training self) (dropout self) = false →
       y = Nat.iter (node_info_propagator_stack_depth self)
             (round_result self psel csels ff) x2)
    ∧ calls s'
      = calls s
        ++ [CallDataDebugHook h x "ndfo"; CallInputDropout]
        ++ (if norm then [CallBatchNorm] else [])
        ++ [CallDataDebugHook h x2 "ndfo"]
        ++ concat (replicate (node_info_propagator_stack_depth self)
                     (round_calls (nrows x) (last_len csels))).
Proof.
  intros Hself Hvalid. cbv zeta.
  pose proof (Dropout_forward_shape (training self) (input_dropout self) x (rng s))
    as Hshape.
  rewrite forward_to_norm. cbv zeta.
  set (x1 := if dropout_active (training self) (input_dropout self)
             then (bernoulli_drop (p (input_dropout self)) (rng s) x).1 else x) in *.
  set (g1 := if dropout_active (training self) (input_dropout self)
             then (bernoulli_drop (p (input_dropout self)) (rng s) x).2 else rng s).
  destruct (negb (disable_batch_norm self) && (1 <? nrows x)).
  - assert (has_width (propagated_info_len self) x1 = true) as Hw.
    { rewrite (shape_eq_has_width _ _ _ Hshape). apply has_width_of, Hvalid. }
    rewrite (bindM_run _ _ _ _ _ (BatchNorm1d_forward_eq _ _ _ _ Hw)).
    simpl call_hook. rewrite bindM_record. unfold logged. cbn [rng bn_stats calls].
    set (x2 := (batch_norm_kernel (training self) (bn_stats s) x1).1).
    assert (shape_eq x x2) as Hshape2.
    { eapply shape_eq_trans; [exact Hshape | apply batch_norm_kernel_shape]. }
    edestruct (propagation_loop_calls self (node_info_propagator_stack_depth self)
                 psel csels ff Hself x2) as (y & s' & -> & Hval & Hcalls).
    { by eapply valid_batch_shape_eq. }
    exists y, s'. split; [done |]. split; [done |]. split; [done |].
    rewrite Hcalls. cbn [calls]. unfold nrows.
    rewrite (shape_eq_length _ _ Hshape2). by rewrite <- !app_assoc.
  - edestruct (propagation_loop_calls self (node_info_propagator_stack_depth self)
                 psel csels ff Hself x1) as (y & s' & -> & Hval & Hcalls).
    { by eapply valid_batch_shape_eq. }
    exists y, s'. split; [done |]. split; [done |]. split; [done |].
    rewrite Hcalls. cbn [calls]. unfold nrows.
    rewrite (shape_eq_length _ _ Hshape). by rewrite <- !app_assoc.
Qed.

(** ** What a call leaves alone *)

(** X8. With both dropouts inactive, [forward] never advances the random
    generator: whatever the input, with normalisation on or off, and
    whether the call returns or raises, the generator is as before. *)
Theorem forward_keeps_rng self (x : tensor) psel csels ff hook s :
  dropout_active (training self) (input_dropout self) = false →
  dropout_active (training self) (dropout self) = false →
  rng (forward self x psel csels ff hook s).2 = rng s.
Proof.
  intros Hin Hout. revert s. change (keeps rng (forward self x psel csels ff hook)).
  assert (∀ s cs, rng (logged s cs) = rng s) as Hlog by done.
  unfold forward.
  apply keeps_bind; [by apply keeps_call_hook | intros _].
  apply keeps_bind; [by apply keeps_record | intros _].
  apply keeps_bind; [by apply keeps_rng_Dropout_inactive | intros x1].
  apply keeps_bind.
  { destruct (_ && _); [| by apply keeps_ret].
    apply keeps_bind; [by apply keeps_record | intros _].
    apply keeps_rng_BatchNorm1d. }
  intros x2. apply keeps_bind; [by apply keeps_call_hook | intros _].
  apply keeps_propagation_loop; [done |]. intros y.
  by apply keeps_rng_Dropout_inactive.
Qed.

(** X9. When normalisation is disabled or the input has at most one row,
    [forward] never touches the running statistics of the normalisation:
    whatever the dropouts and the number of rounds, and whether the call
    returns or raises, they are as before. *)
Theorem forward_keeps_bn_stats `{!SubstrateOk Sub} self (x : tensor)
    psel csels ff hook s :
  disable_batch_norm self = true ∨ nrows x ≤ 1 →
  bn_stats (forward self x psel csels ff hook s).2 = bn_stats s.
Proof.
  intros Hskip.
  assert (∀ s cs, bn_stats (logged s cs) = bn_stats s) as Hlog by done.
  destruct hook as [h|]; [| done].
  unfold forward. simpl call_hook at 1. rewrite !bindM_record.
  edestruct (Dropout_forward_run (training self) (input_dropout self) x)
    as (x1 & g & Hdrop & Hshape1).
  rewrite (bindM_run _ _ _ _ _ Hdrop).
  replace (negb (disable_batch_norm self) && (1 <? nrows x1)) with false.
  2:{ symmetry. destruct Hskip as [-> | Hle]; [done |].
      rewrite andb_false_iff. right. apply Nat.ltb_ge.
      unfold nrows in *. by rewrite (shape_eq_length _ _ Hshape1). }
  rewrite bindM_ret.
  match goal with |- bn_stats (bindM ?m ?k ?s2).2 = _ =>
    transitivity (bn_stats s2); [| done];
    apply (keeps_bind bn_stats m k)
  end.
  - by apply keeps_call_hook.
  - intros _. apply keeps_propagation_loop; [done |]. intros y.
    apply keeps_bn_stats_Dropout.
Qed.

End ForwardExtras.

Section ConcreteForwardExtras.
Import Concrete.
#[local] Existing Instance ZSub_ok.

Lemma x4_widths : widths 1 x4.
Proof. by repeat constructor. Qed.

Lemma x2_widths : widths 1 x2.
Proof. by repeat constructor. Qed.

Lemma children4_in_range sels :
  sels = children4 ∨ sels = children4_longest_first →
  Forall (Forall (in_range (nrows x4))) sels.
Proof.
  intros [-> | ->]; unfold in_range; repeat constructor; simpl; lia.
Qed.

Lemma children_info_sorted_iff_witness :
  wf_module (hp 1 true)
  ∧ widths 1 x4
  ∧ Forall (Forall (in_range (nrows x4))) children4_longest_first
  ∧ (Sorted le (length <$> children4_longest_first) →
     ∃ acc, children_info (hp 1 true) x4 children4_longest_first = Ok acc
            ∧ nrows acc = last_len children4_longest_first)
  ∧ (¬ Sorted le (length <$> children4_longest_first) →
     children_info (hp 1 true) x4 children4_longest_first = Raise AssertionError).
Proof.
  split; [apply hp_wf |]. split; [apply x4_widths |].
  split; [apply children4_in_range; by right |].
  apply (children_info_sorted_iff (hp 1 true) x4 children4_longest_first);
    [apply hp_wf | apply x4_widths | apply children4_in_range; by right].
Defined.

Lemma forward_parent_length_fault_witness :
  wf_module (hp 1 true)
  ∧ 0 < node_info_propagator_stack_depth (hp 1 true)
  ∧ length [0%Z] ≠ nrows x2
  ∧ (forward (hp 1 true) x2 [0%Z] children2 fanouts2 (Some ()) s0).1
    = Raise RuntimeError.
Proof.
  split; [apply hp_wf |]. split; [simpl; lia |]. split; [simpl; lia |].
  apply (forward_parent_length_fault (hp 1 true) x2 [0%Z] children2 fanouts2 () s0).
  - apply hp_wf.
  - simpl; lia.
  - apply x2_widths.
  - simpl; lia.
  - unfold in_range. repeat constructor; simpl; lia.
  - unfold in_range. repeat constructor; simpl; lia.
  - simpl. repeat constructor.
Defined.

Lemma forward_width_fault_witness :
  0 < node_info_propagator_stack_depth (hp 1 true)
  ∧ widths 2 [[1; 2]; [3; 4]]%Z
  ∧ 2 ≠ propagated_info_len (hp 1 true)
  ∧ ((forward (hp 1 true) [[1; 2]; [3; 4]]%Z parent2 children2 fanouts2 (Some ()) s0).1
     = Raise RuntimeError
     ∧ ∃ gathered,
         index_rows [[1; 2]; [3; 4]]%Z parent2 = Ok gathered
         ∧ Linear_forward 1 (transformParentInfo (hp 1 true)) gathered
           = Raise RuntimeError
         ∧ forward (hp 1 true) [[1; 2]; [3; 4]]%Z parent2 children2 fanouts2
             (Some ()) s0
           = (Raise RuntimeError,
              {| rng := 0; bn_stats := 0;
                 calls := [CallDataDebugHook () [[1; 2]; [3; 4]]%Z "ndfo";
                           CallInputDropout;
                           CallDataDebugHook () [[1; 2]; [3; 4]]%Z "ndfo"] |}))
  ∧ ((forward (hp 1 false) [[1; 2]; [3; 4]]%Z parent2 children2 fanouts2 (Some ()) s0).1
     = Raise RuntimeError
     ∧ forward (hp 1 false) [[1; 2]; [3; 4]]%Z parent2 children2 fanouts2
         (Some ()) s0
       = (Raise RuntimeError,
          {| rng := 0; bn_stats := 1;
             calls := [CallDataDebugHook () [[1; 2]; [3; 4]]%Z "ndfo";
                       CallInputDropout; CallBatchNorm] |})).
Proof.
  assert (widths 2 [[1; 2]; [3; 4]]%Z) as Hw by (by repeat constructor).
  assert (Forall (in_range (nrows [[1; 2]; [3; 4]]%Z)) parent2) as Hp.
  { unfold in_range. repeat constructor; simpl; lia. }
  split; [simpl; lia |]. split; [done |]. split; [simpl; lia |]. split.
  - pose proof (forward_width_fault (hp 1 true) [[1; 2]; [3; 4]]%Z 2 parent2
                  children2 fanouts2 () s0) as Hthm.
    cbv zeta in Hthm.
    apply Hthm; [simpl; lia | done | simpl; lia | done | done].
  - pose proof (forward_width_fault (hp 1 false) [[1; 2]; [3; 4]]%Z 2 parent2
                  children2 fanouts2 () s0) as Hthm.
    cbv zeta in Hthm.
    destruct Hthm as (Hraise & _ & Hrun);
      [simpl; lia | done | simpl; lia | done | done |].
    split; [exact Hraise | exact Hrun].
Defined.

Lemma round_broadcast_single_row_witness :
  wf_module (hp 1 true)
  ∧ last_len children2 = 1
  ∧ length fanouts2_per_node = nrows x2
  ∧ 1 < nrows x2
  ∧ ∃ a0,
      children_info (hp 1 true) x2 children2 = Ok [a0]
      ∧ propagation_round (hp 1 true) parent2 children2 fanouts2_per_node x2 s0
        = Dropout_forward true {| p := 0 |}
            (zip_with (overlayChildrenInfo (hp 1 true)) (row_div a0 <$> fanouts2_per_node)
               (parent_merged (hp 1 true) parent2 x2))
            (logged s0 [CallOverlayParentInfo (nrows x2);
                        CallOverlayChildrenInfo (nrows x2); CallDropout]).
Proof.
  split; [apply hp_wf |]. split; [reflexivity |]. split; [reflexivity |].
  split; [simpl; lia |].
  apply (round_broadcast_single_row (hp 1 true) parent2 children2
           fanouts2_per_node x2 s0); try reflexivity.
  - apply hp_wf.
  - apply x2_widths.
  - unfold in_range. repeat constructor; simpl; lia.
  - unfold in_range. repeat constructor; simpl; lia.
  - simpl. repeat constructor.
  - simpl; lia.
Defined.

Lemma leaves_valid : valid_batch (hp 1 true) x2 [0; 1]%Z [] [].
Proof.
  split; simpl; unfold widths, in_range, last_len; simpl;
    repeat (constructor; simpl); lia.
Qed.

Lemma round_without_children_witness :
  wf_module (hp 1 true)
  ∧ valid_batch (hp 1 true) x2 [0; 1]%Z [] []
  ∧ last_len [] = 0
  ∧ propagation_round (hp 1 true) [0; 1]%Z [] [] x2 s0
    = Dropout_forward true {| p := 0 |} (parent_merged (hp 1 true) [0; 1]%Z x2)
        (logged s0 [CallOverlayParentInfo (nrows x2); CallDropout]).
Proof.
  split; [apply hp_wf |]. split; [apply leaves_valid |]. split; [reflexivity |].
  apply (round_without_children (hp 1 true) [0; 1]%Z [] [] x2 s0);
    [apply hp_wf | apply leaves_valid | reflexivity].
Defined.

Lemma forward_call_trace_witness :
  wf_module (hp 2 false)
  ∧ valid_batch (hp 2 false) x4 parent4 children4 fanouts4
  ∧ ∃ y s',
      forward (hp 2 false) x4 parent4 children4 fanouts4 (Some ()) s0 = (Ok y, s')
      ∧ shape_eq x4 (center x4)
      ∧ y = Nat.iter 2 (round_result (hp 2 false) parent4 children4 fanouts4)
              (center x4)
      ∧ calls s'
        = calls s0
          ++ [CallDataDebugHook () x4 "ndfo"; CallInputDropout]
          ++ [CallBatchNorm]
          ++ [CallDataDebugHook () (center x4) "ndfo"]
          ++ concat (replicate 2 (round_calls 4 2)).
Proof.
  split; [apply hp_wf |]. split; [apply example4_valid |].
  pose proof (forward_call_trace (hp 2 false) x4 parent4 children4 fanouts4 () s0
                (hp_wf 2 false) (example4_valid 2 false)) as Hthm.
  cbv zeta in Hthm. destruct Hthm as (y & s' & Hrun & Hshape & Hval & Hcalls).
  exists y, s'. split; [exact Hrun |]. split; [exact Hshape |].
  split; [by apply Hval | exact Hcalls].
Defined.

Lemma forward_keeps_rng_witness :
  dropout_active (training (hp 2 false)) (input_dropout (hp 2 false)) = false
  ∧ dropout_active (training (hp 2 false)) (dropout (hp 2 false)) = false
  ∧ rng (forward (hp 2 false) x4 parent4 children4 fanouts4 (Some ()) s0).2 = rng s0.
Proof.
  split; [reflexivity |]. split; [reflexivity |].
  apply (forward_keeps_rng (hp 2 false) x4 parent4 children4 fanouts4 (Some ()) s0);
    reflexivity.
Defined.

Lemma forward_keeps_bn_stats_witness :
  (disable_batch_norm (hp 2 true) = true ∨ nrows x4 ≤ 1)
  ∧ bn_stats (forward (hp 2 true) x4 parent4 children4 fanouts4 (Some ()) s0).2
    = bn_stats s0.
Proof.
  split; [by left |].
  apply (forward_keeps_bn_stats (hp 2 true) x4 parent4 children4 fanouts4 (Some ()) s0).
  by left.
Defined.

End ConcreteForwardExtras.

(** * Properties of the toy1 domain *)

Module Toy1Facts.
Import Toy1.

Section Facts.
Context `{R : RandomSource}.

(** ** Trees and their elements *)

Lemma Tree_ind' (P : Tree → Prop) :
  (∀ i kids, Forall P kids → P (Node i kids)) → ∀ t, P t.
Proof.
  intros HP. fix IH 1. intros [i kids]. apply HP.
  induction kids as [|k kids IHkids]; constructor; [apply IH | exact IHkids].
Qed.

Lemma all3_snoc {A B C} (P : A → B → C → Prop) xs ys zs x y z :
  all3 P xs ys zs → P x y z → all3 P (xs ++ [x]) (ys ++ [y]) (zs ++ [z]).
Proof.
  revert ys zs. induction xs as [|x' xs IH]; intros [|y' ys] [|z' zs]; simpl; try done.
  intros [? ?] ?. split; [done | by apply IH].
Qed.

Lemma all3_frame (es es' : gmap loc Element) kids : ∀ cls Ls,
  Forall (λ k, ∀ l L, shape es k l L →
               (∀ l', l' ∈ L → es' !! l' = es !! l') → shape es' k l L) kids →
  all3 (shape es) kids cls Ls →
  (∀ l', l' ∈ concat Ls → es' !! l' = es !! l') →
  all3 (shape es') kids cls Ls.
Proof.
  induction kids as [|k kids IH]; intros [|c cls] [|Lc Ls] Hkids; simpl; try done.
  apply Forall_cons in Hkids as [Hk Hkids].
  intros [Hshape Hall] Hsame. split.
  - apply Hk; [done |]. intros l' Hl'. apply Hsame. set_solver.
  - apply IH; [done | done |]. intros l' Hl'. apply Hsame. set_solver.
Qed.

(** A document only depends on its own elements. *)
Lemma shape_frame (es es' : gmap loc Element) t : ∀ l L,
  shape es t l L → (∀ l', l' ∈ L → es' !! l' = es !! l') → shape es' t l L.
Proof.
  induction t as [i kids IH] using Tree_ind'. intros l L.
  simpl. intros (cls & Ls & Hl & -> & Hall) Hsame.
  exists cls, Ls. split; [| split; [done |]].
  - rewrite Hsame; [done | set_solver].
  - eapply all3_frame; [done | done |].
    intros l' Hl'. apply Hsame. set_solver.
Qed.

Lemma all3_shape_frame (es es' : gmap loc Element) kids cls Ls :
  all3 (shape es) kids cls Ls →
  (∀ l', l' ∈ concat Ls → es' !! l' = es !! l') →
  all3 (shape es') kids cls Ls.
Proof.
  apply all3_frame. apply Forall_forall. intros k _ l L. apply shape_frame.
Qed.

(** ** Running the store computations *)

Lemma bind_run {A B} (m : H A) (k : A → H B) s a s' :
  m s = Some (Return a, s') → bind m k s = k a s'.
Proof. intros Hm. unfold bind. by rewrite Hm. Qed.

Lemma remove_first_head (x : loc) l : remove_first x (x :: l) = Some l.
Proof. simpl. by rewrite decide_True. Qed.

Lemma transformSample_run s xmlTree root child o oc rest :
  roots s !! xmlTree = Some root →
  elements s !! root = Some o → children o = child :: rest →
  <[root := {| info := info o; children := rest |}]> (elements s) !! child = Some oc →
  transformSample xmlTree s
  = Some (Return (fresh (dom (<[xmlTree := child]> (roots s)))),
          transformed s xmlTree root child o oc rest).
Proof.
  intros Hxt Hroot Hkids Hchild. unfold transformSample.
  rewrite (bind_run _ _ s root s); [| unfold ElementTree_getroot; by rewrite Hxt].
  rewrite (bind_run _ _ s child s).
  2:{ unfold Element_getitem. by rewrite Hroot, Hkids. }
  erewrite bind_run.
  2:{ unfold Element_remove. by rewrite Hroot, Hkids, remove_first_head. }
  erewrite bind_run.
  2:{ unfold Element_append. simpl. rewrite Hchild.
      by rewrite lookup_insert_eq. }
  erewrite bind_run.
  2:{ unfold ElementTree_setroot. simpl. by rewrite Hxt. }
  unfold ElementTree_new. simpl. by rewrite lookup_insert_eq.
Qed.

(** ** [transformSample] *)

(** X10. On a document (a root element reached from the tree object, no
    element occurring twice) whose root has a first child,
    [transformSample] returns a tree whose document is the rotation of the
    input: the first child is the new root, with its own children followed
    by the old root, which keeps its remaining children.  The document is
    made of the same elements as before. *)
Theorem transformSample_rotates s xmlTree root t t' L :
  roots s !! xmlTree = Some root →
  is_tree (elements s) t root L →
  rotate t = Some t' →
  ∃ newTree s' child L',
    transformSample xmlTree s = Some (Return newTree, s')
    ∧ roots s' !! newTree = Some child
    ∧ is_tree (elements s') t' child L'
    ∧ L' ≡ₚ L.
Proof.
  intros Hxt [Hshape Hnodup] Hrot.
  destruct t as [ri [|[ci ckids] kids]]; simplify_eq/=.
  destruct Hshape as (cls & Ls & Hroot & -> & Hall).
  destruct cls as [|child cls], Ls as [|Lc Ls]; try done.
  destruct Hall as [(ccls & Lcs & Hchild & -> & Hckids) Hkids].
  simpl in Hnodup.
  assert (root ≠ child) as Hne.
  { intros ->. apply NoDup_cons in Hnodup as [Hin _]. set_solver. }
  erewrite transformSample_run; [| done | done | done |].
  2:{ by rewrite lookup_insert_ne. }
  eexists _, _, child, (child :: concat (Lcs ++ [root :: concat Ls])).
  split; [done |]. simpl.
  assert (child :: concat (Lcs ++ [root :: concat Ls])
          ≡ₚ root :: (child :: concat Lcs) ++ concat Ls) as Hperm.
  { rewrite concat_app. simpl. rewrite app_nil_r.
    rewrite <- Permutation_middle. apply perm_swap. }
  split; [by rewrite lookup_insert_eq |]. split; [| done].
  split; [| by rewrite Hperm].
  set (es2 := <[child := _]> (<[root := _]> (elements s))).
  assert (∀ l', l' ≠ root → l' ≠ child → es2 !! l' = elements s !! l') as Hsame.
  { intros l' ? ?. unfold es2. by rewrite !lookup_insert_ne. }
  apply NoDup_cons in Hnodup as [Hroot_notin Hnodup].
  apply NoDup_cons in Hnodup as [Hchild_notin Hnodup].
  exists (ccls ++ [root]), (Lcs ++ [root :: concat Ls]).
  split; [unfold es2; by rewrite lookup_insert_eq |]. split; [done |].
  apply all3_snoc.
  - eapply all3_shape_frame; [done |]. intros l' Hl'. apply Hsame; set_solver.
  - exists cls, Ls. split; [| split; [done |]].
    + unfold es2. by rewrite lookup_insert_ne, lookup_insert_eq.
    + eapply all3_shape_frame; [done |]. intros l' Hl'. apply Hsame; set_solver.
Qed.

(** X11. [transformSample] works in place.  When the root of the argument
    tree has a first child, the call returns a tree object that did not
    exist before, and afterwards the argument tree and the returned tree
    have the same root, the former first child: the argument no longer
    stands for the input document.  No element is created or dropped, the
    elements other than the root and its first child are as before, and so
    are the other trees and the random source. *)
Theorem transformSample_in_place s xmlTree root child o oc rest :
  roots s !! xmlTree = Some root →
  elements s !! root = Some o → children o = child :: rest →
  elements s !! child = Some oc →
  ∃ newTree s',
    transformSample xmlTree s = Some (Return newTree, s')
    ∧ roots s !! newTree = None
    ∧ roots s' !! newTree = Some child
    ∧ roots s' !! xmlTree = Some child
    ∧ dom (elements s') = dom (elements s)
    ∧ (∀ l, l ≠ root → l ≠ child → elements s' !! l = elements s !! l)
    ∧ (∀ x, x ≠ xmlTree → x ≠ newTree → roots s' !! x = roots s !! x)
    ∧ gen s' = gen s.
Proof.
  intros Hxt Hroot Hkids Hchild.
  assert (∃ oc', <[root := {| info := info o; children := rest |}]> (elements s)
                 !! child = Some oc') as [oc' Hchild'].
  { destruct (decide (root = child)) as [-> | Hne].
    - rewrite lookup_insert_eq. by eexists.
    - rewrite lookup_insert_ne by done. by eexists. }
  erewrite transformSample_run by done.
  set (newTree := fresh (dom (<[xmlTree := child]> (roots s)))).
  assert (newTree ∉ dom (<[xmlTree := child]> (roots s))) as Hfresh
    by apply is_fresh.
  assert (newTree ≠ xmlTree) as Hnew.
  { intros Heq. apply Hfresh. rewrite Heq. apply elem_of_dom.
    rewrite lookup_insert_eq. by eexists. }
  eexists _, _. split; [done |]. unfold transformed. simpl. fold newTree.
  split; [| split; [| split; [| split; [| split; [| split]]]]].
  - apply not_elem_of_dom. intros Hin. apply Hfresh.
    rewrite dom_insert. set_solver.
  - by rewrite lookup_insert_eq.
  - by rewrite lookup_insert_ne, lookup_insert_eq.
  - rewrite !dom_insert_L.
    assert (root ∈ dom (elements s)) by (apply elem_of_dom; by eexists).
    assert (child ∈ dom (elements s)) by (apply elem_of_dom; by eexists).
    set_solver.
  - intros l ? ?. by rewrite !lookup_insert_ne.
  - intros x ? ?. by rewrite !lookup_insert_ne.
  - done.
Qed.

(** X12. When the root of the argument tree has no child,
    [transformSample] raises [IndexError] and leaves every object as it
    was. *)
Theorem transformSample_childless s xmlTree root o :
  roots s !! xmlTree = Some root →
  elements s !! root = Some o → children o = [] →
  transformSample xmlTree s = Some (Throw IndexError, s).
Proof.
  intros Hxt Hroot Hkids. unfold transformSample.
  rewrite (bind_run _ _ s root s); [| unfold ElementTree_getroot; by rewrite Hxt].
  unfold bind, Element_getitem. by rewrite Hroot, Hkids.
Qed.

(** ** [generateSample] *)

Lemma random_choice_run `{!RandomSourceOk R} {A} (seq : list A) s :
  seq ≠ [] →
  ∃ a g, random_choice seq s
         = Some (Return a, {| elements := elements s; roots := roots s; gen := g |})
         ∧ a ∈ seq.
Proof.
  intros Hne. unfold random_choice. destruct seq as [|a0 seq0]; [done |].
  set (seq := a0 :: seq0).
  pose proof (randbelow_lt (gen s) (length seq) ltac:(simpl; lia)) as Hlt.
  destruct (randbelow (gen s) (length seq)) as [i g]. simpl in Hlt.
  destruct (lookup_lt_is_Some_2 seq i Hlt) as [a Ha]. rewrite Ha.
  exists a, g. split; [done |]. by eapply list_elem_of_lookup_2.
Qed.

(** X13. [generateSample] on a non-empty tag pool returns a new tree
    object over two new elements: a root and its single child, both
    without attributes, text or tail, with tags drawn from the pool.
    Every object that existed before is as it was.  On an empty pool it
    raises [IndexError] and creates nothing. *)
Theorem generateSample_two_nodes `{!RandomSourceOk R} tagPool s :
  (tagPool = [] → generateSample tagPool s = Some (Throw IndexError, s))
  ∧ (tagPool ≠ [] →
     ∃ tree s' root sub tag1 tag2,
       generateSample tagPool s = Some (Return tree, s')
       ∧ tag1 ∈ tagPool ∧ tag2 ∈ tagPool
       ∧ roots s !! tree = None
       ∧ roots s' !! tree = Some root
       ∧ elements s !! root = None ∧ elements s !! sub = None
       ∧ is_tree (elements s') (Node (new_info tag1) [Node (new_info tag2) []])
           root [root; sub]
       ∧ (∀ l, l ≠ root → l ≠ sub → elements s' !! l = elements s !! l)
       ∧ (∀ x, x ≠ tree → roots s' !! x = roots s !! x)).
Proof.
  split; [by intros -> |]. intros Hne. unfold generateSample.
  destruct (random_choice_run tagPool s Hne) as (tag1 & g1 & Hc1 & Hin1).
  rewrite (bind_run _ _ _ _ _ Hc1).
  set (root := fresh (dom (elements s))).
  set (es1 := <[root := {| info := new_info tag1; children := [] |}]> (elements s)).
  rewrite (bind_run (Element_new tag1) _
             {| elements := elements s; roots := roots s; gen := g1 |} root
             {| elements := es1; roots := roots s; gen := g1 |} eq_refl).
  destruct (random_choice_run tagPool
              {| elements := es1; roots := roots s; gen := g1 |} Hne)
    as (tag2 & g2 & Hc2 & Hin2).
  rewrite (bind_run _ _ _ _ _ Hc2). simpl.
  set (sub := fresh (dom es1)).
  rewrite (bind_run (Element_new tag2) _
             {| elements := es1; roots := roots s; gen := g2 |} sub
             {| elements := <[sub := {| info := new_info tag2; children := [] |}]> es1;
                roots := roots s; gen := g2 |} eq_refl).
  assert (root ∉ dom (elements s)) as Hroot by apply is_fresh.
  assert (sub ∉ dom es1) as Hsub by apply is_fresh.
  assert (sub ≠ root) as Hneq.
  { intros Heq. apply Hsub. rewrite Heq. unfold es1. rewrite dom_insert. set_solver. }
  set (es2 := <[sub := {| info := new_info tag2; children := [] |}]> es1).
  assert (es2 !! root = Some {| info := new_info tag1; children := [] |}) as Hl1.
  { unfold es2, es1. by rewrite lookup_insert_ne, lookup_insert_eq. }
  assert (es2 !! sub = Some {| info := new_info tag2; children := [] |}) as Hl2.
  { unfold es2. by rewrite lookup_insert_eq. }
  erewrite bind_run.
  2:{ unfold Element_append. simpl. by rewrite Hl1, Hl2. }
  unfold ElementTree_new. simpl.
  rewrite lookup_insert_eq.
  set (tree := fresh (dom (roots s))).
  assert (tree ∉ dom (roots s)) as Htree by apply is_fresh.
  exists tree. eexists. exists root, sub, tag1, tag2.
  split; [done |]. split; [done |]. split; [done |]. simpl.
  split; [by apply not_elem_of_dom |].
  split; [by rewrite lookup_insert_eq |].
  split; [by apply not_elem_of_dom |].
  split.
  { apply not_elem_of_dom. intros Hin. apply Hsub. unfold es1.
    rewrite dom_insert. set_solver. }
  split; [| split].
  - split.
    + exists [sub], [[sub]]. split; [by rewrite lookup_insert_eq |].
      split; [done |]. simpl. split; [| done].
      exists [], []. split; [| done].
      by rewrite lookup_insert_ne.
    + apply NoDup_cons. split; [set_solver |]. apply NoDup_singleton.
  - intros l ? ?. unfold es2, es1. by rewrite !lookup_insert_ne.
  - intros x ?. by rewrite lookup_insert_ne.
Qed.

(** ** Round trip and composition *)

(** X14. On a document of two elements, a root and its only child,
    a second [transformSample], on the tree the first one returned, undoes
    the first: every element is again as before the first call, and the
    tree the second call returns stands for the input document again.
    The argument tree of the first call is left on the former child, which
    has no children any more. *)
Theorem transformSample_twice s xmlTree root sub a b :
  roots s !! xmlTree = Some root →
  is_tree (elements s) (Node a [Node b []]) root [root; sub] →
  ∃ tree1 s1 tree2 s2,
    transformSample xmlTree s = Some (Return tree1, s1)
    ∧ transformSample tree1 s1 = Some (Return tree2, s2)
    ∧ elements s2 = elements s
    ∧ roots s2 !! tree2 = Some root
    ∧ roots s2 !! tree1 = Some root
    ∧ roots s2 !! xmlTree = Some sub.
Proof.
  intros Hxt [Hshape Hnodup].
  destruct Hshape as (cls & Ls & Hroot & HL & Hall).
  destruct cls as [|c [|? ?]], Ls as [|Lc [|? ?]]; try done;
    try (by destruct Hall as [_ []]).
  destruct Hall as [(ccls & Lcs & Hsub & -> & Hnil) _].
  destruct ccls, Lcs; try done. simpl in HL. injection HL as Hc. subst c.
  assert (root ≠ sub) as Hne.
  { intros ->. apply NoDup_cons in Hnodup as [Hin _]. set_solver. }
  set (o := {| info := a; children := [sub] |}) in *.
  set (oc := {| info := b; children := [] |}) in *.
  pose proof (transformSample_run s xmlTree root sub o oc [] Hxt Hroot eq_refl)
    as Hrun1.
  rewrite lookup_insert_ne in Hrun1 by done. specialize (Hrun1 Hsub).
  set (tree1 := fresh (dom (<[xmlTree := sub]> (roots s)))) in *.
  set (s1 := transformed s xmlTree root sub o oc []) in *.
  assert (tree1 ≠ xmlTree) as Hnew1.
  { intros Heq. apply (is_fresh (dom (<[xmlTree := sub]> (roots s)))).
    fold tree1. rewrite Heq. apply elem_of_dom. rewrite lookup_insert_eq. by eexists. }
  set (oc1 := {| info := b; children := [root] |}).
  set (o1 := {| info := a; children := [] |}).
  pose proof (transformSample_run s1 tree1 sub root oc1 o1 []) as Hrun2.
  simpl in Hrun2. fold tree1 in Hrun2.
  rewrite lookup_insert_eq in Hrun2. specialize (Hrun2 eq_refl).
  rewrite lookup_insert_eq in Hrun2. specialize (Hrun2 eq_refl eq_refl).
  rewrite lookup_insert_ne, lookup_insert_ne, lookup_insert_eq in Hrun2 by done.
  specialize (Hrun2 eq_refl).
  eexists _, _, _, _. split; [exact Hrun1 |]. split; [exact Hrun2 |].
  simpl. fold tree1.
  set (tree2 := fresh _).
  assert (tree2 ≠ tree1) as Hnew2.
  { intros Heq. unfold tree2 in Heq.
    match type of Heq with fresh ?X = _ => apply (is_fresh X) end.
    rewrite Heq. apply elem_of_dom. rewrite lookup_insert_eq. by eexists. }
  assert (tree2 ≠ xmlTree) as Hnew3.
  { intros Heq. unfold tree2 in Heq.
    match type of Heq with fresh ?X = _ => apply (is_fresh X) end.
    rewrite Heq. apply elem_of_dom.
    rewrite lookup_insert_ne, lookup_insert_ne, lookup_insert_eq by done. by eexists. }
  split; [| split; [| split]].
  - apply map_eq. intros l.
    destruct (decide (l = root)) as [-> | Hl1].
    { by rewrite lookup_insert_eq, Hroot. }
    rewrite lookup_insert_ne by done.
    destruct (decide (l = sub)) as [-> | Hl2].
    { by rewrite lookup_insert_eq, Hsub. }
    by rewrite !lookup_insert_ne.
  - by rewrite lookup_insert_eq.
  - by rewrite lookup_insert_ne, lookup_insert_eq.
  - by rewrite lookup_insert_ne, lookup_insert_ne, lookup_insert_ne, lookup_insert_eq.
Qed.

(** What [generateSample] returns on a non-empty pool, with the two tags as
    the generator draws them. *)
Lemma generateSample_run `{!RandomSourceOk R} tagPool s :
  tagPool ≠ [] →
  ∃ tag1 tag2,
    tagPool !! (randbelow (gen s) (length tagPool)).1 = Some tag1
    ∧ tagPool !! (randbelow (randbelow (gen s) (length tagPool)).2
                    (length tagPool)).1 = Some tag2
    ∧ let root := fresh (dom (elements s)) in
      let es1 := <[root := {| info := new_info tag1; children := [] |}]> (elements s) in
      let sub := fresh (dom es1) in
      let es2 := <[sub := {| info := new_info tag2; children := [] |}]> es1 in
      generateSample tagPool s
      = Some (Return (fresh (dom (roots s))),
              {| elements := <[root := {| info := new_info tag1; children := [sub] |}]> es2;
                 roots := <[fresh (dom (roots s)) := root]> (roots s);
                 gen := (randbelow (randbelow (gen s) (length tagPool)).2
                           (length tagPool)).2 |}).
Proof.
  intros Hne.
  assert (0 < length tagPool) as Hlen by (destruct tagPool; [done | simpl; lia]).
  assert (∀ s0, ∃ a, tagPool !! (randbelow (gen s0) (length tagPool)).1 = Some a
            ∧ random_choice tagPool s0
              = Some (Return a,
                      {| elements := elements s0; roots := roots s0;
                         gen := (randbelow (gen s0) (length tagPool)).2 |}))
    as Hchoice.
  { intros s0. pose proof (randbelow_lt (gen s0) (length tagPool) Hlen) as Hlt.
    destruct (lookup_lt_is_Some_2 tagPool _ Hlt) as [a Ha].
    exists a. split; [done |]. unfold random_choice.
    destruct tagPool as [|a0 pool]; [done |].
    destruct (randbelow (gen s0) (length (a0 :: pool))) as [i g]. simpl in Ha.
    by rewrite Ha. }
  destruct (Hchoice s) as (tag1 & Ht1 & Hc1).
  set (g1 := (randbelow (gen s) (length tagPool)).2) in *.
  set (root := fresh (dom (elements s))).
  set (es1 := <[root := {| info := new_info tag1; children := [] |}]> (elements s)).
  destruct (Hchoice {| elements := es1; roots := roots s; gen := g1 |})
    as (tag2 & Ht2 & Hc2).
  cbn [gen elements roots] in Ht2, Hc2.
  exists tag1, tag2. split; [done |]. split; [done |]. cbv zeta.
  fold root. fold es1.
  set (sub := fresh (dom es1)).
  set (es2 := <[sub := {| info := new_info tag2; children := [] |}]> es1).
  unfold generateSample.
  rewrite (bind_run _ _ _ _ _ Hc1).
  rewrite (bind_run (Element_new tag1) _
             {| elements := elements s; roots := roots s; gen := g1 |} root
             {| elements := es1; roots := roots s; gen := g1 |} eq_refl).
  rewrite (bind_run _ _ _ _ _ Hc2).
  rewrite (bind_run (Element_new tag2) _
             {| elements := es1; roots := roots s;
                gen := (randbelow g1 (length tagPool)).2 |} sub
             {| elements := es2; roots := roots s;
                gen := (randbelow g1 (length tagPool)).2 |} eq_refl).
  assert (sub ∉ dom es1) as Hsub by apply is_fresh.
  assert (sub ≠ root) as Hneq.
  { intros Heq. apply Hsub. rewrite Heq. unfold es1. rewrite dom_insert. set_solver. }
  assert (es2 !! root = Some {| info := new_info tag1; children := [] |}) as Hl1.
  { unfold es2, es1. by rewrite lookup_insert_ne, lookup_insert_eq. }
  assert (es2 !! sub = Some {| info := new_info tag2; children := [] |}) as Hl2.
  { unfold es2. by rewrite lookup_insert_eq. }
  erewrite bind_run.
  2:{ unfold Element_append. cbn [elements]. by rewrite Hl1, Hl2. }
  unfold ElementTree_new, set_elements, set_roots. cbn [elements roots gen info children].
  by rewrite lookup_insert_eq.
Qed.

(** X15. Generation and transformation compose: on a non-empty tag pool,
    [transformSample] applied to the tree [generateSample] returns never
    raises.  With [tag1] the first tag the generator draws and [tag2] the
    second, [generateSample] builds the document of a root tagged [tag1]
    with one child tagged [tag2], and the composition returns a tree on
    that child, now the root, with the former root as its only child: the
    document of the two tags in the opposite order.  The tree
    [generateSample] made is re-rooted at the child as well, and the
    generator has been drawn from exactly twice. *)
Theorem generate_then_transform `{!RandomSourceOk R} tagPool s :
  tagPool ≠ [] →
  ∃ tag1 tag2 tree s1 root sub newTree s',
    tagPool !! (randbelow (gen s) (length tagPool)).1 = Some tag1
    ∧ tagPool !! (randbelow (randbelow (gen s) (length tagPool)).2
                    (length tagPool)).1 = Some tag2
    ∧ generateSample tagPool s = Some (Return tree, s1)
    ∧ roots s1 !! tree = Some root
    ∧ is_tree (elements s1) (Node (new_info tag1) [Node (new_info tag2) []])
        root [root; sub]
    ∧ bind (generateSample tagPool) transformSample s = Some (Return newTree, s')
    ∧ newTree ≠ tree
    ∧ roots s' !! newTree = Some sub
    ∧ roots s' !! tree = Some sub
    ∧ is_tree (elements s') (Node (new_info tag2) [Node (new_info tag1) []])
        sub [sub; root]
    ∧ gen s' = (randbelow (randbelow (gen s) (length tagPool)).2
                  (length tagPool)).2.
Proof.
  intros Hne.
  destruct (generateSample_run tagPool s Hne) as (tag1 & tag2 & Ht1 & Ht2 & Hgen).
  cbv zeta in Hgen.
  set (root := fresh (dom (elements s))) in *.
  set (es1 := <[root := {| info := new_info tag1; children := [] |}]> (elements s)) in *.
  set (sub := fresh (dom es1)) in *.
  set (es2 := <[sub := {| info := new_info tag2; children := [] |}]> es1) in *.
  set (tree := fresh (dom (roots s))) in *.
  set (o := {| info := new_info tag1; children := [sub] |}) in *.
  set (oc := {| info := new_info tag2; children := [] |}) in *.
  set (s1 := {| elements := <[root := o]> es2; roots := <[tree := root]> (roots s);
                gen := (randbelow (randbelow (gen s) (length tagPool)).2
                          (length tagPool)).2 |}) in *.
  assert (sub ∉ dom es1) as Hsub by apply is_fresh.
  assert (sub ≠ root) as Hneq.
  { intros Heq. apply Hsub. rewrite Heq. unfold es1. rewrite dom_insert. set_solver. }
  assert (elements s1 !! root = Some o) as Hroot.
  { unfold s1. cbn [elements]. by rewrite lookup_insert_eq. }
  assert (elements s1 !! sub = Some oc) as Hsubl.
  { unfold s1, es2. cbn [elements]. by rewrite lookup_insert_ne, lookup_insert_eq. }
  assert (roots s1 !! tree = Some root) as Htree.
  { unfold s1. cbn [roots]. by rewrite lookup_insert_eq. }
  pose proof (transformSample_run s1 tree root sub o oc [] Htree Hroot eq_refl)
    as Hrun.
  rewrite lookup_insert_ne in Hrun by done. specialize (Hrun Hsubl).
  set (newTree := fresh (dom (<[tree := sub]> (roots s1)))) in *.
  assert (newTree ≠ tree) as Hnew.
  { intros Heq. apply (is_fresh (dom (<[tree := sub]> (roots s1)))).
    fold newTree. rewrite Heq. apply elem_of_dom. rewrite lookup_insert_eq.
    by eexists. }
  exists tag1, tag2, tree, s1, root, sub, newTree,
    (transformed s1 tree root sub o oc []).
  split; [done |]. split; [done |]. split; [done |]. split; [done |]. split.
  { split.
    - exists [sub], [[sub]]. split; [done |]. split; [done |]. simpl.
      split; [| done]. exists [], []. by split.
    - apply NoDup_cons. split; [set_solver |]. apply NoDup_singleton. }
  split; [by rewrite (bind_run _ _ _ _ _ Hgen) |]. split; [done |].
  unfold transformed. cbn [elements roots gen]. fold newTree.
  split; [by rewrite lookup_insert_eq |].
  split; [by rewrite lookup_insert_ne, lookup_insert_eq |].
  split; [| done]. split.
  - exists [root], [[root]]. split; [by rewrite lookup_insert_eq |].
    split; [done |]. simpl. split; [| done].
    exists [], []. split; [| done].
    by rewrite lookup_insert_ne, lookup_insert_eq.
  - apply NoDup_cons. split; [set_solver |]. apply NoDup_singleton.
Qed.

End Facts.
End Toy1Facts.

Module Toy1Witnesses.
Import Toy1 Toy1Concrete Toy1Facts.

Lemma CounterSource_ok : RandomSourceOk CounterSource.
Proof.
  split. intros g n Hn. simpl. apply Nat.mod_upper_bound. lia.
Qed.
#[local] Existing Instance CounterSource_ok.

Lemma store3_tree : is_tree (elements store3) doc3 0 [0; 1; 2].
Proof.
  split.
  - exists [1; 2], [[1]; [2]]. split; [reflexivity |]. split; [reflexivity |].
    simpl. split; [| split; [| done]].
    + exists [], []. by split; [reflexivity |].
    + exists [], []. by split; [reflexivity |].
  - repeat (apply NoDup_cons; split; [set_solver |]). apply NoDup_nil_2.
Qed.

Lemma store2_tree :
  is_tree (elements store2) (Node (info_of "r") [Node (info_of "c") []]) 0 [0; 1].
Proof.
  split.
  - exists [1], [[1]]. split; [reflexivity |]. split; [reflexivity |].
    simpl. split; [| done].
    exists [], []. by split; [reflexivity |].
  - repeat (apply NoDup_cons; split; [set_solver |]). apply NoDup_nil_2.
Qed.

Lemma transformSample_rotates_witness :
  roots store3 !! 7 = Some 0
  ∧ is_tree (elements store3) doc3 0 [0; 1; 2]
  ∧ rotate doc3
    = Some (Node (info_of "c") [Node (info_of "r") [Node (info_of "d") []]])
  ∧ ∃ newTree s' child L',
      transformSample 7 store3 = Some (Return newTree, s')
      ∧ roots s' !! newTree = Some child
      ∧ is_tree (elements s')
          (Node (info_of "c") [Node (info_of "r") [Node (info_of "d") []]]) child L'
      ∧ L' ≡ₚ [0; 1; 2].
Proof.
  split; [reflexivity |]. split; [apply store3_tree |]. split; [reflexivity |].
  apply (transformSample_rotates store3 7 0 doc3);
    [reflexivity | apply store3_tree | reflexivity].
Defined.

Lemma transformSample_in_place_witness :
  roots store3 !! 7 = Some 0
  ∧ elements store3 !! 0 = Some {| info := info_of "r"; children := [1; 2] |}
  ∧ elements store3 !! 1 = Some {| info := info_of "c"; children := [] |}
  ∧ ∃ newTree s',
      transformSample 7 store3 = Some (Return newTree, s')
      ∧ roots store3 !! newTree = None
      ∧ roots s' !! newTree = Some 1
      ∧ roots s' !! 7 = Some 1
      ∧ dom (elements s') = dom (elements store3)
      ∧ (∀ l, l ≠ 0 → l ≠ 1 → elements s' !! l = elements store3 !! l)
      ∧ (∀ x, x ≠ 7 → x ≠ newTree → roots s' !! x = roots store3 !! x)
      ∧ gen s' = gen store3.
Proof.
  split; [reflexivity |]. split; [reflexivity |]. split; [reflexivity |].
  apply (transformSample_in_place store3 7 0 1
           {| info := info_of "r"; children := [1; 2] |}
           {| info := info_of "c"; children := [] |} [2]); reflexivity.
Defined.

Lemma transformSample_childless_witness :
  roots store1 !! 7 = Some 0
  ∧ elements store1 !! 0 = Some {| info := info_of "r"; children := [] |}
  ∧ transformSample 7 store1 = Some (Throw IndexError, store1).
Proof.
  split; [reflexivity |]. split; [reflexivity |].
  apply (transformSample_childless store1 7 0
           {| info := info_of "r"; children := [] |}); reflexivity.
Defined.

Lemma generateSample_two_nodes_witness :
  RandomSourceOk CounterSource
  ∧ (tagPool ≠ [] →
     ∃ tree s' root sub tag1 tag2,
       generateSample tagPool empty_store = Some (Return tree, s')
       ∧ tag1 ∈ tagPool ∧ tag2 ∈ tagPool
       ∧ roots empty_store !! tree = None
       ∧ roots s' !! tree = Some root
       ∧ elements empty_store !! root = None ∧ elements empty_store !! sub = None
       ∧ is_tree (elements s') (Node (new_info tag1) [Node (new_info tag2) []])
           root [root; sub]
       ∧ (∀ l, l ≠ root → l ≠ sub → elements s' !! l = elements empty_store !! l)
       ∧ (∀ x, x ≠ tree → roots s' !! x = roots empty_store !! x)).
Proof.
  split; [apply CounterSource_ok |].
  apply (generateSample_two_nodes tagPool empty_store).
Defined.

Lemma transformSample_twice_witness :
  roots store2 !! 7 = Some 0
  ∧ is_tree (elements store2) (Node (info_of "r") [Node (info_of "c") []]) 0 [0; 1]
  ∧ ∃ tree1 s1 tree2 s2,
      transformSample 7 store2 = Some (Return tree1, s1)
      ∧ transformSample tree1 s1 = Some (Return tree2, s2)
      ∧ elements s2 = elements store2
      ∧ roots s2 !! tree2 = Some 0
      ∧ roots s2 !! tree1 = Some 0
      ∧ roots s2 !! 7 = Some 1.
Proof.
  split; [reflexivity |]. split; [apply store2_tree |].
  apply (transformSample_twice store2 7 0 1 (info_of "r") (info_of "c"));
    [reflexivity | apply store2_tree].
Defined.

Lemma generate_then_transform_witness :
  tagPool ≠ []
  ∧ ∃ tag1 tag2 tree s1 root sub newTree s',
      tagPool !! 0 = Some tag1
      ∧ tagPool !! 1 = Some tag2
      ∧ generateSample tagPool empty_store = Some (Return tree, s1)
      ∧ roots s1 !! tree = Some root
      ∧ is_tree (elements s1) (Node (new_info tag1) [Node (new_info tag2) []])
          root [root; sub]
      ∧ bind (generateSample tagPool) transformSample empty_store
        = Some (Return newTree, s')
      ∧ newTree ≠ tree
      ∧ roots s' !! newTree = Some sub
      ∧ roots s' !! tree = Some sub
      ∧ is_tree (elements s') (Node (new_info tag2) [Node (new_info tag1) []])
          sub [sub; root]
      ∧ gen s' = 2.
Proof.
  split; [done |].
  apply (generate_then_transform tagPool empty_store). done.
Defined.

End Toy1Witnesses.

(** * Properties of run folders and checkpoints *)

Module ConfigFacts.
Import Config.

(** ** Digits and decimal numbers *)

Section Digits.

Lemma is_nat_Some c n :
  Ascii.is_nat c = Some n → c = pretty_N_char (N.of_nat n) ∧ (n < 10)%nat.
Proof.
  destruct c as [[] [] [] [] [] [] [] []]; simpl; intros [= <-]; by split; [|lia].
Qed.

Lemma is_digit_char x : (x < 10)%N → is_digit (pretty_N_char x).
Proof.
  intros Hx. unfold is_digit.
  assert (x = 0 ∨ x = 1 ∨ x = 2 ∨ x = 3 ∨ x = 4 ∨ x = 5 ∨ x = 6 ∨ x = 7
          ∨ x = 8 ∨ x = 9)%N as Hc by lia.
  destruct_or!; subst x; by eexists.
Qed.

Lemma digit_value_char x : (x < 10)%N → digit_value (pretty_N_char x) = Z.of_N x.
Proof.
  intros Hx.
  assert (x = 0 ∨ x = 1 ∨ x = 2 ∨ x = 3 ∨ x = 4 ∨ x = 5 ∨ x = 6 ∨ x = 7
          ∨ x = 8 ∨ x = 9)%N as Hc by lia.
  destruct_or!; by subst x.
Qed.

Lemma digit_value_bound c : (0 ≤ digit_value c < 10)%Z.
Proof.
  unfold digit_value. destruct (Ascii.is_nat c) as [n|] eqn:E; simpl; [|lia].
  apply is_nat_Some in E as [_ ?]. lia.
Qed.

Lemma digit_value_inj c1 c2 :
  is_digit c1 → is_digit c2 → digit_value c1 = digit_value c2 → c1 = c2.
Proof.
  unfold digit_value. intros [n1 E1] [n2 E2]. rewrite E1, E2. simpl. intros Hn.
  apply is_nat_Some in E1 as [-> _], E2 as [-> _]. f_equal. lia.
Qed.

Lemma digit_not_dot c : is_digit c → c ≠ "."%char.
Proof. intros [n E] ->. discriminate E. Qed.

Lemma digit_not_slash c : is_digit c → c ≠ "/"%char.
Proof. intros [n E] ->. discriminate E. Qed.

Lemma decimal_cons c s :
  decimal (c :: s) = (digit_value c * 10 ^ Z.of_nat (length s) + decimal s)%Z.
Proof.
  unfold decimal. simpl.
  assert (∀ s a b, foldl (λ acc c, (10 * acc + digit_value c)%Z) (a + b)%Z s
                   = (a * 10 ^ Z.of_nat (length s)
                      + foldl (λ acc c, (10 * acc + digit_value c)%Z) b s)%Z) as Hgen.
  { clear. induction s as [|x s IH]; intros a b; simpl.
    - lia.
    - replace (10 * (a + b) + digit_value x)%Z
        with (10 * a + (10 * b + digit_value x))%Z by lia.
      rewrite IH. rewrite Nat2Z.inj_succ, Z.pow_succ_r by lia. lia. }
  rewrite <- (Hgen s (digit_value c) 0%Z). by rewrite Z.add_0_r.
Qed.

Lemma decimal_nil : decimal [] = 0%Z.
Proof. done. Qed.

Lemma decimal_bound s : (0 ≤ decimal s < 10 ^ Z.of_nat (length s))%Z.
Proof.
  induction s as [|c s IH]; [done|].
  rewrite decimal_cons. cbn [length]. rewrite Nat2Z.inj_succ, Z.pow_succ_r by lia.
  pose proof (digit_value_bound c). nia.
Qed.

Lemma decimal_snoc s c : decimal (s ++ [c]) = (10 * decimal s + digit_value c)%Z.
Proof. unfold decimal. by rewrite foldl_app. Qed.

Lemma decimal_zeros k s : decimal (replicate k "0"%char ++ s) = decimal s.
Proof.
  induction k as [|k IH]; [done|].
  cbn [replicate app]. rewrite decimal_cons, IH. done.
Qed.

(** Strings of digits of the same length denote the same number only if they
    are equal. *)
Lemma decimal_inj a b :
  length a = length b → Forall is_digit a → Forall is_digit b →
  decimal a = decimal b → a = b.
Proof.
  revert b. induction a as [|x a IH]; intros [|y b] Hlen Ha Hb Hd; try done.
  apply Forall_cons in Ha as [Hx Ha], Hb as [Hy Hb].
  injection Hlen as Hlen. rewrite !decimal_cons, Hlen in Hd.
  pose proof (decimal_bound a). pose proof (decimal_bound b).
  rewrite Hlen in *. 
  pose proof (digit_value_bound x). pose proof (digit_value_bound y).
  assert (digit_value x = digit_value y) as Hxy by nia.
  rewrite Hxy in Hd.
  f_equal; [by apply digit_value_inj|apply IH; [done..|lia]].
Qed.

(** The digits that [pretty] prints. *)
Lemma pretty_N_go_digits x s :
  ∃ ds, lit (pretty_N_go x s) = ds ++ lit s ∧ Forall is_digit ds
        ∧ decimal ds = Z.of_N x
        ∧ (x = 0%N → ds = [])
        ∧ ((0 < x)%N → (10 ^ Z.of_nat (length ds) ≤ 10 * Z.of_N x)%Z).
Proof.
  revert s. induction (N.lt_wf_0 x) as [x _ IH]; intros s.
  destruct (decide (x = 0%N)) as [->|Hx].
  { exists []. rewrite pretty_N_go_0. repeat split; try done; lia. }
  rewrite pretty_N_go_step by lia.
  destruct (IH (x `div` 10)%N) with (s := String (pretty_N_char (x `mod` 10)) s)
    as (ds & Heq & Hds & Hdec & Hz & Hlow).
  { apply N.div_lt; lia. }
  assert (x `mod` 10 < 10)%N as Hm by (apply N.mod_lt; lia).
  exists (ds ++ [pretty_N_char (x `mod` 10)]). repeat split.
  - rewrite Heq. simpl. by rewrite <- app_assoc.
  - apply Forall_app. split; [done|]. apply Forall_singleton. by apply is_digit_char.
  - rewrite decimal_snoc, Hdec, digit_value_char by done.
    assert (x = 10 * (x `div` 10) + x `mod` 10)%N as Hdm by (by apply N.div_mod). lia.
  - done.
  - intros _. rewrite length_app. cbn [length].
    replace (Z.of_nat (length ds + 1)) with (Z.succ (Z.of_nat (length ds))) by lia.
    rewrite Z.pow_succ_r by lia.
    destruct (decide (x `div` 10 = 0)%N) as [Hq|Hq].
    + rewrite (Hz Hq). cbn [length]. change (Z.of_nat 0) with 0%Z. lia.
    + assert (0 < x `div` 10)%N as Hpos by (by apply N.neq_0_lt_0).
      specialize (Hlow Hpos).
      assert (x = 10 * (x `div` 10) + x `mod` 10)%N as Hdm by (by apply N.div_mod).
      clear -Hlow Hdm. revert Hlow Hdm.
      generalize (x `div` 10)%N (x `mod` 10)%N (10 ^ Z.of_nat (length ds))%Z.
      intros q r w ? ?. lia.
Qed.

Lemma str_of_int_digits n :
  (0 ≤ n)%Z →
  str_of_int n ≠ [] ∧ Forall is_digit (str_of_int n)
  ∧ decimal (str_of_int n) = n
  ∧ (n < 10 ^ Z.of_nat (length (str_of_int n)))%Z
  ∧ ((0 < n)%Z → (10 ^ Z.of_nat (length (str_of_int n)) ≤ 10 * n)%Z).
Proof.
  intros Hn. unfold str_of_int. destruct n as [|p|p]; [| |lia].
  { simpl. repeat split; try done; try lia.
    apply Forall_singleton. by eexists. }
  change (pretty (Z.pos p)) with (pretty_N_go (N.pos p) EmptyString).
  destruct (pretty_N_go_digits (N.pos p) EmptyString) as (ds & Heq & Hds & Hdec & _ & Hlow).
  simpl in Heq. rewrite app_nil_r in Heq. rewrite Heq.
  specialize (Hlow ltac:(lia)).
  pose proof (decimal_bound ds) as Hb.
  repeat split; try done; try lia.
  intros ->. rewrite decimal_nil in Hdec. lia.
Qed.

Lemma str_of_int_length n :
  (0 ≤ n)%Z → (length (str_of_int n) ≤ 5)%nat ↔ (n < 100000)%Z.
Proof.
  intros Hn. destruct (str_of_int_digits n Hn) as (Hne & _ & _ & Hup & Hlow).
  split.
  - intros Hlen.
    assert (10 ^ Z.of_nat (length (str_of_int n)) ≤ 10 ^ 5)%Z; [|lia].
    apply Z.pow_le_mono_r; lia.
  - intros Hlt. destruct (decide (n = 0%Z)) as [->|Hn0]; [simpl; lia|].
    specialize (Hlow ltac:(lia)).
    destruct (decide (length (str_of_int n) ≤ 5)%nat); [done|].
    assert (10 ^ 6 ≤ 10 ^ Z.of_nat (length (str_of_int n)))%Z; [|lia].
    apply Z.pow_le_mono_r; lia.
Qed.

End Digits.

(** ** Paths *)

Section Paths.

Lemma basename_no_slash n : "/"%char ∉ n → basename n = n.
Proof.
  destruct n as [|c n]; [done|]. intros [Hc Hn]%not_elem_of_cons. simpl.
  rewrite bool_decide_eq_false_2 by done. by rewrite decide_False.
Qed.

Lemma basename_app_slash D n :
  "/"%char ∉ n → basename (D ++ "/"%char :: n) = n.
Proof.
  intros Hn. induction D as [|c D IH]; simpl.
  - by rewrite bool_decide_eq_false_2.
  - rewrite bool_decide_eq_true_2; [done|]. apply elem_of_app. right. left.
Qed.

Lemma basename_dir D n :
  D = [] ∨ last D = Some "/"%char → "/"%char ∉ n → basename (D ++ n) = n.
Proof.
  intros [->|[D' ->]%last_Some] Hn.
  - by apply basename_no_slash.
  - rewrite <- app_assoc. by apply basename_app_slash.
Qed.

Lemma plain_last D : plain D → last D = Some "/"%char.
Proof. intros (D' & -> & _). by rewrite last_snoc. Qed.

Lemma plain_app_r A B : plain (A ++ B) → B = [] ∨ last B = Some "/"%char.
Proof.
  intros HD%plain_last. destruct B as [|x B _] using rev_ind; [by left|right].
  rewrite app_assoc, last_snoc in HD. by rewrite last_snoc.
Qed.

Lemma slice_run d rest :
  length d = 5%nat → slice 4 9 (lit "run." ++ d ++ "."%char :: rest) = d.
Proof.
  intros Hd. unfold slice.
  change (drop 4 (lit "run." ++ d ++ "."%char :: rest)) with (d ++ "."%char :: rest).
  by apply take_app_length'.
Qed.

Lemma replace_id a b s : a ∉ s → replace a b s = s.
Proof.
  induction s as [|c s IH]; [done|]. intros [Hc Hs]%not_elem_of_cons.
  unfold replace in *. rewrite fmap_cons, IH by done.
  by rewrite decide_False.
Qed.

Lemma rstrip_last c s x : last s = Some x → x ≠ c → rstrip c s = s.
Proof.
  intros Hl Hx. induction s as [|y s IH]; [done|].
  destruct s as [|z s].
  - simpl in *. injection Hl as ->. by rewrite decide_False.
  - rewrite last_cons_cons in Hl. specialize (IH Hl).
    change (rstrip c (y :: z :: s)) with
      (match rstrip c (z :: s) with
       | [] => if decide (y = c) then [] else [y]
       | r => y :: r
       end).
    by rewrite IH.
Qed.

Lemma rstrip_snoc c s : rstrip c (s ++ [c]) = rstrip c s.
Proof.
  induction s as [|y s IH]; simpl.
  - by rewrite decide_True.
  - by rewrite IH.
Qed.

Lemma chk_folder_last R name :
  "/"%char ∉ name →
  ∃ x, last (R ++ lit "Chk" ++ name) = Some x ∧ x ≠ "/"%char.
Proof.
  intros Hn. destruct name as [|x name _] using rev_ind.
  - exists "k"%char. rewrite app_nil_r.
    change (lit "Chk") with (lit "Ch" ++ ["k"%char]).
    by rewrite app_assoc, last_snoc.
  - exists x. rewrite !app_assoc, last_snoc. split; [done|].
    intros ->. apply Hn, elem_of_app. right. left.
Qed.

Lemma dirname_chk R name :
  "/"%char ∉ name → dirname (chk_path R name) = R ++ lit "Chk" ++ name.
Proof.
  intros Hn. unfold dirname, chk_path.
  set (X := R ++ lit "Chk" ++ name).
  assert (R ++ lit "Chk" ++ name ++ lit "/output_vocab.pt"
          = X ++ "/"%char :: lit "output_vocab.pt") as ->.
  { unfold X. by rewrite <- !app_assoc. }
  rewrite basename_app_slash by (by apply (bool_decide_unpack _)).
  assert (take (length (X ++ "/"%char :: lit "output_vocab.pt")
                - length (lit "output_vocab.pt"))
               (X ++ "/"%char :: lit "output_vocab.pt") = X ++ ["/"%char]) as ->.
  { change ("/"%char :: lit "output_vocab.pt")
      with (["/"%char] ++ lit "output_vocab.pt").
    rewrite app_assoc. rewrite take_app_length'; [done|].
    rewrite !length_app. simpl. lia. }
  rewrite bool_decide_eq_true_2.
  - rewrite rstrip_snoc.
    destruct (chk_folder_last R name Hn) as (x & Hl & Hx).
    by apply rstrip_last with x.
  - split; [by destruct X|].
    apply Exists_exists. exists "C"%char. split; [|done].
    unfold X. rewrite !elem_of_app. left. right. left. left.
Qed.

Lemma chk_folder_name R name :
  plain R → "/"%char ∉ name →
  basename (dirname (chk_path R name)) = lit "Chk" ++ name.
Proof.
  intros HR Hn. rewrite dirname_chk by done.
  apply basename_dir; [right; by apply plain_last|].
  rewrite not_elem_of_app. split; [by apply (bool_decide_unpack _)|done].
Qed.

Lemma split_no_sep sep s : sep ∉ s → split sep s = [s].
Proof.
  induction s as [|c s IH]; [done|]. intros [Hc Hs]%not_elem_of_cons.
  simpl. rewrite decide_False by done. by rewrite IH.
Qed.

Lemma split_app sep a b :
  sep ∉ a → split sep (a ++ sep :: b) = a :: split sep b.
Proof.
  induction a as [|c a IH]; simpl.
  - intros _. by rewrite decide_True.
  - intros [Hc Ha]%not_elem_of_cons. rewrite decide_False by done.
    by rewrite IH.
Qed.

Lemma split_length sep s :
  length (split sep s) = S (length (filter (λ c, c = sep) s)).
Proof.
  induction s as [|c s IH]; [done|]. simpl.
  destruct (decide (c = sep)) as [->|Hc].
  - rewrite filter_cons_True by done. simpl. by rewrite IH.
  - rewrite filter_cons_False by done.
    destruct (split sep s) as [|p ps]; [done|]. by simpl in *.
Qed.

End Paths.

(** ** The order of strings *)

Section Order.

Lemma ascii_compare_refl x : Ascii.compare x x = Eq.
Proof. unfold Ascii.compare. apply N.compare_refl. Qed.

Lemma str_compare_refl a : str_compare a a = Eq.
Proof. induction a as [|x a IH]; [done|]. simpl. by rewrite ascii_compare_refl. Qed.

Lemma str_compare_eq a b : str_compare a b = Eq → a = b.
Proof.
  revert b. induction a as [|x a IH]; intros [|y b]; simpl; try done.
  destruct (Ascii.compare x y) eqn:E; try done.
  apply Ascii.compare_eq_iff in E as ->. intros ->%IH. done.
Qed.

Lemma str_compare_antisym a b : str_compare b a = CompOpp (str_compare a b).
Proof.
  revert b. induction a as [|x a IH]; intros [|y b]; simpl; try done.
  rewrite (Ascii.compare_antisym y x).
  destruct (Ascii.compare x y); simpl; auto.
Qed.

Lemma str_compare_app pre x y :
  str_compare (pre ++ x) (pre ++ y) = str_compare x y.
Proof. induction pre as [|c pre IH]; [done|]. simpl. by rewrite ascii_compare_refl. Qed.

Lemma str_le_refl a : str_le a a = true.
Proof. unfold str_le. by rewrite str_compare_refl. Qed.

Lemma str_lt_le a b : str_lt a b = true → str_le a b = true.
Proof. unfold str_lt, str_le. by destruct (str_compare a b). Qed.

Lemma str_not_lt_le a b : str_lt a b = false → str_le b a = true.
Proof.
  unfold str_lt, str_le. rewrite (str_compare_antisym a b).
  by destruct (str_compare a b).
Qed.

Lemma str_le_antisym a b : str_le a b = true → str_le b a = true → a = b.
Proof.
  unfold str_le. rewrite (str_compare_antisym a b).
  destruct (str_compare a b) eqn:E; try done.
  intros _ _. by apply str_compare_eq.
Qed.

Lemma str_le_trans a b c :
  str_le a b = true → str_le b c = true → str_le a c = true.
Proof.
  unfold str_le. revert b c.
  induction a as [|x a IH]; intros [|y b] [|z c]; simpl; try done.
  unfold Ascii.compare.
  destruct (N.compare_spec (N_of_ascii x) (N_of_ascii y)) as [Hxy|Hxy|Hxy];
    destruct (N.compare_spec (N_of_ascii y) (N_of_ascii z)) as [Hyz|Hyz|Hyz];
    destruct (N.compare_spec (N_of_ascii x) (N_of_ascii z)) as [Hxz|Hxz|Hxz];
    try done; try lia.
  apply IH.
Qed.

(** [max] returns a greatest element of the list. *)
Lemma max_str_spec x xs :
  max_str x xs ∈ x :: xs ∧ ∀ y, y ∈ x :: xs → str_le y (max_str x xs) = true.
Proof.
  unfold max_str. revert x. induction xs as [|z xs IH]; intros x.
  { simpl. split; [left|]. intros y ->%list_elem_of_singleton. apply str_le_refl. }
  cbn [foldl]. set (m := if str_lt x z then z else x).
  destruct (IH m) as [Hin Hmax].
  assert (str_le x m = true ∧ str_le z m = true ∧ (m = x ∨ m = z)) as (Hx & Hz & Hm).
  { unfold m. destruct (str_lt x z) eqn:E.
    - split_and!; [by apply str_lt_le|apply str_le_refl|by right].
    - split_and!; [apply str_le_refl|by apply str_not_lt_le|by left]. }
  split.
  - apply elem_of_cons in Hin as [->|Hin].
    + destruct Hm as [->| ->]; [left|right; left].
    + right. by right.
  - intros y [->|[->|Hy]%elem_of_cons]%elem_of_cons.
    + eapply str_le_trans; [exact Hx|]. apply Hmax. left.
    + eapply str_le_trans; [exact Hz|]. apply Hmax. left.
    + apply Hmax. by right.
Qed.

(** A greatest element of a list is the one [max] returns. *)
Lemma max_str_unique x xs p :
  p ∈ x :: xs → (∀ y, y ∈ x :: xs → str_le y p = true) → max_str x xs = p.
Proof.
  intros Hp Hmax. destruct (max_str_spec x xs) as [Hin Hle].
  apply str_le_antisym; auto.
Qed.

Lemma max_int_None l : max_int l = None ↔ l = [].
Proof. by destruct l. Qed.

Lemma max_int_spec l k :
  max_int l = Some k → k ∈ l ∧ ∀ j, j ∈ l → (j ≤ k)%Z.
Proof.
  revert k. induction l as [|i l IH]; intros k; [done|]. simpl.
  destruct (max_int l) as [m|] eqn:E; simpl; intros [= <-].
  - destruct (IH m eq_refl) as [Hin Hmax]. split.
    + destruct (Z.max_spec i m) as [[_ ->]|[_ ->]]; [by right|left].
    + intros j [->|Hj]%elem_of_cons; [lia|]. specialize (Hmax j Hj). lia.
  - apply max_int_None in E as ->. split; [left|].
    intros j ->%list_elem_of_singleton. lia.
Qed.

Lemma max_int_is_Some l : l ≠ [] → is_Some (max_int l).
Proof. destruct l; [done|]. intros _. by eexists. Qed.

(** On digits the order of the characters is the order of their values. *)
Lemma digit_compare x y :
  is_digit x → is_digit y →
  Ascii.compare x y = Z.compare (digit_value x) (digit_value y).
Proof.
  intros [a Ea] [b Eb].
  apply is_nat_Some in Ea as [-> Ha], Eb as [-> Hb].
  do 10 (destruct a as [|a]; [do 10 (destruct b as [|b]; [reflexivity|]); lia|]).
  lia.
Qed.

(** Strings of digits of the same length are ordered as the numbers they
    denote, whatever follows them. *)
Lemma str_compare_digits a b u v :
  length a = length b → Forall is_digit a → Forall is_digit b → a ≠ b →
  str_compare (a ++ u) (b ++ v) = Z.compare (decimal a) (decimal b).
Proof.
  revert b. induction a as [|x a IH]; intros [|y b] Hlen Ha Hb Hne; try done.
  apply Forall_cons in Ha as [Hx Ha], Hb as [Hy Hb]. injection Hlen as Hlen.
  cbn [app str_compare]. rewrite digit_compare, !decimal_cons, Hlen by done.
  pose proof (decimal_bound a) as Hba. pose proof (decimal_bound b) as Hbb.
  rewrite Hlen in Hba.
  pose proof (digit_value_bound x). pose proof (digit_value_bound y).
  destruct (Z.compare_spec (digit_value x) (digit_value y)) as [Hxy|Hxy|Hxy].
  - apply digit_value_inj in Hxy as ->; [|done..].
    rewrite IH by (try done; congruence).
    by rewrite Z.add_compare_mono_l.
  - symmetry. apply Z.compare_lt_iff. nia.
  - symmetry. apply Z.compare_gt_iff. nia.
Qed.

End Order.

(** ** The run folders a call sees *)

Section RunMap.
Context `{OsOk}.
Implicit Types dfp arf suffix : str.

Lemma nonempty_folders_ok paths fs :
  (∀ p, p ∈ paths → ∃ names, os_listdir p fs = Return names) →
  ∃ l, nonempty_folders paths fs = Return l
       ∧ ∀ p, p ∈ l ↔ p ∈ paths ∧ ∃ n ns, os_listdir p fs = Return (n :: ns).
Proof.
  induction paths as [|q paths IH]; intros Hall.
  { exists []. split; [done|]. intros p. split; [by intros ?%elem_of_nil|].
    by intros [?%elem_of_nil _]. }
  destruct IH as (l & Hl & Hspec).
  { intros p Hp. apply Hall. by right. }
  destruct (Hall q) as [names Hq]; [left|].
  cbn [nonempty_folders]. rewrite Hq, Hl.
  destruct names as [|n ns]; eexists; (split; [done|]); intros p.
  - rewrite Hspec, elem_of_cons. split; [naive_solver|].
    intros [[->|Hp] (n & ns & Hn)]; [congruence|eauto].
  - rewrite !elem_of_cons, Hspec. split; [|naive_solver].
    intros [->|[Hp Hn]]; [|by eauto]. split; [by left|]. eauto.
Qed.

Lemma nonempty_folders_fail paths fs :
  (∃ p e, p ∈ paths ∧ os_listdir p fs = Throw e) →
  ∃ p e, p ∈ paths ∧ os_listdir p fs = Throw e
         ∧ nonempty_folders paths fs = Throw e.
Proof.
  induction paths as [|q paths IH]; intros (p & e & Hp & He).
  { by apply elem_of_nil in Hp. }
  cbn [nonempty_folders]. destruct (os_listdir q fs) as [names|e'] eqn:Hq.
  - apply elem_of_cons in Hp as [->|Hp]; [congruence|].
    destruct IH as (p' & e' & Hp' & He' & ->); [by eauto|].
    exists p', e'. split; [by right|]. done.
  - exists q, e'. split; [left|]. done.
Qed.

Lemma index_folders_ok arf (prs : list (str * str)) m :
  arf = [] ∨ last arf = Some "/"%char →
  Forall (λ dr, length dr.1 = 5%nat ∧ Forall is_digit dr.1 ∧ "/"%char ∉ dr.2) prs →
  index_folders ((λ dr, arf ++ lit "run." ++ dr.1 ++ "."%char :: dr.2) <$> prs) m
  = Return (foldl (λ m dr, <[decimal dr.1 := run_folder_of arf dr.1 dr.2]> m) m prs).
Proof.
  intros Harf Hwf. revert m.
  induction Hwf as [|[d r] prs (Hlen & Hd & Hr) _ IH]; intros m; [done|].
  simpl in Hlen, Hd, Hr. rewrite fmap_cons. cbn [index_folders foldl fst snd].
  rewrite basename_dir; [|done|].
  - rewrite slice_run by done.
    rewrite py_int_decimal; [|by destruct d|done|lia].
    apply IH.
  - rewrite !not_elem_of_app, not_elem_of_cons. split_and!; try done.
    + by apply (bool_decide_unpack _).
    + intros Hin. eapply Forall_forall in Hd; [|exact Hin].
      by apply digit_not_slash in Hd.
Qed.

Lemma foldl_insert_lookup arf (prs : list (str * str)) (m : gmap Z str) i f :
  foldl (λ m dr, <[decimal dr.1 := run_folder_of arf dr.1 dr.2]> m) m prs !! i
    = Some f →
  m !! i = Some f
  ∨ ∃ dr, dr ∈ prs ∧ decimal dr.1 = i ∧ f = run_folder_of arf dr.1 dr.2.
Proof.
  revert m. induction prs as [|dr prs IH]; intros m; [by left|].
  cbn [foldl]. intros [Hm|(dr' & Hin & Hi & Hf)]%IH.
  - apply lookup_insert_Some in Hm as [[Hi Hf]|[_ Hm]]; [|by left].
    right. exists dr. split; [left|done].
  - right. exists dr'. split; [by right|done].
Qed.

Lemma foldl_insert_is_Some arf (prs : list (str * str)) (m : gmap Z str) i :
  is_Some (m !! i) ∨ (∃ dr, dr ∈ prs ∧ decimal dr.1 = i) →
  is_Some (foldl (λ m dr, <[decimal dr.1 := run_folder_of arf dr.1 dr.2]> m) m prs
           !! i).
Proof.
  revert m. induction prs as [|dr prs IH]; intros m.
  { intros [Hm|(dr & ?%elem_of_nil & _)]; done. }
  cbn [foldl]. intros [Hm|(dr' & [->|Hin]%elem_of_cons & Hi)]; apply IH.
  - left. rewrite lookup_insert_is_Some. destruct (decide (decimal dr.1 = i)); auto.
  - left. rewrite lookup_insert_is_Some. auto.
  - right. eauto.
Qed.

Lemma globbed_entries dfp arf fs l :
  plain (dfp ++ arf) →
  (∀ p, p ∈ l → p ∈ glob_glob (dfp ++ arf ++ run_pattern) fs) →
  ∃ prs : list (str * str),
    l = (λ dr, dfp ++ arf ++ lit "run." ++ dr.1 ++ "."%char :: dr.2) <$> prs
    ∧ Forall (λ dr, length dr.1 = 5%nat ∧ Forall is_digit dr.1 ∧ "/"%char ∉ dr.2) prs.
Proof.
  intros HD. induction l as [|p l IH]; intros Hl.
  { by exists []. }
  destruct IH as (prs & -> & Hwf).
  { intros q Hq. apply Hl. by right. }
  destruct (glob_run (dfp ++ arf) fs p HD) as (d & r & -> & Hlen & Hd & Hr).
  { rewrite <- app_assoc. apply Hl. left. }
  exists ((d, r) :: prs). split.
  - rewrite fmap_cons. cbn [fst snd]. by rewrite <- app_assoc.
  - by constructor.
Qed.

Lemma run_path_inj dfp arf d1 r1 d2 r2 :
  length d1 = length d2 →
  run_path dfp arf d1 r1 = run_path dfp arf d2 r2 → d1 = d2 ∧ r1 = r2.
Proof.
  unfold run_path. intros Hlen Heq.
  do 3 apply app_inv_head in Heq.
  apply app_inj_1 in Heq as [-> [= ->]]; done.
Qed.

(** The dictionary of lines 199-203 holds the listed run folders, and only
    these. *)
Lemma run_index_map_spec dfp arf fs :
  plain (dfp ++ arf) → listable dfp arf fs →
  ∃ m, run_index_map dfp arf fs = Return m
    ∧ (∀ i f, m !! i = Some f →
         ∃ d r, listed dfp arf fs d r ∧ decimal d = i ∧ f = run_folder_of arf d r)
    ∧ (∀ d r, listed dfp arf fs d r → is_Some (m !! decimal d)).
Proof.
  intros HD Hlist. unfold run_index_map.
  destruct (nonempty_folders_ok (glob_glob (dfp ++ arf ++ run_pattern) fs) fs)
    as (l & -> & Hl); [done|].
  destruct (globbed_entries dfp arf fs l HD) as (prs & -> & Hwf).
  { intros p Hp. by apply Hl in Hp as [? _]. }
  rewrite <- list_fmap_compose.
  rewrite (list_fmap_ext _ (λ dr, arf ++ lit "run." ++ dr.1 ++ "."%char :: dr.2) prs);
    [|intros i dr _; simpl; by rewrite drop_app_length].
  rewrite index_folders_ok; [|by eapply plain_app_r|done].
  eexists. split; [done|]. split.
  - intros i f [Hm|((d & r) & Hin & Hi & Hf)]%foldl_insert_lookup; [done|].
    exists d, r. split; [|done].
    eapply Forall_forall in Hwf as (Hlen & Hd & Hr); [|exact Hin].
    split; [done|]. split; [done|].
    apply (Hl (run_path dfp arf d r)).
    by apply (list_elem_of_fmap_2 (λ dr, dfp ++ arf ++ lit "run." ++ dr.1 ++ "."%char :: dr.2)) in Hin.
  - intros d r (Hlen & Hd & Hin & Hne).
    apply foldl_insert_is_Some. right.
    assert (run_path dfp arf d r
            ∈ (λ dr, dfp ++ arf ++ lit "run." ++ dr.1 ++ "."%char :: dr.2) <$> prs)
      as ((d' & r') & Heq & Hin')%list_elem_of_fmap_1 by (by apply Hl).
    eapply Forall_forall in Hwf as (Hlen' & _); [|exact Hin'].
    apply run_path_inj in Heq as [-> ->]; [|simpl in *; congruence].
    by exists (d', r').
Qed.

(** With one run folder per index, the dictionary maps the index of every
    listed run folder to that folder. *)
Lemma run_index_map_unique dfp arf fs :
  plain (dfp ++ arf) → listable dfp arf fs → unique_indices dfp arf fs →
  ∃ m, run_index_map dfp arf fs = Return m
    ∧ (∀ i f, m !! i = Some f →
         ∃ d r, listed dfp arf fs d r ∧ decimal d = i ∧ f = run_folder_of arf d r)
    ∧ (∀ d r, listed dfp arf fs d r →
         m !! decimal d = Some (run_folder_of arf d r)).
Proof.
  intros HD Hlist Huniq.
  destruct (run_index_map_spec dfp arf fs HD Hlist) as (m & Hm & Hsound & Hcompl).
  exists m. split; [done|]. split; [done|].
  intros d r Hdr. destruct (Hcompl d r Hdr) as [f Hf]. rewrite Hf.
  destruct (Hsound _ _ Hf) as (d' & r' & Hdr' & Hdec & ->).
  assert (d' = d) as ->.
  { destruct Hdr as (? & ? & _), Hdr' as (? & ? & _).
    apply decimal_inj; [congruence|done..]. }
  by rewrite (Huniq d r' d r Hdr' Hdr eq_refl).
Qed.

Lemma elem_of_compatible_indices suffix (m : gmap Z str) i :
  i ∈ compatible_indices suffix m ↔ ∃ f, m !! i = Some f ∧ compatible suffix f.
Proof.
  unfold compatible_indices, compatible, endswith.
  rewrite list_elem_of_fmap. split.
  - intros ([j f] & -> & [Hc Hin]%list_elem_of_filter).
    apply elem_of_map_to_list in Hin. simpl in *.
    apply bool_decide_unpack in Hc. eauto.
  - intros (f & Hm & Hc). exists (i, f). split; [done|].
    apply list_elem_of_filter. split.
    + simpl. by apply bool_decide_pack.
    + by apply elem_of_map_to_list.
Qed.

Lemma elem_of_indices (m : gmap Z str) i :
  i ∈ (map_to_list m).*1 ↔ is_Some (m !! i).
Proof.
  rewrite list_elem_of_fmap. split.
  - intros ([j f] & -> & Hin%elem_of_map_to_list). by exists f.
  - intros [f Hf]. exists (i, f). split; [done|]. by apply elem_of_map_to_list.
Qed.

(** The index of a new run: one more than every index in use, 0 if there is
    none. *)
Lemma next_index_fresh (m : gmap Z str) :
  m ≠ ∅ →
  ∃ k, max_int (map_to_list m).*1 = Some k ∧ is_Some (m !! k)
       ∧ (∀ i, is_Some (m !! i) → (i ≤ k)%Z) ∧ m !! (k + 1)%Z = None.
Proof.
  intros Hm.
  destruct (max_int_is_Some (map_to_list m).*1) as [k Hk].
  { intros Hnil%fmap_nil_inv. by apply map_to_list_empty_iff in Hnil. }
  destruct (max_int_spec _ _ Hk) as [Hin Hmax].
  exists k. split; [done|]. split; [by apply elem_of_indices|].
  assert (∀ i, is_Some (m !! i) → (i ≤ k)%Z) as Hle.
  { intros i Hi. by apply Hmax, elem_of_indices. }
  split; [done|].
  destruct (m !! (k + 1)%Z) eqn:E; [|done].
  specialize (Hle (k + 1)%Z ltac:(by eexists)). lia.
Qed.

End RunMap.

(** ** [getRunFolder] *)

Section GetRunFolder.
Context `{OsOk}.
Implicit Types dfp arf suffix : str.

(** The index of a new run, in the two forms of lines 216-219 and 238. *)
Lemma new_index_spec dfp arf fs (m : gmap Z str) :
  (∀ i f, m !! i = Some f →
     ∃ d r, listed dfp arf fs d r ∧ decimal d = i ∧ f = run_folder_of arf d r) →
  (∀ d r, listed dfp arf fs d r → is_Some (m !! decimal d)) →
  ∃ k, m !! k = None
    ∧ (if bool_decide (m ≠ ∅)
       then (λ i, (i + 1)%Z) <$> max_int (map_to_list m).*1 else Some 0%Z) = Some k
    ∧ (if bool_decide (m ≠ ∅)
       then (default 0 (max_int (map_to_list m).*1) + 1)%Z else 0%Z) = k
    ∧ (∀ d r, listed dfp arf fs d r → (decimal d < k)%Z)
    ∧ (k = 0%Z ∨ ∃ d r, listed dfp arf fs d r ∧ k = (decimal d + 1)%Z).
Proof.
  intros Hsound Hcompl. destruct (decide (m = ∅)) as [->|Hm].
  - exists 0%Z. rewrite bool_decide_eq_false_2 by naive_solver.
    split_and!; try done; [|by left].
    intros d r [f Hf]%Hcompl. by rewrite lookup_empty in Hf.
  - destruct (next_index_fresh m Hm) as (k & Hk & [f Hf] & Hmax & Hnone).
    exists (k + 1)%Z. rewrite bool_decide_eq_true_2, Hk by done.
    split_and!; try done.
    + intros d r Hdr%Hcompl. specialize (Hmax _ Hdr). lia.
    + right. destruct (Hsound _ _ Hf) as (d & r & Hdr & <- & _). eauto.
Qed.

Lemma rjust_digits k :
  (0 ≤ k < 100000)%Z →
  length (rjust 5 "0" (str_of_int k)) = 5%nat
  ∧ Forall is_digit (rjust 5 "0" (str_of_int k))
  ∧ decimal (rjust 5 "0" (str_of_int k)) = k.
Proof.
  intros [Hk0 Hk]. destruct (str_of_int_digits k Hk0) as (_ & Hd & Hdec & _).
  apply str_of_int_length in Hk; [|done]. unfold rjust. split_and!.
  - rewrite length_app, length_replicate. lia.
  - apply Forall_app. split; [|done]. apply Forall_replicate. by eexists.
  - by rewrite decimal_zeros.
Qed.

Lemma run_folder_of_format arf k suffix :
  (0 ≤ k < 100000)%Z → "\"%char ∉ arf → "\"%char ∉ suffix →
  run_folder_of arf (rjust 5 "0" (str_of_int k)) suffix
  = run_folder_format arf k suffix.
Proof.
  intros Hk Harf Hsuf. destruct (rjust_digits k Hk) as (_ & Hd & _).
  unfold run_folder_of, run_folder_format. rewrite replace_id.
  - by rewrite <- !app_assoc.
  - rewrite !not_elem_of_app, not_elem_of_cons. split_and!; try done.
    + by apply (bool_decide_unpack _).
    + intros Hin. eapply Forall_forall in Hd as [n Hn]; [|exact Hin]. done.
Qed.

Lemma run_folder_format_compatible arf k suffix :
  compatible suffix (run_folder_format arf k suffix).
Proof.
  unfold compatible, run_folder_format.
  exists (arf ++ lit "run." ++ rjust 5 "0" (str_of_int k)).
  by rewrite <- !app_assoc.
Qed.

End GetRunFolder.

Section RunFolderFacts.
Context `{OsOk}.
Implicit Types dfp arf suffix : str.

(** X16. [getRunFolder] touches the file system only to create the folder of
    a new run: with [create] unset, and whenever it returns a run to resume
    (flag [True]), the file system is unchanged; when it returns a new run
    (flag [False]), [create] was set, the folder has the format of a new run
    folder for the returned index, and the only change is that of
    [os.makedirs] on it. *)
Theorem getRunFolder_effect dfp arf runIndex resume create suffix fs :
  let out := getRunFolder dfp arf runIndex resume create suffix fs in
  (create = false → out.2 = fs)
  ∧ (∀ f i, out.1 = Return (f, i, true) → out.2 = fs)
  ∧ (∀ f i, out.1 = Return (f, i, false) →
       create = true ∧ f = run_folder_format arf i suffix
       ∧ os_makedirs (dfp ++ f) fs = (Return (), out.2)).
Proof.
  unfold getRunFolder.
  destruct (run_index_map dfp arf fs) as [m|e]; [|by simpl].
  set (c := compatible_indices suffix m).
  destruct (match runIndex with
            | Some i => Some i
            | None =>
                if resume then if bool_decide (c ≠ []) then max_int c else None
                else if bool_decide (m ≠ ∅)
                     then (λ i, (i + 1)%Z) <$> max_int (map_to_list m).*1
                     else Some 0%Z
            end) as [i|].
  - destruct (m !! i) as [f|].
    + destruct (bool_decide (i ∈ c)); simpl; split_and!; done.
    + destruct create; [|by simpl]. unfold create_run.
      destruct (os_makedirs _ fs) as [[[]|e] fs'] eqn:E; simpl; split_and!; try done.
      intros ?? [= <- <-]. by rewrite E.
  - destruct create; [|by simpl]. unfold create_run.
    destruct (os_makedirs _ fs) as [[[]|e] fs'] eqn:E; simpl; split_and!; try done.
    intros ?? [= <- <-]. by rewrite E.
Qed.

(** X17. If the listing of a match of the run pattern fails (a plain file
    named like a run folder, a folder that cannot be read), [getRunFolder]
    raises the error of such a listing, whatever its arguments, and creates
    nothing. *)
Theorem getRunFolder_unlistable dfp arf runIndex resume create suffix fs :
  (∃ p e, p ∈ glob_glob (dfp ++ arf ++ run_pattern) fs
          ∧ os_listdir p fs = Throw e) →
  ∃ p e, p ∈ glob_glob (dfp ++ arf ++ run_pattern) fs
         ∧ os_listdir p fs = Throw e
         ∧ getRunFolder dfp arf runIndex resume create suffix fs = (Throw e, fs).
Proof.
  intros Hfail. apply nonempty_folders_fail in Hfail as (p & e & Hp & He & Hn).
  exists p, e. split; [done|]. split; [done|].
  unfold getRunFolder, run_index_map. by rewrite Hn.
Qed.

(** X18. With an explicit run index the arguments [resume] plays no role:
    if no listed run folder has the index, the run is created when [create]
    is set and [FileNotFoundError] is raised otherwise; if a listed run
    folder has the index, it is returned with the resume flag set when it
    carries the suffix, and [ValueError] is raised when it does not, also
    when [create] is set. *)
Theorem getRunFolder_explicit_index dfp arf i resume create suffix fs :
  plain (dfp ++ arf) → listable dfp arf fs → unique_indices dfp arf fs →
  ((∀ d r, listed dfp arf fs d r → decimal d ≠ i) →
     getRunFolder dfp arf (Some i) resume create suffix fs
     = if create then create_run dfp arf i suffix fs
       else (Throw FileNotFoundError, fs))
  ∧ (∀ d r, listed dfp arf fs d r → decimal d = i →
       (compatible suffix (run_folder_of arf d r) →
          getRunFolder dfp arf (Some i) resume create suffix fs
          = (Return (run_folder_of arf d r, i, true), fs))
       ∧ (¬ compatible suffix (run_folder_of arf d r) →
          getRunFolder dfp arf (Some i) resume create suffix fs
          = (Throw ValueError, fs))).
Proof.
  intros HD Hlist Huniq.
  destruct (run_index_map_unique dfp arf fs HD Hlist Huniq)
    as (m & Hm & Hsound & Hlook).
  unfold getRunFolder. rewrite Hm. split.
  - intros Hnone. destruct (m !! i) as [f|] eqn:Hf; [|done].
    destruct (Hsound _ _ Hf) as (d & r & Hdr & Hdec & _). by destruct (Hnone d r).
  - intros d r Hdr <-. rewrite (Hlook d r Hdr). split; intros Hc.
    + rewrite bool_decide_eq_true_2; [done|].
      apply elem_of_compatible_indices. eauto.
    + rewrite bool_decide_eq_false_2; [done|].
      intros (f & Hf & Hcf)%elem_of_compatible_indices.
      rewrite (Hlook d r Hdr) in Hf. by injection Hf as <-.
Qed.

(** X19. Without a run index and without [resume], [getRunFolder] takes a
    new index: 0 when no run folder is listed, and otherwise one more than
    the greatest index of a listed run folder; the run is created when
    [create] is set, and [FileNotFoundError] is raised otherwise. *)
Theorem getRunFolder_new_index dfp arf create suffix fs :
  plain (dfp ++ arf) → listable dfp arf fs →
  ∃ k, getRunFolder dfp arf None false create suffix fs
       = (if create then create_run dfp arf k suffix fs
          else (Throw FileNotFoundError, fs))
     ∧ (∀ d r, listed dfp arf fs d r → (decimal d < k)%Z)
     ∧ (k = 0%Z ∨ ∃ d r, listed dfp arf fs d r ∧ k = (decimal d + 1)%Z).
Proof.
  intros HD Hlist.
  destruct (run_index_map_spec dfp arf fs HD Hlist) as (m & Hm & Hsound & Hcompl).
  destruct (new_index_spec dfp arf fs m Hsound Hcompl)
    as (k & Hnone & Hk & _ & Hlt & Hnext).
  exists k. split; [|done].
  unfold getRunFolder. rewrite Hm. cbv zeta. by rewrite Hk, Hnone.
Qed.

(** X20. Without a run index and with [resume], [getRunFolder] returns the
    listed run folder of the greatest index among those that carry the
    suffix, with the resume flag set and without creating anything; when no
    listed run folder carries the suffix it takes a new index, greater than
    every listed one, and creates the run if [create] is set. *)
Theorem getRunFolder_resume_latest dfp arf create suffix fs :
  plain (dfp ++ arf) → listable dfp arf fs → unique_indices dfp arf fs →
  (∀ d r, listed dfp arf fs d r → compatible suffix (run_folder_of arf d r) →
     (∀ d' r', listed dfp arf fs d' r' →
        compatible suffix (run_folder_of arf d' r') →
        (decimal d' ≤ decimal d)%Z) →
     getRunFolder dfp arf None true create suffix fs
     = (Return (run_folder_of arf d r, decimal d, true), fs))
  ∧ ((∀ d r, listed dfp arf fs d r → ¬ compatible suffix (run_folder_of arf d r)) →
     ∃ k, getRunFolder dfp arf None true create suffix fs
          = (if create then create_run dfp arf k suffix fs
             else (Throw FileNotFoundError, fs))
        ∧ (∀ d r, listed dfp arf fs d r → (decimal d < k)%Z)
        ∧ (k = 0%Z ∨ ∃ d r, listed dfp arf fs d r ∧ k = (decimal d + 1)%Z)).
Proof.
  intros HD Hlist Huniq.
  destruct (run_index_map_unique dfp arf fs HD Hlist Huniq)
    as (m & Hm & Hsound & Hlook).
  unfold getRunFolder. rewrite Hm. cbv zeta. split.
  - intros d r Hdr Hc Hmax.
    assert (decimal d ∈ compatible_indices suffix m) as Hin.
    { apply elem_of_compatible_indices. eauto. }
    rewrite bool_decide_eq_true_2 by (intros Hnil; rewrite Hnil in Hin; by apply elem_of_nil in Hin).
    destruct (max_int_is_Some (compatible_indices suffix m)) as [k Hk].
    { intros Hnil. rewrite Hnil in Hin. by apply elem_of_nil in Hin. }
    destruct (max_int_spec _ _ Hk) as [Hkin Hkmax].
    assert (k = decimal d) as ->.
    { apply elem_of_compatible_indices in Hkin as (f & Hf & Hcf).
      destruct (Hsound _ _ Hf) as (d' & r' & Hdr' & <- & ->).
      specialize (Hmax d' r' Hdr' Hcf). specialize (Hkmax _ Hin). lia. }
    rewrite Hk, (Hlook d r Hdr). by rewrite bool_decide_eq_true_2.
  - intros Hnone.
    assert (compatible_indices suffix m = []) as ->.
    { apply elem_of_nil_inv. intros i (f & Hf & Hcf)%elem_of_compatible_indices.
      destruct (Hsound _ _ Hf) as (d & r & Hdr & _ & ->). by destruct (Hnone d r). }
    rewrite bool_decide_eq_false_2 by naive_solver.
    destruct (new_index_spec dfp arf fs m Hsound) as (k & _ & _ & Hk & Hlt & Hnext).
    { intros d r Hdr. rewrite (Hlook d r Hdr). by eexists. }
    exists k. by rewrite Hk.
Qed.

(** X21. The folder of a new run of index [k] has the shape the run pattern
    looks for, [run.] and five digits that denote [k] followed by a dot and
    the suffix, exactly when [k < 100000]; from 100000 on the digits are
    not followed by a dot, so that the folder is not a match of the
    pattern. *)
Theorem run_folder_format_index arf k suffix :
  (0 ≤ k)%Z →
  ((k < 100000)%Z →
     ∃ d, run_folder_format arf k suffix
          = arf ++ lit "run." ++ d ++ "."%char :: suffix ++ lit "/"
        ∧ length d = 5%nat ∧ Forall is_digit d ∧ decimal d = k)
  ∧ ((100000 ≤ k)%Z →
     ∀ d rest, length d = 5%nat →
       run_folder_format arf k suffix ≠ arf ++ lit "run." ++ d ++ "."%char :: rest).
Proof.
  intros Hk0. split.
  - intros Hk. exists (rjust 5 "0" (str_of_int k)).
    by destruct (rjust_digits k (conj Hk0 Hk)) as (? & ? & ?).
  - intros Hk d rest Hlen Heq. unfold run_folder_format in Heq.
    do 2 apply app_inv_head in Heq.
    destruct (str_of_int_digits k Hk0) as (_ & Hd & _).
    assert (¬ (length (str_of_int k) ≤ 5)%nat) as Hlong.
    { rewrite str_of_int_length by done. lia. }
    unfold rjust in Heq.
    replace (5 - length (str_of_int k))%nat with 0%nat in Heq by lia.
    cbn [replicate app] in Heq.
    destruct (lookup_lt_is_Some_2 (str_of_int k) 5 ltac:(lia)) as [c Hc].
    assert ((d ++ "."%char :: rest) !! 5%nat = Some c) as Hc'.
    { rewrite <- Heq. by apply lookup_app_l_Some. }
    rewrite lookup_app_r, Hlen in Hc' by lia. injection Hc' as <-.
    eapply Forall_lookup in Hd; [|exact Hc]. by apply digit_not_dot in Hd.
Qed.

(** X22. A run that [getRunFolder] has created is found again: once the
    folder of run [k < 100000] is listed (it is no longer empty), a call with
    run index [k] and the same suffix returns that folder with the resume
    flag set. *)
Theorem getRunFolder_finds_created dfp arf k resume create suffix fs :
  plain (dfp ++ arf) → listable dfp arf fs → unique_indices dfp arf fs →
  (0 ≤ k < 100000)%Z → "\"%char ∉ arf → "\"%char ∉ suffix →
  listed dfp arf fs (rjust 5 "0" (str_of_int k)) suffix →
  getRunFolder dfp arf (Some k) resume create suffix fs
  = (Return (run_folder_format arf k suffix, k, true), fs).
Proof.
  intros HD Hlist Huniq Hk Harf Hsuf Hdr.
  destruct (run_index_map_unique dfp arf fs HD Hlist Huniq)
    as (m & Hm & Hsound & Hlook).
  specialize (Hlook _ _ Hdr).
  destruct (rjust_digits k Hk) as (_ & _ & Hdec).
  rewrite Hdec, run_folder_of_format in Hlook by done.
  unfold getRunFolder. rewrite Hm, Hlook.
  rewrite bool_decide_eq_true_2; [done|].
  apply elem_of_compatible_indices. eexists. split; [done|].
  apply run_folder_format_compatible.
Qed.

End RunFolderFacts.

(** ** [getLatestCheckpoint] *)

Section Checkpoints.
Context `{OsOk}.
Implicit Types dfp rf : str.

Lemma chk_path_inj R n1 n2 : chk_path R n1 = chk_path R n2 → n1 = n2.
Proof.
  unfold chk_path. intros Heq. do 2 apply app_inv_head in Heq.
  by apply app_inv_tail in Heq.
Qed.

Lemma globbed_chk dfp rf fs p :
  plain (dfp ++ rf) → p ∈ glob_glob (dfp ++ rf ++ chk_pattern) fs →
  ∃ name, p = chk_path (dfp ++ rf) name ∧ "/"%char ∉ name.
Proof.
  intros HR Hp. apply (glob_chk (dfp ++ rf) fs p HR). by rewrite <- app_assoc.
Qed.

(** The result of the call, given the greatest of the paths found. *)
Lemma getLatestCheckpoint_eval dfp rf fs name :
  plain (dfp ++ rf) →
  chk_path (dfp ++ rf) name ∈ glob_glob (dfp ++ rf ++ chk_pattern) fs →
  (∀ p, p ∈ glob_glob (dfp ++ rf ++ chk_pattern) fs →
        str_le p (chk_path (dfp ++ rf) name) = true) →
  getLatestCheckpoint dfp rf fs
  = match mapM py_int (split "." name) with
    | Some [e; s] => Return (e, s, Some (lit "Chk" ++ name))
    | _ => Throw ValueError
    end.
Proof.
  intros HR Hin Hmax.
  destruct (globbed_chk dfp rf fs _ HR Hin) as (name' & Heq & Hname).
  apply chk_path_inj in Heq as <-.
  unfold getLatestCheckpoint.
  destruct (glob_glob (dfp ++ rf ++ chk_pattern) fs) as [|p ps] eqn:Hg.
  { by apply elem_of_nil in Hin. }
  cbv zeta. rewrite (max_str_unique p ps (chk_path (dfp ++ rf) name)) by done.
  rewrite chk_folder_name by done.
  by change (drop (length (lit "Chk")) (lit "Chk" ++ name)) with name.
Qed.

Lemma greatest_checkpoint dfp rf fs :
  plain (dfp ++ rf) → glob_glob (dfp ++ rf ++ chk_pattern) fs ≠ [] →
  ∃ name, ("/"%char ∉ name)
    ∧ chk_path (dfp ++ rf) name ∈ glob_glob (dfp ++ rf ++ chk_pattern) fs
    ∧ ∀ p, p ∈ glob_glob (dfp ++ rf ++ chk_pattern) fs →
           str_le p (chk_path (dfp ++ rf) name) = true.
Proof.
  intros HR Hne.
  destruct (glob_glob (dfp ++ rf ++ chk_pattern) fs) as [|p ps] eqn:Hg; [done|].
  destruct (max_str_spec p ps) as [Hin Hmax].
  destruct (globbed_chk dfp rf fs (max_str p ps) HR) as (name & Heq & Hname).
  { by rewrite Hg. }
  exists name. rewrite <- Heq. done.
Qed.

Lemma split_epoch_step e s :
  Forall is_digit e → Forall is_digit s →
  split "." (e ++ "."%char :: s) = [e; s].
Proof.
  intros He Hs. rewrite split_app, split_no_sep; [done|..].
  - intros Hin. eapply Forall_forall in Hs; [|exact Hin]. by apply digit_not_dot in Hs.
  - intros Hin. eapply Forall_forall in He; [|exact Hin]. by apply digit_not_dot in He.
Qed.

Lemma chk_path_split R e s :
  chk_path R (e ++ "."%char :: s)
  = (R ++ lit "Chk") ++ e ++ "."%char :: s ++ lit "/output_vocab.pt".
Proof. unfold chk_path. by rewrite <- !app_assoc. Qed.

(** Paths of checkpoints whose epochs have the same number of digits, and
    whose steps have, are ordered as the pairs of epoch and step. *)
Lemma chk_path_le R e1 s1 e2 s2 :
  length e1 = length e2 → length s1 = length s2 →
  Forall is_digit e1 → Forall is_digit e2 →
  Forall is_digit s1 → Forall is_digit s2 →
  str_le (chk_path R (e1 ++ "."%char :: s1)) (chk_path R (e2 ++ "."%char :: s2))
    = true →
  (decimal e1 < decimal e2)%Z
  ∨ (decimal e1 = decimal e2 ∧ (decimal s1 ≤ decimal s2)%Z).
Proof.
  intros Hle Hls He1 He2 Hs1 Hs2. rewrite !chk_path_split. unfold str_le.
  rewrite str_compare_app.
  destruct (decide (e1 = e2)) as [->|Hne].
  - rewrite str_compare_app. cbn [str_compare]. rewrite ascii_compare_refl.
    destruct (decide (s1 = s2)) as [->|Hns]; [intros _; right; split; [done|lia]|].
    rewrite str_compare_digits by done.
    destruct (Z.compare_spec (decimal s1) (decimal s2)); try done; intros _; right; lia.
  - rewrite str_compare_digits by done.
    assert (decimal e1 ≠ decimal e2) by (intros ?%decimal_inj; done).
    destruct (Z.compare_spec (decimal e1) (decimal e2)); try done; intros _; left; lia.
Qed.

(** X23. When no checkpoint is found the result is [(-1, -1, None)].
    Otherwise, if every checkpoint folder found is named [Chk<e>.<s>] with
    digits [e] and [s], the result is the epoch [e], the step [s] and the
    folder name of the checkpoint whose path is the greatest in the order of
    strings. *)
Theorem getLatestCheckpoint_greatest dfp rf fs :
  plain (dfp ++ rf) →
  (∀ name, chk_path (dfp ++ rf) name ∈ glob_glob (dfp ++ rf ++ chk_pattern) fs →
     ∃ e s, name = e ++ "."%char :: s
            ∧ e ≠ [] ∧ s ≠ [] ∧ Forall is_digit e ∧ Forall is_digit s
            ∧ (length e ≤ 4300)%nat ∧ (length s ≤ 4300)%nat) →
  (glob_glob (dfp ++ rf ++ chk_pattern) fs = [] →
     getLatestCheckpoint dfp rf fs = Return ((-1)%Z, (-1)%Z, None))
  ∧ (glob_glob (dfp ++ rf ++ chk_pattern) fs ≠ [] →
     ∃ e s, getLatestCheckpoint dfp rf fs
            = Return (decimal e, decimal s, Some (lit "Chk" ++ e ++ "."%char :: s))
          ∧ chk_path (dfp ++ rf) (e ++ "."%char :: s)
              ∈ glob_glob (dfp ++ rf ++ chk_pattern) fs
          ∧ ∀ p, p ∈ glob_glob (dfp ++ rf ++ chk_pattern) fs →
                 str_le p (chk_path (dfp ++ rf) (e ++ "."%char :: s)) = true).
Proof.
  intros HR Hnames. split.
  { intros Hg. unfold getLatestCheckpoint. by rewrite Hg. }
  intros Hne.
  destruct (greatest_checkpoint dfp rf fs HR Hne) as (name & Hname & Hin & Hmax).
  destruct (Hnames name Hin) as (e & s & -> & He0 & Hs0 & He & Hs & Hle & Hls).
  exists e, s. split; [|done].
  rewrite (getLatestCheckpoint_eval dfp rf fs _ HR Hin Hmax).
  rewrite split_epoch_step by done. cbn [mapM mbind option_bind mret option_ret].
  by rewrite !py_int_decimal by done.
Qed.

(** X24. If the epochs of all checkpoint folders found are written with the
    same number of digits, and the steps are, the checkpoint returned is the
    latest: no checkpoint found has a greater epoch, or the same epoch and a
    greater step. *)
Theorem getLatestCheckpoint_latest dfp rf fs (w1 w2 : nat) :
  plain (dfp ++ rf) → (0 < w1 ≤ 4300)%nat → (0 < w2 ≤ 4300)%nat →
  glob_glob (dfp ++ rf ++ chk_pattern) fs ≠ [] →
  (∀ name, chk_path (dfp ++ rf) name ∈ glob_glob (dfp ++ rf ++ chk_pattern) fs →
     ∃ e s, name = e ++ "."%char :: s ∧ length e = w1 ∧ length s = w2
            ∧ Forall is_digit e ∧ Forall is_digit s) →
  ∃ e s, getLatestCheckpoint dfp rf fs
         = Return (decimal e, decimal s, Some (lit "Chk" ++ e ++ "."%char :: s))
       ∧ chk_path (dfp ++ rf) (e ++ "."%char :: s)
           ∈ glob_glob (dfp ++ rf ++ chk_pattern) fs
       ∧ ∀ e' s', length e' = w1 →
           chk_path (dfp ++ rf) (e' ++ "."%char :: s')
             ∈ glob_glob (dfp ++ rf ++ chk_pattern) fs →
           (decimal e' < decimal e)%Z
           ∨ (decimal e' = decimal e ∧ (decimal s' ≤ decimal s)%Z).
Proof.
  intros HR Hw1 Hw2 Hne Hnames.
  destruct (greatest_checkpoint dfp rf fs HR Hne) as (name & Hname & Hin & Hmax).
  destruct (Hnames name Hin) as (e & s & -> & Hle & Hls & He & Hs).
  exists e, s. split; [|split; [done|]].
  - rewrite (getLatestCheckpoint_eval dfp rf fs _ HR Hin Hmax).
    rewrite split_epoch_step by done. cbn [mapM mbind option_bind mret option_ret].
    assert (e ≠ [] ∧ s ≠ []) as [He0 Hs0].
    { split; intros ->; simpl in *; lia. }
    by rewrite !py_int_decimal by (done || lia).
  - intros e' s' Hle' Hin'.
    destruct (Hnames _ Hin') as (e0 & s0 & Heq & Hle0 & Hls0 & He0 & Hs0).
    apply app_inj_1 in Heq as [-> [= ->]]; [|congruence].
    apply (chk_path_le (dfp ++ rf)); try done; try congruence.
    by apply Hmax.
Qed.

(** X25. If the name of the checkpoint folder with the greatest path does
    not hold exactly one dot after [Chk], [getLatestCheckpoint] raises
    [ValueError]. *)
Theorem getLatestCheckpoint_malformed dfp rf fs name :
  plain (dfp ++ rf) →
  chk_path (dfp ++ rf) name ∈ glob_glob (dfp ++ rf ++ chk_pattern) fs →
  (∀ p, p ∈ glob_glob (dfp ++ rf ++ chk_pattern) fs →
        str_le p (chk_path (dfp ++ rf) name) = true) →
  length (filter (λ c, c = "."%char) name) ≠ 1%nat →
  getLatestCheckpoint dfp rf fs = Throw ValueError.
Proof.
  intros HR Hin Hmax Hdots.
  rewrite (getLatestCheckpoint_eval dfp rf fs _ HR Hin Hmax).
  destruct (mapM py_int (split "." name)) as [l|] eqn:E; [|done].
  apply length_mapM in E. rewrite split_length in E.
  destruct l as [|a [|b [|c l]]]; try done.
  simpl in E. lia.
Qed.

End Checkpoints.

End ConfigFacts.

(** * The run folders of a concrete training directory *)

Module ConfigWitnesses.
Import Config ConfigConcrete ConfigFacts.

Lemma run_pattern_not_chk R : ¬ run_pattern `suffix_of` R ++ chk_pattern.
Proof.
  intros [k Hk]. apply (f_equal last) in Hk.
  rewrite !last_app in Hk. done.
Qed.

Lemma DirOs_ok : OsOk.
Proof.
  split.
  - intros s Hs Hd _. unfold py_int, DirOs, int_digits. by rewrite decide_True.
  - intros D fs p _. unfold glob_glob, DirOs, glob.
    rewrite bool_decide_eq_true_2 by (by apply suffix_app_r).
    rewrite length_app, Nat.add_sub, take_app_length.
    intros (n & -> & [(H4 & H5 & Hd & Hdot & Hsl) Hin]%list_elem_of_filter)%list_elem_of_fmap.
    exists (slice 4 9 n), (drop 10 n). split_and!; try done.
    f_equal. rewrite <- H4.
    rewrite <- (take_drop 4 n) at 1. f_equal.
    unfold slice. change (9 - 4)%nat with 5%nat.
    rewrite <- (take_drop 5 (drop 4 n)) at 1. f_equal.
    rewrite drop_drop. change (4 + 5)%nat with 9%nat.
    rewrite <- (take_drop 1 (drop 9 n)) at 1. rewrite Hdot, drop_drop. done.
  - intros R fs p _. unfold glob_glob, DirOs, glob.
    rewrite bool_decide_eq_false_2 by apply run_pattern_not_chk.
    rewrite bool_decide_eq_true_2 by (by apply suffix_app_r).
    rewrite length_app, Nat.add_sub, take_app_length.
    intros (n & -> & [(H3 & Hsl & _) Hin]%list_elem_of_filter)%list_elem_of_fmap.
    exists (drop 3 n). unfold chk_path. split.
    + f_equal. rewrite <- H3. by rewrite app_assoc, take_drop.
    + intros Hd. apply Hsl. rewrite <- (take_drop 3 n). apply elem_of_app. by right.
Qed.

(** [listable] and [unique_indices] from the list of matches. *)
Lemma listable_Forall `{Os} dfp arf fs :
  Forall (λ p, match os_listdir p fs with Return _ => True | Throw _ => False end)
         (glob_glob (dfp ++ arf ++ run_pattern) fs) →
  listable dfp arf fs.
Proof.
  intros Hall p Hp. eapply Forall_forall in Hall; [|exact Hp].
  destruct (os_listdir p fs); [by eexists|done].
Qed.

Lemma NoDup_fst_eq {A B} (l : list (A * B)) a b1 b2 :
  NoDup l.*1 → (a, b1) ∈ l → (a, b2) ∈ l → b1 = b2.
Proof.
  induction l as [|[a' b'] l IH]; intros Hnd H1 H2; [by apply elem_of_nil in H1|].
  rewrite fmap_cons in Hnd. apply NoDup_cons in Hnd as [Hn Hnd]. simpl in Hn.
  apply elem_of_cons in H1 as [H1|H1], H2 as [H2|H2].
  - congruence.
  - injection H1 as -> ->. destruct Hn.
    by apply (list_elem_of_fmap_2' fst l (a', b2)).
  - injection H2 as -> ->. destruct Hn.
    by apply (list_elem_of_fmap_2' fst l (a', b1)).
  - by apply IH.
Qed.

Lemma unique_indices_NoDup `{Os} dfp arf fs (prs : list (str * str)) :
  glob_glob (dfp ++ arf ++ run_pattern) fs
    = (λ dr, run_path dfp arf dr.1 dr.2) <$> prs →
  Forall (λ dr, length dr.1 = 5%nat) prs → NoDup prs.*1 →
  unique_indices dfp arf fs.
Proof.
  intros Hg Hlen Hnd.
  assert (∀ d r, listed dfp arf fs d r → (d, r) ∈ prs) as Hin.
  { intros d r (Hd & _ & Hin & _). rewrite Hg in Hin.
    apply list_elem_of_fmap_1 in Hin as ([d' r'] & Heq & Hin).
    eapply Forall_forall in Hlen; [|exact Hin]. simpl in *.
    apply run_path_inj in Heq as [-> ->]; [done|congruence]. }
  intros d1 r1 d2 r2 H1%Hin H2%Hin ->. by eapply NoDup_fst_eq.
Qed.

Lemma training_dir_plain : plain (training_dir ++ allRunsFolder).
Proof.
  exists (lit "/data/runFolders"). split; [done|]. split; [done|].
  unfold magic. by apply (bool_decide_unpack _).
Qed.

Lemma run0_plain : plain (training_dir ++ run0).
Proof.
  exists (lit "/data/runFolders/run.00000.toy1_3"). split; [done|]. split; [done|].
  unfold magic. by apply (bool_decide_unpack _).
Qed.

Lemma run1_plain : plain (training_dir ++ run1).
Proof.
  exists (lit "/data/runFolders/run.00001.toy2_3"). split; [done|]. split; [done|].
  unfold magic. by apply (bool_decide_unpack _).
Qed.

Lemma fs0_listable : listable training_dir allRunsFolder fs0.
Proof. apply listable_Forall. vm_compute. by repeat constructor. Qed.

Lemma fs0_unique : unique_indices training_dir allRunsFolder fs0.
Proof.
  apply (unique_indices_NoDup _ _ _
    [(lit "00000", lit "toy1_3"); (lit "00001", lit "toy2_3");
     (lit "00002", lit "toy1_3")]).
  - by vm_compute.
  - by repeat constructor.
  - by apply (bool_decide_unpack _).
Qed.

Lemma fs0_listed0 : listed training_dir allRunsFolder fs0 (lit "00000") (lit "toy1_3").
Proof.
  split; [done|]. split; [repeat constructor; by eexists|]. split.
  - apply (bool_decide_unpack _). by vm_compute.
  - eexists _, _. by vm_compute.
Qed.

Lemma fs0_listed1 : listed training_dir allRunsFolder fs0 (lit "00001") (lit "toy2_3").
Proof.
  split; [done|]. split; [repeat constructor; by eexists|]. split.
  - apply (bool_decide_unpack _). by vm_compute.
  - eexists _, _. by vm_compute.
Qed.

Lemma fs0_listed_inv d r :
  listed training_dir allRunsFolder fs0 d r →
  (d = lit "00000" ∧ r = lit "toy1_3") ∨ (d = lit "00001" ∧ r = lit "toy2_3").
Proof.
  intros (Hlen & _ & Hin & (n & ns & Hne)).
  assert (glob_glob (training_dir ++ allRunsFolder ++ run_pattern) fs0
          = [run_path training_dir allRunsFolder (lit "00000") (lit "toy1_3");
             run_path training_dir allRunsFolder (lit "00001") (lit "toy2_3");
             run_path training_dir allRunsFolder (lit "00002") (lit "toy1_3")])
    as Hg by (by vm_compute).
  rewrite Hg in Hin.
  repeat (apply elem_of_cons in Hin as [Heq|Hin]);
    [apply run_path_inj in Heq as [-> ->]; [|done]..|by apply elem_of_nil in Hin].
  - by left.
  - by right.
  - by vm_compute in Hne.
Qed.

Lemma fs0_checkpoints :
  glob_glob (training_dir ++ run0 ++ chk_pattern) fs0
  = [chk_path (training_dir ++ run0) (lit "0001.000100");
     chk_path (training_dir ++ run0) (lit "0002.000250")].
Proof. by vm_compute. Qed.

Lemma fs0_checkpoint_names name :
  chk_path (training_dir ++ run0) name
    ∈ glob_glob (training_dir ++ run0 ++ chk_pattern) fs0 →
  ∃ e s, name = e ++ "."%char :: s ∧ length e = 4%nat ∧ length s = 6%nat
         ∧ Forall is_digit e ∧ Forall is_digit s.
Proof.
  rewrite fs0_checkpoints.
  intros [->%chk_path_inj|[->%chk_path_inj|?%elem_of_nil]%elem_of_cons]%elem_of_cons;
    [exists (lit "0001"), (lit "000100")|exists (lit "0002"), (lit "000250")|done];
    split_and!; try done; repeat constructor; by eexists.
Qed.

Lemma getRunFolder_unlistable_witness :
  ∃ p e, p ∈ glob_glob (training_dir ++ allRunsFolder ++ run_pattern) fs1
         ∧ os_listdir p fs1 = Throw e
         ∧ getRunFolder training_dir allRunsFolder None true true (lit "toy1_3") fs1
           = (Throw e, fs1).
Proof.
  apply (@getRunFolder_unlistable DirOs training_dir allRunsFolder None true true
           (lit "toy1_3") fs1).
  exists (lit "/data/runFolders/run.00007.txt"), NotADirectoryError. split.
  - apply (bool_decide_unpack _). vm_compute. exact I.
  - vm_compute. reflexivity.
Defined.

Lemma getRunFolder_explicit_index_witness :
  getRunFolder training_dir allRunsFolder (Some 1%Z) false true (lit "toy1_3") fs0
  = (Throw ValueError, fs0).
Proof.
  destruct (@getRunFolder_explicit_index DirOs DirOs_ok training_dir allRunsFolder 1%Z false true
              (lit "toy1_3") fs0 training_dir_plain fs0_listable fs0_unique)
    as [_ Hlisted].
  destruct (Hlisted (lit "00001") (lit "toy2_3") fs0_listed1 eq_refl) as [_ Hv].
  apply Hv. unfold compatible. intros Hc%(bool_decide_pack _).
  vm_compute in Hc. exact Hc.
Defined.

Lemma getRunFolder_new_index_witness :
  ∃ k, getRunFolder training_dir allRunsFolder None false true (lit "toy1_3") fs0
       = create_run training_dir allRunsFolder k (lit "toy1_3") fs0
     ∧ (∀ d r, listed training_dir allRunsFolder fs0 d r → (decimal d < k)%Z)
     ∧ (k = 0%Z
        ∨ ∃ d r, listed training_dir allRunsFolder fs0 d r ∧ k = (decimal d + 1)%Z).
Proof.
  apply (@getRunFolder_new_index DirOs DirOs_ok training_dir allRunsFolder true (lit "toy1_3") fs0).
  - exact training_dir_plain.
  - exact fs0_listable.
Defined.

Lemma getRunFolder_resume_latest_witness :
  getRunFolder training_dir allRunsFolder None true true (lit "toy1_3") fs0
  = (Return (lit "runFolders/run.00000.toy1_3/", 0%Z, true), fs0).
Proof.
  destruct (@getRunFolder_resume_latest DirOs DirOs_ok training_dir allRunsFolder true
              (lit "toy1_3") fs0 training_dir_plain fs0_listable fs0_unique)
    as [Hlatest _].
  apply (Hlatest (lit "00000") (lit "toy1_3") fs0_listed0).
  - unfold compatible. apply (bool_decide_unpack _). vm_compute. exact I.
  - intros d' r' [[-> ->]|[-> ->]]%fs0_listed_inv Hc.
    + vm_compute. discriminate.
    + unfold compatible in Hc. apply (bool_decide_pack _) in Hc.
      vm_compute in Hc. destruct Hc.
Defined.

Lemma run_folder_format_index_witness :
  ((7 < 100000)%Z →
     ∃ d, run_folder_format allRunsFolder 7 (lit "toy1_3")
          = allRunsFolder ++ lit "run." ++ d ++ "."%char :: lit "toy1_3" ++ lit "/"
        ∧ length d = 5%nat ∧ Forall is_digit d ∧ decimal d = 7%Z)
  ∧ ((100000 ≤ 7)%Z →
     ∀ d rest, length d = 5%nat →
       run_folder_format allRunsFolder 7 (lit "toy1_3")
       ≠ allRunsFolder ++ lit "run." ++ d ++ "."%char :: rest).
Proof.
  apply (run_folder_format_index allRunsFolder 7 (lit "toy1_3")). lia.
Defined.

Lemma getRunFolder_finds_created_witness :
  getRunFolder training_dir allRunsFolder (Some 0%Z) false false (lit "toy1_3") fs0
  = (Return (run_folder_format allRunsFolder 0 (lit "toy1_3"), 0%Z, true), fs0).
Proof.
  apply (@getRunFolder_finds_created DirOs DirOs_ok training_dir allRunsFolder 0 false false
           (lit "toy1_3") fs0).
  - exact training_dir_plain.
  - exact fs0_listable.
  - exact fs0_unique.
  - lia.
  - apply (bool_decide_unpack _). vm_compute. exact I.
  - apply (bool_decide_unpack _). vm_compute. exact I.
  - exact fs0_listed0.
Defined.

Lemma getLatestCheckpoint_greatest_witness :
  ∃ e s, getLatestCheckpoint training_dir run0 fs0
         = Return (decimal e, decimal s, Some (lit "Chk" ++ e ++ "."%char :: s))
       ∧ chk_path (training_dir ++ run0) (e ++ "."%char :: s)
           ∈ glob_glob (training_dir ++ run0 ++ chk_pattern) fs0
       ∧ ∀ p, p ∈ glob_glob (training_dir ++ run0 ++ chk_pattern) fs0 →
              str_le p (chk_path (training_dir ++ run0) (e ++ "."%char :: s)) = true.
Proof.
  destruct (@getLatestCheckpoint_greatest DirOs DirOs_ok training_dir run0 fs0 run0_plain)
    as [_ Hsome].
  - intros name (e & s & -> & He & Hs & Hde & Hds)%fs0_checkpoint_names.
    exists e, s. split_and!; try done.
    + intros ->. discriminate He.
    + intros ->. discriminate Hs.
    + rewrite He. lia.
    + rewrite Hs. lia.
  - apply Hsome. rewrite fs0_checkpoints. discriminate.
Defined.

Lemma getLatestCheckpoint_latest_witness :
  ∃ e s, getLatestCheckpoint training_dir run0 fs0
         = Return (decimal e, decimal s, Some (lit "Chk" ++ e ++ "."%char :: s))
       ∧ chk_path (training_dir ++ run0) (e ++ "."%char :: s)
           ∈ glob_glob (training_dir ++ run0 ++ chk_pattern) fs0
       ∧ ∀ e' s', length e' = 4%nat →
           chk_path (training_dir ++ run0) (e' ++ "."%char :: s')
             ∈ glob_glob (training_dir ++ run0 ++ chk_pattern) fs0 →
           (decimal e' < decimal e)%Z
           ∨ (decimal e' = decimal e ∧ (decimal s' ≤ decimal s)%Z).
Proof.
  apply (@getLatestCheckpoint_latest DirOs DirOs_ok training_dir run0 fs0 4 6).
  - exact run0_plain.
  - lia.
  - lia.
  - rewrite fs0_checkpoints. discriminate.
  - exact fs0_checkpoint_names.
Defined.

Lemma getLatestCheckpoint_malformed_witness :
  getLatestCheckpoint training_dir run1 fs0 = Throw ValueError.
Proof.
  apply (@getLatestCheckpoint_malformed DirOs DirOs_ok training_dir run1 fs0 (lit "Final")).
  - exact run1_plain.
  - apply (bool_decide_unpack _). vm_compute. exact I.
  - intros p Hp.
    assert (glob_glob (training_dir ++ run1 ++ chk_pattern) fs0
            = [chk_path (training_dir ++ run1) (lit "Final")]) as Hg by reflexivity.
    rewrite Hg in Hp. apply list_elem_of_singleton in Hp. rewrite Hp.
    apply str_le_refl.
  - simpl. lia.
Defined.

End ConfigWitnesses.
